(** * The gate-level simulator driver ([main.py]), embedded in Rocq

    The driver parses its command line, asks the [verilogFuncs] library to
    parse a structural Verilog file, and then either simulates the whole
    design or a single gate instance of the top module, before handing the
    result to Graphviz.

    Conventions of the embedding:
    - text is a [string] of characters with code points below 256; on these
      [str.lower], [str.strip], the regular-expression class [\s] and [int]
      are modelled exactly;
    - integers are [Z];
    - the dictionaries that the driver iterates over ([in_vals], [out_vals],
      [port_info]) are insertion-ordered association lists, the tables it
      only looks up (the module table, the primitive catalog, the
      signal-value store) are [gmap]s;
    - [print], [input], [open], [os.system] and every call into
      [verilogFuncs] go through a small state-and-exception monad whose state
      is the pending standard input and the log of what happened so far;
    - [sys.exit] and raised exceptions are outcomes of a run. *)

From Stdlib Require Import ZArith Ascii.
From stdpp Require Import base list strings gmap.

#[local] Open Scope Z_scope.

(** ** Python strings *)

Module Py.

(** [Py_UNICODE_ISSPACE] on code points below 256: used by [str.strip] and
    by the class [\s] of [re]. *)
Definition isspace (c : ascii) : bool :=
  let n := N_of_ascii c in
  ((9 <=? n) && (n <=? 13) || (28 <=? n) && (n <=? 32)
   || (n =? 133) || (n =? 160))%N.

(** [str.lower] on one character. *)
Definition lower_char (c : ascii) : ascii :=
  let n := N_of_ascii c in
  if ((65 <=? n) && (n <=? 90)
      || (192 <=? n) && (n <=? 222) && negb (n =? 215))%N
  then ascii_of_N (n + 32) else c.

Fixpoint lower (s : string) : string :=
  match s with
  | EmptyString => EmptyString
  | String c s' => String (lower_char c) (lower s')
  end.

Fixpoint lstrip (s : string) : string :=
  match s with
  | EmptyString => EmptyString
  | String c s' => if isspace c then lstrip s' else s
  end.

Fixpoint rstrip (s : string) : string :=
  match s with
  | EmptyString => EmptyString
  | String c s' =>
      match rstrip s' with
      | EmptyString => if isspace c then EmptyString else String c EmptyString
      | r => String c r
      end
  end.

(** [s.strip()] *)
Definition strip (s : string) : string := lstrip (rstrip s).

(** [s.startswith(c)] for a one-character prefix. *)
Definition startswith (s : string) (c : ascii) : bool :=
  match s with
  | String c' _ => bool_decide (c' = c)
  | EmptyString => false
  end.

(** Truthiness of a string: [if s:]. *)
Definition truthy (s : string) : bool :=
  match s with EmptyString => false | _ => true end.

(** The decimal value of a character, when it is a decimal digit. *)
Definition digit_value (c : ascii) : option Z :=
  let n := N_of_ascii c in
  if ((48 <=? n) && (n <=? 57))%N then Some (Z.of_N n - 48) else None.

(** [re.sub(r"[,\s]", "", s)] *)
Fixpoint strip_separators (s : string) : list ascii :=
  match s with
  | EmptyString => []
  | String c s' =>
      if bool_decide (c = ","%char) || isspace c
      then strip_separators s' else c :: strip_separators s'
  end.

(** An insertion-ordered dictionary. *)
Definition dict (K V : Type) : Type := list (K * V).

Section Dict.
Context {K V : Type} `{EqDecision K}.

(** [d.get(k)] *)
Fixpoint get (d : dict K V) (k : K) : option V :=
  match d with
  | [] => None
  | (k', v) :: d' => if decide (k' = k) then Some v else get d' k
  end.

(** [d[k] = v]: an existing key keeps its position, a new one is
    appended. *)
Fixpoint set (d : dict K V) (k : K) (v : V) : dict K V :=
  match d with
  | [] => [(k, v)]
  | (k', v') :: d' =>
      if decide (k' = k) then (k, v) :: d' else (k', v') :: set d' k v
  end.
End Dict.

End Py.

Abbreviation dict := Py.dict.

(** ** The parsed design, as the driver reads it *)

(** One entry of [inst["connections"]]: [conn.get("port")] may be [None],
    [conn["signal"]] is always there. *)
Record Connection := {
  port : option string;
  signal : string
}.

(** One entry of [modules[name]['instances']]. *)
Record Instance := {
  instance_name : string;
  module : string;
  connections : list Connection
}.

(** One entry of the module table. *)
Record Module := {
  inputs : list string;
  outputs : list string;
  wires : list string;
  instances : list Instance
}.

Abbreviation ModuleTable := (gmap string Module).

(** One entry of [verilogFuncs.primitive_ports]. *)
Record PrimitivePorts := {
  prim_inputs : list string;
  prim_outputs : list string
}.

(** [signal_values]: qualified signal key to value. *)
Abbreviation Store := (gmap string Z).

(** [in_vals]: the role is [conn.get("port")] or a catalog port name. *)
Abbreviation InVals := (dict (option string) Z).
Abbreviation OutVals := (dict string Z).
(** [port_info]: role to (node label, value). *)
Abbreviation PortInfo := (dict (option string) (string * Z)).

#[global] Instance Connection_eq_dec : EqDecision Connection.
Proof. solve_decision. Defined.
#[global] Instance Instance_eq_dec : EqDecision Instance.
Proof. solve_decision. Defined.

(** ** Outcomes, events and the driver's monad *)

Inductive exn :=
| BitCountMismatch (expected got : nat)  (* the driver's own [ValueError] *)
| InvalidLiteral (c : ascii)             (* [ValueError] of [int] *)
| KeyError (k : string)
| IndexError
| AttributeError                         (* [None.lower()] *)
| EOFError                               (* [input] at end of input *)
| FileNotFound (fn : string)
| RecursionError
| LibraryError (what : string).          (* raised inside [verilogFuncs] *)

Inductive outcome (A : Type) :=
| Ok (a : A)
| Exit (code : Z)
| Raise (e : exn).
Arguments Ok {A} a.
Arguments Exit {A} code.
Arguments Raise {A} e.

(** What the driver prints, with the values it interpolates. *)
Inductive message :=
| MsgUsage
| MsgGateNeedsName
| MsgUnrecognized (arg : string)
| MsgBadMode
| MsgTopNotFound
| MsgInstanceNotFound (gate_instance top_module : string)
| MsgUnsupported (gate_type : string)
| MsgLoaded
| MsgEnterEach (gate_instance : string)
| MsgInputValues (in_vals : InVals)
| MsgOutputValues (out_vals : OutVals)
| MsgConverting (dot : string)
| MsgGenerated (pdf : string)
| MsgDotFailed
| MsgSimulationComplete (dot_file : string).

(** The prompts of [input]. *)
Inductive prompt :=
| AskLocalOnly
| AskLoadFromFile
| AskFileName
| AskBit (p : string).

(** The calls that leave the driver. *)
Inductive call :=
| CallParse (verilog_file : string)
| CallFindTop (modules : ModuleTable)
| CallGetInputValues (ports : list string)
| CallSimulateModule (modules : ModuleTable) (top_module : string)
    (input_vals : dict string Z) (signal_values : Store) (debug : bool)
| CallPrimitive (gate_type : string) (in_vals : InVals)
| CallGenerateFA (dot gate_instance : string) (port_info : PortInfo)
| CallGenerateHA (dot gate_instance : string) (port_info : PortInfo)
| CallGeneratePrimitive (dot gate_type gate_instance : string)
    (port_info : PortInfo)
| CallGenerateLayered (modules : ModuleTable) (top_module dot_file : string)
    (signal_values : Store)
| CallOpen (fn : string)
| CallSystem (cmd : string).

Inductive event :=
| Printed (m : message)
| Prompted (p : prompt)
| Called (c : call)
| LibraryOutput (line : string).

#[global] Instance Module_eq_dec : EqDecision Module.
Proof. solve_decision. Defined.
#[global] Instance message_eq_dec : EqDecision message.
Proof. solve_decision. Defined.
#[global] Instance prompt_eq_dec : EqDecision prompt.
Proof. solve_decision. Defined.
#[global] Instance call_eq_dec : EqDecision call.
Proof. solve_decision. Defined.
#[global] Instance event_eq_dec : EqDecision event.
Proof. solve_decision. Defined.

(** The part of the world a run changes: the lines still to be read from
    standard input, and what has happened so far. *)
Record world := {
  stdin : list string;
  log : list event
}.

Definition M (A : Type) : Type := world -> outcome A * world.

Definition ret {A} (a : A) : M A := fun w => (Ok a, w).

Definition bind {A B} (c : M A) (k : A -> M B) : M B :=
  fun w =>
    match c w with
    | (Ok a, w') => k a w'
    | (Exit code, w') => (Exit code, w')
    | (Raise e, w') => (Raise e, w')
    end.

Notation "x <- c ;; k" := (bind c (fun x => k))
  (at level 100, c at next level, right associativity).
Notation "c ;;; k" := (bind c (fun _ => k))
  (at level 100, right associativity).

Definition emit (e : event) : M unit :=
  fun w => (Ok tt, {| stdin := stdin w; log := log w ++ [e] |}).

(** [print(...)] *)
Definition print (m : message) : M unit := emit (Printed m).

(** [sys.exit(code)] *)
Definition sys_exit {A} (code : Z) : M A := fun w => (Exit code, w).

(** [raise e] *)
Definition raise {A} (e : exn) : M A := fun w => (Raise e, w).

(** [input(prompt)]: writes the prompt, reads one line; [EOFError] when
    standard input is exhausted. *)
Definition input (p : prompt) : M string :=
  fun w =>
    let lg := log w ++ [Prompted p] in
    match stdin w with
    | [] => (Raise EOFError, {| stdin := []; log := lg |})
    | line :: rest => (Ok line, {| stdin := rest; log := lg |})
    end.

(** A function of [verilogFuncs]: it may read standard input, print, and
    return, exit or raise. *)
Definition ext (A : Type) : Type :=
  list string -> outcome A * list string * list string.

(** The driver calling out: the call is logged, then whatever the callee
    prints. *)
Definition call_out {A} (c : call) (f : ext A) : M A :=
  fun w =>
    let '(r, rest, printed) := f (stdin w) in
    (r, {| stdin := rest;
           log := log w ++ Called c :: (LibraryOutput <$> printed) |}).

(** What the run sees of the machine: file contents for [open(fn).read()]
    and the exit status of [os.system(cmd)]. *)
Record machine := {
  file_contents : string -> option string;
  os_system : string -> Z
}.

(** The [verilogFuncs] module, as far as the driver uses it. *)
Record verilogFuncs := {
  parse_hierarchical_verilog : string -> ext ModuleTable;
  find_top_module : ModuleTable -> ext (option string);
  primitive_ports : gmap string PrimitivePorts;
  primitive_simulators : gmap string (InVals -> ext OutVals);
  get_input_values : list string -> ext (dict string Z);
  simulate_module :
    ModuleTable -> string -> dict string Z -> Store -> bool -> ext Store;
  generate_FA_dot : string -> string -> PortInfo -> ext unit;
  generate_HA_dot : string -> string -> PortInfo -> ext unit;
  generate_primitive_dot : string -> string -> string -> PortInfo -> ext unit;
  generate_layered_dot : ModuleTable -> string -> string -> Store -> ext unit
}.

(** ** The driver *)

Definition lift {A} (o : outcome A) : M A := fun w => (o, w).

(** [open(fn).read()] *)
Definition read_file (mc : machine) (fn : string) : M string :=
  emit (Called (CallOpen fn)) ;;;
  match file_contents mc fn with
  | Some content => ret content
  | None => raise (FileNotFound fn)
  end.

(** [os.system(cmd)] *)
Definition system (mc : machine) (cmd : string) : M Z :=
  emit (Called (CallSystem cmd)) ;;; ret (os_system mc cmd).

(** Lines 17-22: the optional top-module name. *)
Definition optional_top (rest : list string) : string * list string :=
  match rest with
  | arg :: rest' =>
      if bool_decide (arg ∈ ["debug"; "--gate"]) then (EmptyString, rest)
      else (arg, rest')
  | [] => (EmptyString, [])
  end.

(** Lines 24-41: the remaining flags. *)
Fixpoint process_flags (args : list string) (debug : bool)
    (gate_instance : option string) : M (bool * option string) :=
  match args with
  | [] => ret (debug, gate_instance)
  | arg :: rest =>
      if bool_decide (Py.lower arg = "debug") then
        process_flags rest true gate_instance
      else if bool_decide (arg = "--gate") then
        match rest with
        | name :: rest' => process_flags rest' debug (Some name)
        | [] => print MsgGateNeedsName ;;; sys_exit 1
        end
      else
        print (MsgUnrecognized arg) ;;; process_flags rest debug gate_instance
  end.

(** Lines 50-55: the top module, auto-detected when none was named. *)
Definition resolve_top (vf : verilogFuncs) (modules : ModuleTable)
    (top_module : string) : M string :=
  if Py.truthy top_module then ret top_module
  else
    found <- call_out (CallFindTop modules) (find_top_module vf modules) ;;
    match found with
    | Some name =>
        if Py.truthy name then ret name
        else print MsgTopNotFound ;;; sys_exit 1
    | None => print MsgTopNotFound ;;; sys_exit 1
    end.

(** [modules[top_module]] *)
Definition lookup_module (modules : ModuleTable) (top_module : string)
    : M Module :=
  match modules !! top_module with
  | Some m => ret m
  | None => raise (KeyError top_module)
  end.

(** Lines 60-62: the first instance of the top module with that name. *)
Definition find_instance (m : Module) (gate_instance : string)
    : option Instance :=
  List.find (fun i => bool_decide (instance_name i = gate_instance))
    (instances m).

(** Lines 69-73: hierarchical adder modules are simulated as primitives. *)
Definition map_gate_type (gate_type : string) : string :=
  if bool_decide (gate_type = "full_adder") then "FA"
  else if bool_decide (gate_type = "half_adder") then "HA"
  else gate_type.

(** Lines 58-77: the instance and its primitive tag, or exit 1. *)
Definition select_gate (vf : verilogFuncs) (modules : ModuleTable)
    (top_module gate_instance : string) : M (Instance * string) :=
  m <- lookup_module modules top_module ;;
  match find_instance m gate_instance with
  | None =>
      print (MsgInstanceNotFound gate_instance top_module) ;;; sys_exit 1
  | Some inst =>
      let gate_type := map_gate_type (module inst) in
      match primitive_ports vf !! gate_type with
      | None => print (MsgUnsupported gate_type) ;;; sys_exit 1
      | Some _ => ret (inst, gate_type)
      end
  end.

(** Line 93: the key of a signal of the top module in the store. *)
Definition signal_key (top_module signal : string) : string :=
  top_module +:+ "_" +:+ signal.

(** Line 93: [signal_values.get(key, 0)] for one connection. *)
Definition connection_value (top_module : string) (signal_values : Store)
    (conn : Connection) : Z :=
  default 0 (signal_values !! signal_key top_module (signal conn)).

(** Lines 89-93. *)
Definition gather_in_vals (top_module : string) (signal_values : Store)
    (conns : list Connection) : InVals :=
  fold_left
    (fun in_vals conn =>
       Py.set in_vals (port conn)
         (connection_value top_module signal_values conn))
    conns [].

(** [int(c)] for a one-character string. *)
Definition int_of_char (c : ascii) : outcome Z :=
  match Py.digit_value c with
  | Some v => Ok v
  | None => Raise (InvalidLiteral c)
  end.

(** Line 104: [{p: int(bits[i]) for i, p in enumerate(inputs)}]. *)
Fixpoint bits_to_vals (bits : list ascii) (i : nat) (ports : list string)
    (in_vals : InVals) : outcome InVals :=
  match ports with
  | [] => Ok in_vals
  | p :: ports' =>
      match bits !! i with
      | None => Raise IndexError
      | Some c =>
          match int_of_char c with
          | Ok v => bits_to_vals bits (S i) ports' (Py.set in_vals (Some p) v)
          | Exit code => Exit code
          | Raise e => Raise e
          end
      end
  end.

(** Lines 101-104: the gate inputs from the text of a bit file. *)
Definition load_bits (ports : list string) (content : string)
    : outcome InVals :=
  let bits := Py.strip_separators content in
  if bool_decide (length bits ≠ length ports) then
    Raise (BitCountMismatch (length ports) (length bits))
  else bits_to_vals bits 0 ports [].

(** Lines 110-112: ask until the answer is ["0"] or ["1"]; each round reads
    one line, so the loop is a recursion on the pending input. *)
Fixpoint ask_bit (p : string) (lines : list string) (lg : list event)
    : outcome Z * world :=
  let lg' := lg ++ [Prompted (AskBit p)] in
  match lines with
  | [] => (Raise EOFError, {| stdin := []; log := lg' |})
  | line :: rest =>
      let v := Py.strip line in
      if bool_decide (v = "0") then (Ok 0, {| stdin := rest; log := lg' |})
      else if bool_decide (v = "1") then
        (Ok 1, {| stdin := rest; log := lg' |})
      else ask_bit p rest lg'
  end.

(** Lines 109-113. *)
Fixpoint ask_inputs (ports : list string) (in_vals : InVals) : M InVals :=
  match ports with
  | [] => ret in_vals
  | p :: ports' =>
      v <- (fun w => ask_bit p (stdin w) (log w)) ;;
      ask_inputs ports' (Py.set in_vals (Some p) v)
  end.

(** [primitive_ports[gate_type]['inputs']] *)
Definition catalog_inputs (vf : verilogFuncs) (gate_type : string)
    : M (list string) :=
  match primitive_ports vf !! gate_type with
  | Some ports => ret (prim_inputs ports)
  | None => raise (KeyError gate_type)
  end.

(** Lines 96-113: local gate testing. *)
Definition local_inputs (vf : verilogFuncs) (mc : machine)
    (gate_instance gate_type : string) : M InVals :=
  ports <- catalog_inputs vf gate_type ;;
  answer <- input AskLoadFromFile ;;
  let load := Py.lower (Py.strip answer) in
  if Py.startswith load "y" then
    answer <- input AskFileName ;;
    let fn := Py.strip answer in
    content <- read_file mc fn ;;
    in_vals <- lift (load_bits ports content) ;;
    print MsgLoaded ;;;
    ret in_vals
  else
    print (MsgEnterEach gate_instance) ;;;
    ask_inputs ports [].

(** Lines 85-86 and 150-155: the engine is run on a fresh, empty store. *)
Definition evaluate_design (vf : verilogFuncs) (modules : ModuleTable)
    (top_module : string) (input_vals : dict string Z) (debug : bool)
    : M Store :=
  call_out (CallSimulateModule modules top_module input_vals ∅ debug)
    (simulate_module vf modules top_module input_vals ∅ debug).

(** Lines 83-93: the gate inputs taken from a run of the whole design. *)
Definition circuit_inputs (vf : verilogFuncs) (modules : ModuleTable)
    (top_module : string) (debug : bool) (inst : Instance) : M InVals :=
  m <- lookup_module modules top_module ;;
  input_vals <-
    call_out (CallGetInputValues (inputs m)) (get_input_values vf (inputs m)) ;;
  signal_values <- evaluate_design vf modules top_module input_vals debug ;;
  ret (gather_in_vals top_module signal_values (connections inst)).

(** Lines 79-113. *)
Definition gate_inputs (vf : verilogFuncs) (mc : machine)
    (modules : ModuleTable) (top_module : string) (debug : bool)
    (gate_instance : string) (inst : Instance) (gate_type : string)
    : M InVals :=
  answer <- input AskLocalOnly ;;
  let local_only := Py.lower (Py.strip answer) in
  if Py.startswith local_only "n" then
    circuit_inputs vf modules top_module debug inst
  else local_inputs vf mc gate_instance gate_type.

(** Line 116: [primitive_simulators[gate_type](in_vals)]. *)
Definition run_primitive (vf : verilogFuncs) (gate_type : string)
    (in_vals : InVals) : M OutVals :=
  match primitive_simulators vf !! gate_type with
  | Some simulate =>
      call_out (CallPrimitive gate_type in_vals) (simulate in_vals)
  | None => raise (KeyError gate_type)
  end.

(** Lines 120-121. *)
Fixpoint port_info_inputs (in_vals : InVals) (port_info : PortInfo)
    : outcome PortInfo :=
  match in_vals with
  | [] => Ok port_info
  | (None, _) :: _ => Raise AttributeError
  | (Some role, v) :: rest =>
      port_info_inputs rest
        (Py.set port_info (Some role) ("input_" +:+ Py.lower role, v))
  end.

(** Lines 122-123. *)
Definition port_info_outputs (out_vals : OutVals) (port_info : PortInfo)
    : PortInfo :=
  fold_left
    (fun info '(role, v) =>
       Py.set info (Some role) ("output_" +:+ Py.lower role, v))
    out_vals port_info.

(** Lines 140-144 and 163-167: the conversion to PDF and its report. *)
Definition convert_to_pdf (mc : machine) (dot pdf : string) : M unit :=
  print (MsgConverting dot) ;;;
  status <- system mc ("dot -Tpdf " +:+ dot +:+ " -o " +:+ pdf) ;;
  if bool_decide (status = 0) then print (MsgGenerated pdf)
  else print MsgDotFailed.

(** Lines 115-145: simulate the gate, print, draw. *)
Definition report_gate (vf : verilogFuncs) (mc : machine)
    (gate_instance gate_type : string) (in_vals : InVals) : M unit :=
  out_vals <- run_primitive vf gate_type in_vals ;;
  port_info <- lift (port_info_inputs in_vals []) ;;
  let port_info := port_info_outputs out_vals port_info in
  print (MsgInputValues in_vals) ;;;
  print (MsgOutputValues out_vals) ;;;
  let dot := gate_instance +:+ "_" +:+ gate_type +:+ ".dot" in
  let pdf := gate_instance +:+ "_" +:+ gate_type +:+ ".pdf" in
  (if bool_decide (gate_type = "FA") then
     call_out (CallGenerateFA dot gate_instance port_info)
       (generate_FA_dot vf dot gate_instance port_info)
   else if bool_decide (gate_type = "HA") then
     call_out (CallGenerateHA dot gate_instance port_info)
       (generate_HA_dot vf dot gate_instance port_info)
   else
     call_out (CallGeneratePrimitive dot gate_type gate_instance port_info)
       (generate_primitive_dot vf dot gate_type gate_instance port_info)) ;;;
  convert_to_pdf mc dot pdf.

(** Lines 58-145: the [--gate] branch. *)
Definition simulate_gate (vf : verilogFuncs) (mc : machine)
    (modules : ModuleTable) (top_module : string) (debug : bool)
    (gate_instance : string) : M unit :=
  selected <- select_gate vf modules top_module gate_instance ;;
  let '(inst, gate_type) := selected in
  in_vals <-
    gate_inputs vf mc modules top_module debug gate_instance inst gate_type ;;
  report_gate vf mc gate_instance gate_type in_vals.

(** Lines 149-167: the simulation of the whole design. *)
Definition simulate_design (vf : verilogFuncs) (mc : machine)
    (modules : ModuleTable) (top_module : string) (debug : bool) : M unit :=
  m <- lookup_module modules top_module ;;
  input_vals <-
    call_out (CallGetInputValues (inputs m)) (get_input_values vf (inputs m)) ;;
  signal_values <- evaluate_design vf modules top_module input_vals debug ;;
  call_out (CallGenerateLayered modules top_module "hierarchy.dot" signal_values)
    (generate_layered_dot vf modules top_module "hierarchy.dot" signal_values) ;;;
  print (MsgSimulationComplete "hierarchy.dot") ;;;
  convert_to_pdf mc "hierarchy.dot" "hierarchy.pdf".

(** Lines 47-167: everything after the command line is read. *)
Definition run (vf : verilogFuncs) (mc : machine) (verilog_file : string)
    (top_module : string) (debug : bool) (gate_instance : option string)
    : M unit :=
  modules <-
    call_out (CallParse verilog_file)
      (parse_hierarchical_verilog vf verilog_file) ;;
  top_module <- resolve_top vf modules top_module ;;
  match gate_instance with
  | Some name =>
      if Py.truthy name then
        simulate_gate vf mc modules top_module debug name
      else simulate_design vf mc modules top_module debug
  | None => simulate_design vf mc modules top_module debug
  end.

(** [main()], on [sys.argv]. *)
Definition main (vf : verilogFuncs) (mc : machine) (argv : list string)
    : M unit :=
  match argv with
  | _ :: mode :: verilog_file :: rest =>
      let '(top_module, rest) := optional_top rest in
      flags <- process_flags rest false None ;;
      let '(debug, gate_instance) := flags in
      if bool_decide (mode ∉ ["H"; "V"]) then
        print MsgBadMode ;;; sys_exit 1
      else run vf mc verilog_file top_module debug gate_instance
  | _ => print MsgUsage ;;; sys_exit 1
  end.

(** ** The library as the specification describes it

    [verilogFuncs] itself is not part of the driver; what follows is the
    primitive catalog and the propagation engine as the specification words
    them. The specification leaves two things open, which the engine takes
    as parameters: the format of the qualified signal keys, and the
    topological order in which the instances of a module are evaluated. *)

(** The key format of the examples: the instantiation path (root module
    name, then each traversed instance name) and the local signal name,
    joined by the underscore that line 93 of the driver puts between the
    top module and a signal. The specification names no separator. *)
Definition qualified_key (path : list string) (signal : string) : string :=
  foldr (fun name key => name +:+ "_" +:+ key) signal path.

(** A name without underscore. *)
Fixpoint plain (s : string) : bool :=
  match s with
  | EmptyString => true
  | String c s' => negb (bool_decide (c = "_"%char)) && plain s'
  end.

(** Modelled from the spec: the evaluation functions of the catalog read
    their inputs by port name, [in_vals[role]]. *)
Definition bit (in_vals : InVals) (role : string) : outcome Z :=
  match Py.get in_vals (Some role) with
  | Some v => Ok v
  | None => Raise (KeyError role)
  end.

(** Modelled from the spec: a gate with one input A and output Y. *)
Definition gate1 (f : Z -> Z) (in_vals : InVals) : outcome OutVals :=
  match bit in_vals "A" with
  | Ok a => Ok [("Y", f a)]
  | Exit code => Exit code
  | Raise e => Raise e
  end.

(** Modelled from the spec: a gate with inputs A, B and output Y. *)
Definition gate2 (f : Z -> Z -> Z) (in_vals : InVals) : outcome OutVals :=
  match bit in_vals "A", bit in_vals "B" with
  | Ok a, Ok b => Ok [("Y", f a b)]
  | Ok _, Exit code | Exit code, _ => Exit code
  | Ok _, Raise e | Raise e, _ => Raise e
  end.

(** Modelled from the spec: the inverter on a bit. *)
Definition invert (a : Z) : Z := Z.lxor a 1.

(** Modelled from the spec: the half adder of the primitive catalog,
    SUM = A xor B and COUT = A and B. *)
Definition half_adder (in_vals : InVals) : outcome OutVals :=
  match bit in_vals "A", bit in_vals "B" with
  | Ok a, Ok b => Ok [("SUM", Z.lxor a b); ("COUT", Z.land a b)]
  | Ok _, Exit code | Exit code, _ => Exit code
  | Ok _, Raise e | Raise e, _ => Raise e
  end.

(** Modelled from the spec: the full adder of the primitive catalog,
    SUM = A xor B xor CIN and COUT = majority(A, B, CIN). *)
Definition full_adder (in_vals : InVals) : outcome OutVals :=
  match bit in_vals "A", bit in_vals "B", bit in_vals "CIN" with
  | Ok a, Ok b, Ok c =>
      Ok [("SUM", Z.lxor (Z.lxor a b) c);
          ("COUT", Z.lor (Z.lor (Z.land a b) (Z.land a c)) (Z.land b c))]
  | Exit code, _, _ | Ok _, Exit code, _ | Ok _, Ok _, Exit code => Exit code
  | Raise e, _, _ | Ok _, Raise e, _ | Ok _, Ok _, Raise e => Raise e
  end.

(** Modelled from the spec: the closed primitive catalog of [verilogFuncs]
    (buffer, inverter, AND, OR, NAND, NOR, XOR, XNOR, half adder, full
    adder), each type with its ordered input ports, its output ports and
    its evaluation function. *)
Definition catalog
    : list (string * (PrimitivePorts * (InVals -> outcome OutVals))) :=
  let unary := {| prim_inputs := ["A"]; prim_outputs := ["Y"] |} in
  let binary := {| prim_inputs := ["A"; "B"]; prim_outputs := ["Y"] |} in
  [ ("BUF", (unary, gate1 id));
    ("NOT", (unary, gate1 invert));
    ("AND", (binary, gate2 Z.land));
    ("OR", (binary, gate2 Z.lor));
    ("NAND", (binary, gate2 (fun a b => invert (Z.land a b))));
    ("NOR", (binary, gate2 (fun a b => invert (Z.lor a b))));
    ("XOR", (binary, gate2 Z.lxor));
    ("XNOR", (binary, gate2 (fun a b => invert (Z.lxor a b))));
    ("HA", ({| prim_inputs := ["A"; "B"];
               prim_outputs := ["SUM"; "COUT"] |}, half_adder));
    ("FA", ({| prim_inputs := ["A"; "B"; "CIN"];
               prim_outputs := ["SUM"; "COUT"] |}, full_adder)) ].

Definition catalog_lookup (gate_type : string)
    : option (PrimitivePorts * (InVals -> outcome OutVals)) :=
  snd <$> List.find (fun entry => bool_decide (entry.1 = gate_type)) catalog.

(** Modelled from the spec: the input and output port names of the type an
    instance references, a primitive or a module. *)
Definition type_ports (table : ModuleTable) (type : string)
    : option (list string * list string) :=
  match catalog_lookup type with
  | Some (ports, _) => Some (prim_inputs ports, prim_outputs ports)
  | None =>
      match table !! type with
      | Some m => Some (inputs m, outputs m)
      | None => None
      end
  end.

(** Modelled from the spec: the signal an instance binds to a port of its
    type, if any. *)
Definition bound_signal (inst : Instance) (role : string) : option string :=
  signal <$>
    List.find (fun conn => bool_decide (port conn = Some role))
      (connections inst).

(** Modelled from the spec: the signals an instance reads, and below the
    signals it drives. *)
Definition input_signals (table : ModuleTable) (inst : Instance)
    : list string :=
  match type_ports table (module inst) with
  | Some (ins, _) => omap (bound_signal inst) ins
  | None => []
  end.

Definition output_signals (table : ModuleTable) (inst : Instance)
    : list string :=
  match type_ports table (module inst) with
  | Some (_, outs) => omap (bound_signal inst) outs
  | None => []
  end.

(** Modelled from the spec: step 2 of the engine, instance X depends on
    instance Y if an input connection of X references a signal that the
    outputs of Y produce. *)
Definition depends_on (table : ModuleTable) (x y : Instance) : bool :=
  existsb
    (fun s => bool_decide (s ∈ output_signals table y))
    (input_signals table x).

(** Modelled from the spec: an instance can be evaluated when no pending
    instance produces one of its inputs. *)
Definition ready (table : ModuleTable) (pending : list Instance)
    (x : Instance) : bool :=
  forallb (fun y => negb (depends_on table x y)) pending.

Fixpoint remove_first (x : Instance) (l : list Instance) : list Instance :=
  match l with
  | [] => []
  | y :: l' => if decide (y = x) then l' else y :: remove_first x l'
  end.

(** Modelled from the spec: step 3 of the engine, a topological order of
    the instances of one module, derived from the connections alone;
    [None] when the instances form a cycle. *)
Fixpoint topological_order (table : ModuleTable) (fuel : nat)
    (pending : list Instance) : option (list Instance) :=
  match pending, fuel with
  | [], _ => Some []
  | _ :: _, O => None
  | _ :: _, S fuel' =>
      match List.find (ready table pending) pending with
      | None => None
      | Some x =>
          (x ::.) <$> topological_order table fuel' (remove_first x pending)
      end
  end.

(** Modelled from the spec: step 3 leaves the choice among the topological
    orders open. A schedule makes it: for each module it gives the order in
    which the instances are evaluated, or nothing when they form a cycle.
    [first_ready] takes the instances as they are listed, [last_listed]
    from the end of the list. *)
Definition first_ready (table : ModuleTable) (m : Module)
    : option (list Instance) :=
  topological_order table (length (instances m)) (instances m).

Definition last_listed (table : ModuleTable) (m : Module)
    : option (list Instance) :=
  topological_order table (length (instances m)) (rev (instances m)).

Section Engine.

(** The format of the qualified signal keys, from the instantiation path
    and the local signal name, and the schedule. *)
Variable key : list string -> string -> string.
Variable schedule : ModuleTable -> Module -> option (list Instance).

(** Modelled from the spec: step 4 of the engine, the values an instance
    reads from the store, by port of its type, 0 for a port that is not
    connected or whose signal has no value yet. *)
Definition gather (store : Store) (path : list string) (inst : Instance)
    (roles : list string) : dict string Z :=
  (fun role =>
     (role,
      default 0 (s ← bound_signal inst role; store !! key path s)))
    <$> roles.

(** Modelled from the spec: steps 4 and 5 of the engine, the outputs of an
    instance written to the signals they are wired to. *)
Definition scatter (store : Store) (path : list string) (inst : Instance)
    (out_vals : dict string Z) : Store :=
  fold_left
    (fun st '(role, v) =>
       match bound_signal inst role with
       | Some s => <[key path s := v]> st
       | None => st
       end)
    out_vals store.

(** Modelled from the spec: step 1 of the engine, the supplied input values
    written under the keys of the input ports. *)
Definition bind_inputs (input_values : dict string Z) (path : list string)
    (ports : list string) (store : Store) : Store :=
  fold_left
    (fun st p =>
       match Py.get input_values p with
       | Some v => <[key path p := v]> st
       | None => st
       end)
    ports store.

(** Modelled from the spec: step 6 of the engine, the values of the output
    ports read from the store. *)
Definition read_outputs (store : Store) (path : list string)
    (ports : list string) : dict string Z :=
  (fun o => (o, default 0 (store !! key path o))) <$> ports.

(** Modelled from the spec: steps 4 and 5 of the engine, the evaluation of
    one instance, a primitive of the catalog or a module; [sub] is the
    evaluation of a module one level down. *)
Definition instance_step
    (sub : string -> dict string Z -> Store -> list string ->
           outcome (Store * dict string Z))
    (table : ModuleTable) (path : list string) (st : Store) (inst : Instance)
    : outcome Store :=
  match catalog_lookup (module inst) with
  | Some (ports, eval) =>
      let in_vals :=
        prod_map Some id <$> gather st path inst (prim_inputs ports) in
      match eval in_vals with
      | Ok out_vals => Ok (scatter st path inst out_vals)
      | Exit code => Exit code
      | Raise e => Raise e
      end
  | None =>
      match table !! module inst with
      | None => Raise (LibraryError "UnresolvedInstance")
      | Some m =>
          match
            sub (module inst) (gather st path inst (inputs m)) st
              (path ++ [instance_name inst])
          with
          | Ok (st', out_vals) => Ok (scatter st' path inst out_vals)
          | Exit code => Exit code
          | Raise e => Raise e
          end
      end
  end.

(** The instances of a list evaluated one after the other, until one
    fails. *)
Definition steps (f : Store -> Instance -> outcome Store)
    (order : list Instance) (acc : outcome Store) : outcome Store :=
  fold_left
    (fun acc inst =>
       match acc with
       | Ok st => f st inst
       | _ => acc
       end)
    order acc.

(** Modelled from the spec: the signal propagation engine of
    [verilogFuncs], [evaluate(ModuleTable, moduleName, inputValues, store,
    path)], steps 1 to 6; [depth] bounds the nesting of modules. *)
Fixpoint evaluate (depth : nat) (table : ModuleTable) (name : string)
    (input_values : dict string Z) (store : Store) (path : list string)
    : outcome (Store * dict string Z) :=
  match depth with
  | O => Raise RecursionError
  | S depth' =>
      match table !! name with
      | None => Raise (LibraryError "UnresolvedInstance")
      | Some m =>
          let store := bind_inputs input_values path (inputs m) store in
          match schedule table m with
          | None => Raise (LibraryError "CombinationalLoop")
          | Some order =>
              match
                steps (instance_step (evaluate depth' table) table path)
                  order (Ok store)
              with
              | Ok st => Ok (st, read_outputs st path (outputs m))
              | Exit code => Exit code
              | Raise e => Raise e
              end
          end
      end
  end.

(** Modelled from the spec: [simulate_module] of [verilogFuncs], the engine
    started at the root path; it reads no input and prints nothing. *)
Definition engine (modules : ModuleTable) (top_module : string)
    (input_vals : dict string Z) (signal_values : Store) (debug : bool)
    : ext Store :=
  fun pending =>
    (match
       evaluate (S (size modules)) modules top_module input_vals
         signal_values [top_module]
     with
     | Ok (store, _) => Ok store
     | Exit code => Exit code
     | Raise e => Raise e
     end, pending, []).

End Engine.

(** Modelled from the spec: the top-module resolver of [verilogFuncs], the
    one module that no instance references, nothing when there is none or
    more than one. *)
Definition find_top (table : ModuleTable) : option string :=
  let referenced name :=
    existsb
      (fun entry =>
         existsb (fun inst => bool_decide (module inst = name))
           (instances entry.2))
      (map_to_list table) in
  match List.filter (fun name => negb (referenced name)) (map_to_list table).*1 with
  | [name] => Some name
  | _ => None
  end.

(** Modelled from the spec: [get_input_values] of [verilogFuncs], one answer
    read for each declared input port, 1 for the answer 1 and 0 for any
    other. *)
Fixpoint read_values (ports : list string) (pending : list string)
    : outcome (dict string Z) * list string * list string :=
  match ports, pending with
  | [], _ => (Ok [], pending, [])
  | _ :: _, [] => (Raise EOFError, [], [])
  | p :: ports', line :: rest =>
      let v := if bool_decide (Py.strip line = "1") then 1 else 0 in
      match read_values ports' rest with
      | (Ok vals, rest', printed) => (Ok ((p, v) :: vals), rest', printed)
      | other => other
      end
  end.

Definition silent {A} (a : A) : ext A := fun pending => (Ok a, pending, []).

(** Modelled from the spec: [verilogFuncs] with the catalog, the resolver
    and the engine above, for a key format and a schedule; [parsed] is what
    its parser makes of each file, and the drawing functions are silent. *)
Definition library (key : list string -> string -> string)
    (schedule : ModuleTable -> Module -> option (list Instance))
    (parsed : string -> option ModuleTable) : verilogFuncs := {|
  parse_hierarchical_verilog file pending :=
    (match parsed file with
     | Some table => Ok table
     | None => Raise (LibraryError "ParseError")
     end, pending, []);
  find_top_module table := silent (find_top table);
  primitive_ports := list_to_map (prod_map id fst <$> catalog);
  primitive_simulators :=
    list_to_map
      (prod_map id (fun entry in_vals pending => (entry.2 in_vals, pending, []))
         <$> catalog);
  get_input_values := read_values;
  simulate_module := engine key schedule;
  generate_FA_dot _ _ _ := silent tt;
  generate_HA_dot _ _ _ := silent tt;
  generate_primitive_dot _ _ _ _ := silent tt;
  generate_layered_dot _ _ _ _ := silent tt
|}.

(** A small design: a full adder made of gates, and a top module with one
    instance of it next to a gate of its own. *)
Definition conn (role signal : string) : Connection :=
  {| port := Some role; signal := signal |}.

Definition full_adder_module : Module := {|
  inputs := ["A"; "B"; "CIN"];
  outputs := ["SUM"; "COUT"];
  wires := ["t1"; "t2"; "t3"];
  instances :=
    [ {| instance_name := "o1"; module := "OR";
         connections := [conn "A" "t2"; conn "B" "t3"; conn "Y" "COUT"] |};
      {| instance_name := "x2"; module := "XOR";
         connections := [conn "A" "t1"; conn "B" "CIN"; conn "Y" "SUM"] |};
      {| instance_name := "a2"; module := "AND";
         connections := [conn "A" "t1"; conn "B" "CIN"; conn "Y" "t3"] |};
      {| instance_name := "x1"; module := "XOR";
         connections := [conn "A" "A"; conn "B" "B"; conn "Y" "t1"] |};
      {| instance_name := "a1"; module := "AND";
         connections := [conn "A" "A"; conn "B" "B"; conn "Y" "t2"] |} ]
|}.

Definition u1_instance : Instance := {|
  instance_name := "u1"; module := "full_adder";
  connections :=
    [conn "A" "a"; conn "B" "b"; conn "CIN" "cin";
     conn "SUM" "s"; conn "COUT" "c"]
|}.

Definition g1_instance : Instance := {|
  instance_name := "g1"; module := "AND";
  connections := [conn "A" "s"; conn "B" "nc"; conn "Y" "w"]
|}.

Definition u2_instance : Instance := {|
  instance_name := "u2"; module := "buffer2";
  connections := [conn "I" "c"; conn "O" "d"]
|}.

Definition top_module_example : Module := {|
  inputs := ["a"; "b"; "cin"];
  outputs := ["s"; "c"; "d"];
  wires := ["w"];
  instances := [u1_instance; g1_instance; u2_instance]
|}.

Definition buffer2_module : Module := {|
  inputs := ["I"];
  outputs := ["O"];
  wires := ["m"];
  instances :=
    [ {| instance_name := "n1"; module := "NOT";
         connections := [conn "A" "I"; conn "Y" "m"] |};
      {| instance_name := "n2"; module := "NOT";
         connections := [conn "A" "m"; conn "Y" "O"] |} ]
|}.

Definition design : ModuleTable :=
  <["top" := top_module_example]>
    (<["full_adder" := full_adder_module]> (<["buffer2" := buffer2_module]> ∅)).

Definition example_library : verilogFuncs :=
  library qualified_key first_ready
    (fun file => if bool_decide (file = "adder.v") then Some design else None).

Definition example_machine (status : Z) : machine := {|
  file_contents fn :=
    if bool_decide (fn = "bits.txt") then Some "1, 0, 1" else
    if bool_decide (fn = "bad.txt") then Some "a,b,c" else
    if bool_decide (fn = "short.txt") then Some "1 0" else None;
  os_system _ := status
|}.

Definition start (lines : list string) : world :=
  {| stdin := lines; log := [] |}.

(** The store of the example design for a = 1, b = 1, cin = 0. *)
Definition example_store : Store :=
  Eval vm_compute in
    match
      engine qualified_key first_ready design "top"
        [("a", 1); ("b", 1); ("cin", 0)] ∅ false []
    with
    | (Ok store, _, _) => store
    | _ => ∅
    end.

(** ** Notions used in the statements *)

Section Assignments.
Context {K V : Type} `{EqDecision K}.

(** A run of assignments [d[f x] = g x]: the value under a key is the one
    of the last assignment to it. *)
Definition assign_all {X} (f : X -> K) (g : X -> V) (l : list X)
    (d : dict K V) : dict K V :=
  fold_left (fun d x => Py.set d (f x) (g x)) l d.

End Assignments.

(** A character that [int] accepts. *)
Definition is_digit (c : ascii) : Prop := is_Some (Py.digit_value c).

(** Every value of the dictionary is 0 or 1. *)
Definition bits_only (in_vals : InVals) : Prop :=
  forall role v, Py.get in_vals role = Some v -> v = 0 \/ v = 1.

(** A computation that only adds to the log. *)
Definition appends {A} (c : M A) : Prop :=
  forall w, exists events, log (c w).2 = log w ++ events.

(** The machine with the same files on which the renderer succeeds. *)
Definition rendering (mc : machine) : machine :=
  {| file_contents := file_contents mc; os_system := fun _ => 0 |}.

(** An argument that the flag loop only reports. *)
Definition unrecognized (arg : string) : Prop :=
  Py.lower arg <> "debug" /\ arg <> "--gate".

(** The first character of an answer that is not white space. *)
Definition first_nonblank (s : string) : option ascii :=
  match Py.lstrip s with
  | String c _ => Some c
  | EmptyString => None
  end.

(** An answer that the prompt for a bit takes, and its value. *)
Definition bit_answer (line : string) : option Z :=
  if bool_decide (Py.strip line = "0") then Some 0
  else if bool_decide (Py.strip line = "1") then Some 1
  else None.

(** The call of the renderer. *)
Definition is_system (e : event) : bool :=
  match e with
  | Called (CallSystem _) => true
  | _ => false
  end.

(** A computation that leaves the renderer alone. *)
Definition no_rendering {A} (c : M A) : Prop :=
  forall w, exists events,
    log (c w).2 = log w ++ events /\
    forallb (fun e => negb (is_system e)) events = true.

(** A run in which the renderer is called at most once, and then as the
    last call, followed by the report only, with the run returning. *)
Definition rendered_last (c : M unit) : Prop :=
  forall w, exists events,
    log (c w).2 = log w ++ events /\
    (forallb (fun e => negb (is_system e)) events = true \/
     exists before cmd m,
       events = before ++ [Called (CallSystem cmd); Printed m] /\
       forallb (fun e => negb (is_system e)) before = true /\
       (c w).1 = Ok tt /\
       (m = MsgDotFailed \/ exists pdf, m = MsgGenerated pdf)).

(** Two runs from the log [lg], the first with a failing renderer and the
    second with a succeeding one. They end alike and read the same input.
    When they return, the renderer was called once, as the last call, after
    the same events in both, and the report that follows is the failure in
    the first and the success in the second. When they do not return, the
    renderer was not called and they are the same run. *)
Definition report_differs (lg : list event)
    (failed succeeded : outcome unit * world) : Prop :=
  failed.1 = succeeded.1 /\
  stdin failed.2 = stdin succeeded.2 /\
  (failed.1 = Ok tt ->
   exists before cmd pdf,
     forallb (fun e => negb (is_system e)) before = true /\
     log failed.2 =
       lg ++ before ++ [Called (CallSystem cmd); Printed MsgDotFailed] /\
     log succeeded.2 =
       lg ++ before ++ [Called (CallSystem cmd); Printed (MsgGenerated pdf)]) /\
  (failed.1 <> Ok tt ->
   failed = succeeded /\
   exists events,
     log failed.2 = lg ++ events /\
     forallb (fun e => negb (is_system e)) events = true).

(** A function of the library that returns or raises, but does not end the
    process itself. *)
Definition never_exits {A} (f : ext A) : Prop :=
  forall pending code, (f pending).1.1 <> Exit code.

Definition library_never_exits (vf : verilogFuncs) : Prop :=
  (forall file, never_exits (parse_hierarchical_verilog vf file)) /\
  (forall modules, never_exits (find_top_module vf modules)) /\
  (forall gate_type simulate in_vals,
     primitive_simulators vf !! gate_type = Some simulate ->
     never_exits (simulate in_vals)) /\
  (forall ports, never_exits (get_input_values vf ports)) /\
  (forall modules top_module input_vals signal_values debug,
     never_exits
       (simulate_module vf modules top_module input_vals signal_values debug))
  /\
  (forall dot gate_instance port_info,
     never_exits (generate_FA_dot vf dot gate_instance port_info)) /\
  (forall dot gate_instance port_info,
     never_exits (generate_HA_dot vf dot gate_instance port_info)) /\
  (forall dot gate_type gate_instance port_info,
     never_exits
       (generate_primitive_dot vf dot gate_type gate_instance port_info)) /\
  (forall modules top_module dot_file signal_values,
     never_exits
       (generate_layered_dot vf modules top_module dot_file signal_values)).

(** A computation that exits with status 1 if it exits at all. *)
Definition exits_with_one {A} (c : M A) : Prop :=
  forall w code, (c w).1 = Exit code -> code = 1.

(** Lines 129-130: the names of the files of a gate. *)
Definition dot_name (gate_instance gate_type : string) : string :=
  gate_instance +:+ "_" +:+ gate_type +:+ ".dot".

Definition pdf_name (gate_instance gate_type : string) : string :=
  gate_instance +:+ "_" +:+ gate_type +:+ ".pdf".

(** ** Notions used in the statements about the engine *)

(** The result of an evaluation that succeeded. *)
Definition ok {A} (o : outcome A) : option A :=
  match o with
  | Ok a => Some a
  | _ => None
  end.

(** No instance of the list reads a signal that it or a later instance of
    the list produces. *)
Fixpoint ordered (dep : Instance -> Instance -> bool) (l : list Instance)
    : Prop :=
  match l with
  | [] => True
  | x :: l' => (forall y, y ∈ x :: l' -> dep x y = false) /\ ordered dep l'
  end.

(** An order of the instances of a module that the dependency graph of
    step 2 allows: every instance once, none before an instance that
    produces a signal it reads. *)
Definition topological (table : ModuleTable) (m : Module)
    (order : list Instance) : Prop :=
  order ≡ₚ instances m /\ ordered (depends_on table) order.

(** A schedule that gives such an order for every module that has one. *)
Definition valid_schedule (table : ModuleTable)
    (schedule : ModuleTable -> Module -> option (list Instance)) : Prop :=
  forall m,
    match schedule table m with
    | Some order => topological table m order
    | None => forall order, ~ topological table m order
    end.

(** The names of a module that end up in keys are among the names [N]. *)
Definition module_named (N : string -> Prop) (m : Module) : Prop :=
  Forall N (inputs m) /\ Forall N (outputs m) /\
  Forall
    (fun inst =>
       N (instance_name inst) /\
       Forall (fun c => N (signal c)) (connections inst))
    (instances m).

(** Within the module, instance names are unique and no signal is driven
    by two outputs of instances. *)
Definition driven_once (table : ModuleTable) (m : Module) : Prop :=
  NoDup (instance_name <$> instances m) /\
  NoDup (instances m ≫= output_signals table).

(** On the names [N], different pairs of path and local name have
    different keys. *)
Definition unique_keys (N : string -> Prop)
    (key : list string -> string -> string) : Prop :=
  forall p1 s1 p2 s2,
    Forall N (p1 ++ [s1]) -> Forall N (p2 ++ [s2]) ->
    key p1 s1 = key p2 s2 -> p1 = p2 /\ s1 = s2.

(** Two stores with the same values under the keys of a set. *)
Definition agree (keys : string -> Prop) (a b : Store) : Prop :=
  forall k, keys k -> a !! k = b !! k.

(** An operation on the store that depends on the keys [R] only and
    changes the keys [W] only. *)
Definition acts (R W : string -> Prop) (f : Store -> outcome Store) : Prop :=
  (forall st st', f st = Ok st' -> forall k, ~ W k -> st' !! k = st !! k) /\
  (forall st1 st2, agree R st1 st2 ->
     match f st1, f st2 with
     | Ok a, Ok b => agree W a b
     | Ok _, _ | _, Ok _ => False
     | _, _ => True
     end).

(** Two instances that can be evaluated in either order. *)
Definition swappable (f : Store -> Instance -> outcome Store)
    (x y : Instance) : Prop :=
  forall st,
    ok (match f st x with Ok s => f s y | other => other end) =
    ok (match f st y with Ok s => f s x | other => other end).

Section Footprint.

Variable key : list string -> string -> string.
Variable N : string -> Prop.
Variable table : ModuleTable.

(** The keys of the signals below a path. *)
Definition under (path : list string) (k : string) : Prop :=
  exists q s, Forall N q /\ N s /\ k = key (path ++ q) s.

(** The keys of some signals of the module at a path. *)
Definition keys_of (path : list string) (signals : list string) (k : string)
    : Prop :=
  exists s, s ∈ signals /\ k = key path s.

(** What the evaluation of an instance reads and writes: the signals bound
    to its inputs, or to its outputs, and the signals below it. *)
Definition reads (path : list string) (x : Instance) (k : string) : Prop :=
  keys_of path (input_signals table x) k \/
  under (path ++ [instance_name x]) k.

Definition writes (path : list string) (x : Instance) (k : string) : Prop :=
  keys_of path (output_signals table x) k \/
  under (path ++ [instance_name x]) k.

(** An evaluation of modules that stays below its path: it changes no key
    elsewhere, depends on no key elsewhere, and returns a value for each
    output port of the module. *)
Definition local_evaluation
    (sub : string -> dict string Z -> Store -> list string ->
           outcome (Store * dict string Z)) : Prop :=
  (forall name iv st path st' outs,
     sub name iv st path = Ok (st', outs) ->
     (forall k, ~ under path k -> st' !! k = st !! k) /\
     (forall m, table !! name = Some m -> outs.*1 = outputs m)) /\
  (forall name iv path st1 st2,
     agree (under path) st1 st2 ->
     match sub name iv st1 path, sub name iv st2 path with
     | Ok (a, o1), Ok (b, o2) => o1 = o2 /\ agree (under path) a b
     | Ok _, _ | _, Ok _ => False
     | _, _ => True
     end).

End Footprint.

(** A design whose wire [w] is driven by two gates. *)
Definition shorted_module : Module := {|
  inputs := ["a"];
  outputs := ["w"];
  wires := [];
  instances :=
    [ {| instance_name := "g1"; module := "BUF";
         connections := [conn "A" "a"; conn "Y" "w"] |};
      {| instance_name := "g2"; module := "NOT";
         connections := [conn "A" "a"; conn "Y" "w"] |} ]
|}.

Definition shorted : ModuleTable := <["top" := shorted_module]> ∅.

(** * Properties of the driver *)

(** ** Python strings *)

Example strip_lower_answer :
  Py.lower (Py.strip (String "009" " No thanks  ")) = "no thanks" /\
  Py.startswith (Py.lower (Py.strip " No ")) "n" = true /\
  Py.startswith (Py.lower (Py.strip "yes")) "n" = false.
Proof. repeat split. Qed.

Example strip_separators_lines :
  Py.strip_separators ("1, 0" +:+ String "010" ("1" +:+ String "013" " ,"))
  = ["1"; "0"; "1"]%char.
Proof. reflexivity. Qed.

Example digit_values :
  Py.digit_value "7" = Some 7 /\ Py.digit_value "a" = None /\
  Py.digit_value "178" = None.
Proof. repeat split. Qed.

(** ** The monad *)

Lemma bind_ok {A B} (c : M A) (k : A -> M B) w a w' :
  c w = (Ok a, w') -> bind c k w = k a w'.
Proof. intros H. unfold bind. now rewrite H. Qed.

Lemma bind_exit {A B} (c : M A) (k : A -> M B) w code w' :
  c w = (Exit code, w') -> bind c k w = (Exit code, w').
Proof. intros H. unfold bind. now rewrite H. Qed.

Lemma bind_raise {A B} (c : M A) (k : A -> M B) w e w' :
  c w = (Raise e, w') -> bind c k w = (Raise e, w').
Proof. intros H. unfold bind. now rewrite H. Qed.

Lemma lookup_module_ok modules top_module m w :
  modules !! top_module = Some m ->
  lookup_module modules top_module w = (Ok m, w).
Proof. intros H. unfold lookup_module. now rewrite H. Qed.

(** ** Selecting a gate *)

Lemma map_gate_type_other name :
  name <> "full_adder" -> name <> "half_adder" -> map_gate_type name = name.
Proof.
  intros Hfa Hha. unfold map_gate_type.
  rewrite !bool_decide_eq_false_2; auto.
Qed.

Lemma select_gate_found vf modules top_module gate_instance m inst w :
  modules !! top_module = Some m ->
  find_instance m gate_instance = Some inst ->
  select_gate vf modules top_module gate_instance w =
    match primitive_ports vf !! map_gate_type (module inst) with
    | Some _ => (Ok (inst, map_gate_type (module inst)), w)
    | None =>
        (Exit 1,
         {| stdin := stdin w;
            log := log w ++ [Printed (MsgUnsupported (map_gate_type (module inst)))] |})
    end.
Proof.
  intros Hm Hinst. unfold select_gate.
  rewrite (bind_ok _ _ _ _ _ (lookup_module_ok _ _ _ w Hm)), Hinst.
  destruct (primitive_ports vf !! _); reflexivity.
Qed.

(** C1. The type name of the selected instance is mapped first, and the
    catalog is consulted under the mapped tag only: a [full_adder] instance
    is accepted or refused according to whether ["FA"] is in the catalog, a
    [half_adder] instance according to ["HA"], and any other instance
    according to its own type name. *)
Theorem gate_type_mapped_before_lookup
    vf modules top_module gate_instance m inst w :
  modules !! top_module = Some m ->
  find_instance m gate_instance = Some inst ->
  let lookup tag :=
    match primitive_ports vf !! tag with
    | Some _ => (Ok (inst, tag), w)
    | None =>
        (Exit 1,
         {| stdin := stdin w;
            log := log w ++ [Printed (MsgUnsupported tag)] |})
    end in
  (module inst = "full_adder" ->
   select_gate vf modules top_module gate_instance w = lookup "FA") /\
  (module inst = "half_adder" ->
   select_gate vf modules top_module gate_instance w = lookup "HA") /\
  (module inst <> "full_adder" -> module inst <> "half_adder" ->
   select_gate vf modules top_module gate_instance w = lookup (module inst)).
Proof.
  intros Hm Hinst lookup. subst lookup. cbv beta.
  rewrite (select_gate_found _ _ _ _ _ _ _ Hm Hinst).
  repeat split.
  - intros ->. reflexivity.
  - intros ->. reflexivity.
  - intros Hfa Hha. now rewrite map_gate_type_other.
Qed.

Lemma gate_type_mapped_before_lookup_witness :
  design !! "top" = Some top_module_example /\
  (select_gate example_library design "top" "u1" (start [])).1
  = Ok (u1_instance, "FA").
Proof.
  split; [reflexivity |].
  pose proof
    (gate_type_mapped_before_lookup example_library design "top" "u1"
       top_module_example _ (start []) eq_refl eq_refl) as [Hfa _].
  cbv zeta in Hfa. rewrite (Hfa eq_refl). reflexivity.
Defined.

(** C3. A selected gate whose mapped type tag is not in the catalog ends
    the run with exit status 1: the only thing that happens is the report
    of the unsupported primitive; nothing is read, no primitive is
    evaluated and no value is printed. *)
Theorem unsupported_gate_exits
    vf mc modules top_module debug gate_instance m inst w :
  modules !! top_module = Some m ->
  find_instance m gate_instance = Some inst ->
  primitive_ports vf !! map_gate_type (module inst) = None ->
  simulate_gate vf mc modules top_module debug gate_instance w =
    (Exit 1,
     {| stdin := stdin w;
        log := log w ++
               [Printed (MsgUnsupported (map_gate_type (module inst)))] |}).
Proof.
  intros Hm Hinst Hnone. unfold simulate_gate.
  apply bind_exit.
  rewrite (select_gate_found _ _ _ _ _ _ _ Hm Hinst), Hnone. reflexivity.
Qed.

Lemma unsupported_gate_exits_witness :
  simulate_gate example_library (example_machine 0) design "top" false "u2"
    (start ["y"])
  = (Exit 1,
     {| stdin := ["y"]; log := [Printed (MsgUnsupported "buffer2")] |}).
Proof.
  exact
    (unsupported_gate_exits example_library (example_machine 0) design "top"
       false "u2" top_module_example _ (start ["y"])
       eq_refl eq_refl eq_refl).
Defined.

(** ** The command line *)

(** C8. Once it is one of ['H'] and ['V'], the mode changes nothing: the
    two runs have the same outcome, read the same input and log the same
    prints, prompts and calls with the same arguments. *)
Theorem mode_is_only_validated vf mc script verilog_file rest w :
  main vf mc (script :: "H" :: verilog_file :: rest) w =
  main vf mc (script :: "V" :: verilog_file :: rest) w.
Proof.
  unfold main. destruct (optional_top rest) as [top_module flags].
  unfold bind. destruct (process_flags flags false None w) as [[[d g]| |] w'];
    reflexivity.
Qed.

(** The branches of [main]. *)
Lemma main_run vf mc script mode verilog_file rest top_module flags
    debug gate_instance w w' :
  optional_top rest = (top_module, flags) ->
  process_flags flags false None w = (Ok (debug, gate_instance), w') ->
  mode = "H" \/ mode = "V" ->
  main vf mc (script :: mode :: verilog_file :: rest) w =
  run vf mc verilog_file top_module debug gate_instance w'.
Proof.
  intros Htop Hflags Hmode. unfold main. rewrite Htop.
  rewrite (bind_ok _ _ _ _ _ Hflags).
  destruct Hmode as [-> | ->]; reflexivity.
Qed.





(** C9. The driver at the failing input: the top module has no instance
    with the empty name, and yet [--gate] followed by an empty argument
    does not end the run with the not-found report. Line 58 tests the
    truthiness of the name, so the lookup is skipped, the whole design is
    simulated and the run returns normally. *)
Lemma empty_gate_name_simulates_design :
  let argv := ["thesis.py"; "V"; "adder.v"; "--gate"; EmptyString] in
  let result := main example_library (example_machine 0) argv
                  (start ["1"; "0"; "1"]) in
  (forall inst, inst ∈ instances top_module_example ->
                instance_name inst <> EmptyString) /\
  result.1 = Ok tt /\
  Called (CallSimulateModule design "top" [("a", 1); ("b", 0); ("cin", 1)]
            ∅ false) ∈ log result.2 /\
  Printed (MsgInstanceNotFound EmptyString "top") ∉ log result.2.
Proof.
  cbv zeta. split; [| split; [| split]].
  - intros inst Hin. apply list_elem_of_In in Hin. simpl in Hin.
    intuition (subst; discriminate).
  - vm_compute. reflexivity.
  - apply (bool_decide_unpack _). vm_compute. exact I.
  - apply (bool_decide_unpack _). vm_compute. exact I.
Qed.

(** ** Dictionaries *)

Section DictFacts.
Context {K V : Type} `{EqDecision K}.

Lemma get_set_eq (d : dict K V) k v : Py.get (Py.set d k v) k = Some v.
Proof.
  induction d as [| [k' v'] d IH]; simpl.
  - now rewrite decide_True.
  - destruct (decide (k' = k)) as [-> | Hne]; simpl.
    + now rewrite decide_True.
    + now rewrite decide_False.
Qed.

Lemma get_set_ne (d : dict K V) k v k' :
  k <> k' -> Py.get (Py.set d k v) k' = Py.get d k'.
Proof.
  intros Hne. induction d as [| [k0 v0] d IH]; simpl.
  - now rewrite decide_False.
  - destruct (decide (k0 = k)) as [-> | Hk0]; simpl.
    + now rewrite !decide_False.
    + destruct (decide (k0 = k')); [reflexivity | exact IH].
Qed.


Lemma get_assign_all_other {X} (f : X -> K) (g : X -> V) l d k :
  (forall x, x ∈ l -> f x <> k) ->
  Py.get (assign_all f g l d) k = Py.get d k.
Proof.
  revert d. induction l as [| x l IH]; intros d Hl; simpl; [reflexivity |].
  rewrite IH.
  - apply get_set_ne. apply Hl. left.
  - intros y Hy. apply Hl. now right.
Qed.

Lemma get_assign_all_last {X} (f : X -> K) (g : X -> V) before x after d :
  (forall y, y ∈ after -> f y <> f x) ->
  Py.get (assign_all f g (before ++ x :: after) d) (f x) = Some (g x).
Proof.
  intros Hafter.
  replace (assign_all f g (before ++ x :: after) d)
    with (assign_all f g after (Py.set (assign_all f g before d) (f x) (g x)))
    by (unfold assign_all; now rewrite fold_left_app).
  rewrite get_assign_all_other by exact Hafter.
  apply get_set_eq.
Qed.

End DictFacts.

(** ** Gate inputs from a bit file *)


(** The comprehension of line 104, when every character is a digit: the
    assignments [in_vals[p] = int(c)] in the order of the ports. *)
Lemma bits_to_vals_digits bits ports :
  forall i in_vals,
    length bits = (i + length ports)%nat ->
    Forall is_digit (drop i bits) ->
    bits_to_vals bits i ports in_vals =
      Ok (assign_all (fun pc => Some pc.1)
            (fun pc => default 0 (Py.digit_value pc.2))
            (zip ports (drop i bits)) in_vals).
Proof.
  induction ports as [| p ports IH]; intros i in_vals Hlen Hdigits.
  - reflexivity.
  - simpl in Hlen.
    destruct (lookup_lt_is_Some_2 bits i ltac:(lia)) as [c Hc].
    rewrite (drop_S _ _ _ Hc) in *.
    apply Forall_cons in Hdigits as [[v Hv] Hrest].
    simpl. rewrite Hc. unfold int_of_char. rewrite Hv.
    rewrite IH by (lia || assumption). reflexivity.
Qed.

(** The first character that is not a digit stops the comprehension. *)
Lemma bits_to_vals_invalid bits ports :
  forall i in_vals,
    length bits = (i + length ports)%nat ->
    ~ Forall is_digit (drop i bits) ->
    exists c, c ∈ bits /\ Py.digit_value c = None /\
              bits_to_vals bits i ports in_vals = Raise (InvalidLiteral c).
Proof.
  induction ports as [| p ports IH]; intros i in_vals Hlen Hbad.
  - exfalso. apply Hbad. rewrite drop_ge by (simpl in Hlen; lia). constructor.
  - simpl in Hlen.
    destruct (lookup_lt_is_Some_2 bits i ltac:(lia)) as [c Hc].
    rewrite (drop_S _ _ _ Hc) in Hbad.
    simpl. rewrite Hc. unfold int_of_char.
    destruct (Py.digit_value c) as [v |] eqn:Hv.
    + apply IH; [lia |]. intros Hrest. apply Hbad.
      constructor; [now exists v | exact Hrest].
    + exists c. split; [| now split].
      apply list_elem_of_lookup. now exists i.
Qed.

Lemma load_bits_digits ports content :
  let bits := Py.strip_separators content in
  length bits = length ports ->
  Forall is_digit bits ->
  exists in_vals,
    load_bits ports content = Ok in_vals /\
    forall i p c,
      ports !! i = Some p -> bits !! i = Some c ->
      (forall j, (i < j)%nat -> ports !! j <> Some p) ->
      Py.get in_vals (Some p) = Py.digit_value c.
Proof.
  intros bits Hlen Hdigits. unfold load_bits. fold bits.
  rewrite bool_decide_eq_false_2 by (intros Hne; now apply Hne).
  rewrite bits_to_vals_digits by (rewrite ?drop_0; assumption).
  rewrite drop_0. eexists. split; [reflexivity |].
  intros i p c Hp Hc Hlast.
  assert (Hpc : zip ports bits !! i = Some (p, c)).
  { rewrite lookup_zip_with, Hp. simpl. now rewrite Hc. }
  apply list_elem_of_split_length in Hpc as (before & after & Hsplit & Hi).
  rewrite Hsplit.
  rewrite (get_assign_all_last (fun pc => Some pc.1) _ before (p, c) after).
  - simpl. rewrite Forall_forall in Hdigits.
    destruct (Hdigits c) as [v Hv]; [| now rewrite Hv].
    apply list_elem_of_lookup. now exists i.
  - intros [q c'] Hq. simpl. intros [= ->].
    apply list_elem_of_lookup in Hq as [j Hj].
    assert (Hlook : zip ports bits !! (length before + S j)%nat = Some (p, c')).
    { rewrite Hsplit, lookup_app_r by lia.
      replace (length before + S j - length before)%nat with (S j) by lia.
      exact Hj. }
    apply lookup_zip_with_Some in Hlook as (p' & c'' & [= <- <-] & Hp' & _).
    apply (Hlast (length before + S j)%nat); [lia | exact Hp'].
Qed.

Lemma load_bits_mismatch ports content :
  length (Py.strip_separators content) <> length ports ->
  load_bits ports content =
    Raise (BitCountMismatch (length ports)
             (length (Py.strip_separators content))).
Proof.
  intros Hne. unfold load_bits. now rewrite bool_decide_eq_true_2.
Qed.

Lemma load_bits_invalid ports content :
  let bits := Py.strip_separators content in
  length bits = length ports ->
  ~ Forall is_digit bits ->
  exists c, c ∈ bits /\ Py.digit_value c = None /\
            load_bits ports content = Raise (InvalidLiteral c).
Proof.
  intros bits Hlen Hbad. unfold load_bits. fold bits.
  rewrite bool_decide_eq_false_2 by (intros Hne; now apply Hne).
  apply bits_to_vals_invalid; [exact Hlen | now rewrite drop_0].
Qed.

(** C2, as the driver has it. With [bits] the text of the file without
    commas and white space:
    - when [bits] has one character for each declared input port and all of
      them are decimal digits, loading succeeds and the port at each
      position gets the value of the character at that position;
    - when the number of characters differs from the number of ports,
      loading raises the bit-count mismatch and yields no values;
    - when the count is right but some character is not a digit, loading
      raises the [ValueError] of [int] and yields no values. *)
Theorem bit_file_loading ports content :
  let bits := Py.strip_separators content in
  (length bits = length ports -> Forall is_digit bits ->
   exists in_vals,
     load_bits ports content = Ok in_vals /\
     forall i p c,
       ports !! i = Some p -> bits !! i = Some c ->
       (forall j, (i < j)%nat -> ports !! j <> Some p) ->
       Py.get in_vals (Some p) = Py.digit_value c) /\
  (length bits <> length ports ->
   load_bits ports content =
     Raise (BitCountMismatch (length ports) (length bits))) /\
  (length bits = length ports -> ~ Forall is_digit bits ->
   exists c, c ∈ bits /\ Py.digit_value c = None /\
             load_bits ports content = Raise (InvalidLiteral c)).
Proof.
  intros bits. split; [| split].
  - apply load_bits_digits.
  - apply load_bits_mismatch.
  - apply load_bits_invalid.
Qed.

(** The two examples of the specification: ["1,0,1"] against three ports,
    and two characters against three ports. *)
Lemma bit_file_loading_witness :
  load_bits ["port1"; "port2"; "port3"] "1,0,1"
  = Ok [(Some "port1", 1); (Some "port2", 0); (Some "port3", 1)] /\
  load_bits ["port1"; "port2"; "port3"] "1 0" = Raise (BitCountMismatch 3 2).
Proof.
  destruct (bit_file_loading ["port1"; "port2"; "port3"] "1,0,1")
    as [Hok _].
  destruct (bit_file_loading ["port1"; "port2"; "port3"] "1 0")
    as (_ & Hshort & _).
  split.
  - destruct Hok as (in_vals & Hload & _).
    + reflexivity.
    + repeat constructor; now eexists.
    + reflexivity.
  - apply Hshort. vm_compute. discriminate.
Defined.

(** C2, as the claim has it, fails: three characters for three ports, and
    loading does not succeed, because the characters are not digits. *)
Lemma bit_file_of_right_length_rejected :
  length (Py.strip_separators "a,b,c") = length ["A"; "B"; "CIN"] /\
  load_bits ["A"; "B"; "CIN"] "a,b,c" = Raise (InvalidLiteral "a").
Proof. split; reflexivity. Qed.

(** ** Interactive entry *)

Lemma ask_bit_is_bit p lines :
  forall lg v w, ask_bit p lines lg = (Ok v, w) -> v = 0 \/ v = 1.
Proof.
  induction lines as [| line rest IH]; intros lg v w; simpl.
  - discriminate.
  - repeat case_bool_decide.
    + intros [= <- _]. now left.
    + intros [= <- _]. now right.
    + apply IH.
Qed.

Lemma ask_bit_again p line rest lg :
  Py.strip line <> "0" -> Py.strip line <> "1" ->
  ask_bit p (line :: rest) lg = ask_bit p rest (lg ++ [Prompted (AskBit p)]).
Proof.
  intros H0 H1. simpl. now rewrite !bool_decide_eq_false_2.
Qed.


Lemma bits_only_set in_vals role v :
  bits_only in_vals -> v = 0 \/ v = 1 -> bits_only (Py.set in_vals role v).
Proof.
  intros Hd Hv role' v'. destruct (decide (role = role')) as [<- | Hne].
  - rewrite get_set_eq. now intros [= <-].
  - rewrite get_set_ne by exact Hne. apply Hd.
Qed.

Lemma ask_inputs_bits ports :
  forall in_vals w in_vals' w',
    ask_inputs ports in_vals w = (Ok in_vals', w') ->
    bits_only in_vals -> bits_only in_vals'.
Proof.
  induction ports as [| p ports IH]; intros in_vals w in_vals' w'; simpl.
  - now intros [= <- _].
  - unfold bind. destruct (ask_bit p (stdin w) (log w)) as [[v | |] w1] eqn:Hv;
      try discriminate.
    intros Hrest Hd. eapply IH; [exact Hrest |].
    apply bits_only_set; [exact Hd | eapply ask_bit_is_bit, Hv].
Qed.

Lemma digit_value_range c v : Py.digit_value c = Some v -> 0 <= v <= 9.
Proof.
  unfold Py.digit_value.
  destruct (_ && _)%bool eqn:Hrange; [| discriminate].
  apply andb_prop in Hrange as [Hlo Hhi].
  apply N.leb_le in Hlo, Hhi. intros [= <-]. lia.
Qed.

Lemma ask_bit_accepts p line rest lg v :
  (Py.strip line = "0" /\ v = 0) \/ (Py.strip line = "1" /\ v = 1) ->
  ask_bit p (line :: rest) lg =
    (Ok v, {| stdin := rest; log := lg ++ [Prompted (AskBit p)] |}).
Proof.
  intros [[Hline ->] | [Hline ->]]; simpl; rewrite Hline; reflexivity.
Qed.

(** C10. Loading from a file checks the number of characters only: when the
    count is right and the characters are decimal digits, each port gets
    the value of its digit, whatever it is between 0 and 9, so that a 7 is
    loaded as 7. Interactive entry takes the answers ["0"] and ["1"], asks
    again for any other answer, and every value it returns or stores is 0
    or 1. *)
Theorem bit_file_checks_count_only :
  (forall ports content,
     length (Py.strip_separators content) = length ports ->
     Forall is_digit (Py.strip_separators content) ->
     exists in_vals,
       load_bits ports content = Ok in_vals /\
       forall i p c,
         ports !! i = Some p -> Py.strip_separators content !! i = Some c ->
         (forall j, (i < j)%nat -> ports !! j <> Some p) ->
         exists v, Py.digit_value c = Some v /\ 0 <= v <= 9 /\
                   Py.get in_vals (Some p) = Some v) /\
  load_bits ["A"; "B"] "7 1" = Ok [(Some "A", 7); (Some "B", 1)] /\
  (forall p line rest lg v,
     (Py.strip line = "0" /\ v = 0) \/ (Py.strip line = "1" /\ v = 1) ->
     ask_bit p (line :: rest) lg =
       (Ok v, {| stdin := rest; log := lg ++ [Prompted (AskBit p)] |})) /\
  (forall p line rest lg,
     Py.strip line <> "0" -> Py.strip line <> "1" ->
     ask_bit p (line :: rest) lg =
     ask_bit p rest (lg ++ [Prompted (AskBit p)])) /\
  (forall p lines lg v w, ask_bit p lines lg = (Ok v, w) -> v = 0 \/ v = 1) /\
  (forall ports w in_vals w',
     ask_inputs ports [] w = (Ok in_vals, w') -> bits_only in_vals).
Proof.
  split; [| split; [| split; [| split; [| split]]]].
  - intros ports content Hlen Hdigits.
    destruct (load_bits_digits ports content Hlen Hdigits)
      as (in_vals & Hload & Hget).
    exists in_vals. split; [exact Hload |].
    intros i p c Hp Hc Hlast.
    assert (Hdigit : is_digit c).
    { rewrite Forall_forall in Hdigits. apply Hdigits.
      apply list_elem_of_lookup. now exists i. }
    destruct Hdigit as [v Hv]. exists v.
    split; [exact Hv |]. split; [now apply digit_value_range with c |].
    rewrite <- Hv. now apply Hget with i.
  - reflexivity.
  - apply ask_bit_accepts.
  - apply ask_bit_again.
  - apply ask_bit_is_bit.
  - intros ports w in_vals w' Hask.
    apply (ask_inputs_bits _ _ _ _ _ Hask). intros role v. discriminate.
Qed.

(** A 7 in the file is loaded; a 7 typed at the prompt is asked again. *)
Lemma bit_file_checks_count_only_witness :
  (exists in_vals,
     load_bits ["A"; "B"] "7,1" = Ok in_vals /\
     Py.get in_vals (Some "A") = Some 7) /\
  ask_bit "A" ["7"; " 1 "] [] =
    (Ok 1, {| stdin := [];
              log := [Prompted (AskBit "A"); Prompted (AskBit "A")] |}).
Proof.
  destruct bit_file_checks_count_only as (Hfile & _ & _ & Hagain & _).
  split.
  - destruct (Hfile ["A"; "B"] "7,1") as (in_vals & Hload & Hget).
    + reflexivity.
    + repeat constructor; now eexists.
    + exists in_vals. split; [exact Hload |].
      destruct (Hget 0%nat "A" "7"%char) as (v & Hv & _ & Hlook).
      * reflexivity.
      * reflexivity.
      * intros [| [| j]] Hj; [lia | discriminate | discriminate].
      * rewrite Hlook. symmetry. exact Hv.
  - rewrite Hagain by discriminate. reflexivity.
Defined.

(** ** The log only grows *)


Create HintDb appends.

Lemma appends_ret {A} (a : A) : appends (ret a).
Proof. intros w. exists []. simpl. now rewrite app_nil_r. Qed.

Lemma appends_lift {A} (o : outcome A) : appends (lift o).
Proof. intros w. exists []. simpl. now rewrite app_nil_r. Qed.

Lemma appends_exit {A} code : appends (@sys_exit A code).
Proof. intros w. exists []. simpl. now rewrite app_nil_r. Qed.

Lemma appends_raise {A} e : appends (@raise A e).
Proof. intros w. exists []. simpl. now rewrite app_nil_r. Qed.

Lemma appends_emit e : appends (emit e).
Proof. intros w. now exists [e]. Qed.

Lemma appends_print m : appends (print m).
Proof. apply appends_emit. Qed.

Lemma appends_input p : appends (input p).
Proof.
  intros w. exists [Prompted p]. unfold input. now destruct (stdin w).
Qed.

Lemma appends_call_out {A} c (f : ext A) : appends (call_out c f).
Proof.
  intros w. unfold call_out. destruct (f (stdin w)) as [[r rest] printed].
  now eexists.
Qed.

Lemma bind_appends {A B} (c : M A) (k : A -> M B) w :
  (forall a, appends (k a)) ->
  exists events, log (bind c k w).2 = log (c w).2 ++ events.
Proof.
  intros Hk. unfold bind. destruct (c w) as [[a | code | e] w1].
  - apply Hk.
  - exists []. simpl. now rewrite app_nil_r.
  - exists []. simpl. now rewrite app_nil_r.
Qed.

Lemma appends_bind {A B} (c : M A) (k : A -> M B) :
  appends c -> (forall a, appends (k a)) -> appends (bind c k).
Proof.
  intros Hc Hk w.
  destruct (Hc w) as [l1 H1], (bind_appends c k w Hk) as [l2 H2].
  exists (l1 ++ l2). now rewrite H2, H1, app_assoc.
Qed.

#[export] Hint Resolve appends_ret appends_lift appends_exit appends_raise
  appends_emit appends_print appends_input appends_call_out appends_bind
  : appends.

Ltac appends :=
  repeat first
    [ progress (intros; auto with appends)
    | apply appends_bind
    | match goal with
      | |- appends (match ?x with _ => _ end) => destruct x
      | |- appends (if ?x then _ else _) => destruct x
      | |- appends (let '(_, _) := ?x in _) => destruct x
      end ].

Lemma appends_read_file mc fn : appends (read_file mc fn).
Proof. unfold read_file. appends. Qed.

Lemma appends_convert_to_pdf mc dot pdf : appends (convert_to_pdf mc dot pdf).
Proof. unfold convert_to_pdf, system. appends. Qed.

Lemma appends_ask_bit p : appends (fun w => ask_bit p (stdin w) (log w)).
Proof.
  intros [lines lg]. simpl. revert lg.
  induction lines as [| line rest IH]; intros lg; simpl.
  - now eexists.
  - repeat case_bool_decide; try now eexists.
    destruct (IH (lg ++ [Prompted (AskBit p)])) as [events ->].
    eexists. now rewrite <- app_assoc.
Qed.

Lemma appends_ask_inputs ports in_vals : appends (ask_inputs ports in_vals).
Proof.
  revert in_vals. induction ports as [| p ports IH]; intros in_vals; simpl.
  - appends.
  - apply appends_bind; [apply appends_ask_bit | intros v; apply IH].
Qed.

#[export] Hint Resolve appends_read_file appends_convert_to_pdf
  appends_ask_inputs : appends.

Lemma appends_evaluate_design vf modules top_module input_vals debug :
  appends (evaluate_design vf modules top_module input_vals debug).
Proof. unfold evaluate_design. appends. Qed.

Lemma appends_report_gate vf mc gate_instance gate_type in_vals :
  appends (report_gate vf mc gate_instance gate_type in_vals).
Proof. unfold report_gate, run_primitive. appends. Qed.

Lemma appends_process_flags args :
  forall debug gate_instance, appends (process_flags args debug gate_instance).
Proof.
  assert (Hlen : forall n args, (length args <= n)%nat ->
            forall debug gate_instance,
              appends (process_flags args debug gate_instance)).
  { induction n as [| n IH]; intros [| arg rest] Hn debug gate_instance;
      simpl in *; try apply appends_ret; try lia.
    repeat case_bool_decide.
    - apply IH. lia.
    - destruct rest as [| name rest']; [appends |]. apply IH. simpl in Hn. lia.
    - apply appends_bind; [apply appends_print |]. intros _. apply IH. lia. }
  now apply (Hlen (length args)).
Qed.

(** Nothing in a run removes or rewrites what was logged before. *)
Lemma appends_main vf mc argv : appends (main vf mc argv).
Proof.
  unfold main.
  destruct argv as [| script [| mode [| verilog_file rest]]]; [appends .. |].
  destruct (optional_top rest) as [top_module flags].
  apply appends_bind; [apply appends_process_flags |].
  intros [debug gate_instance]. case_bool_decide; [appends |].
  unfold run, resolve_top, simulate_gate, simulate_design, select_gate,
    gate_inputs, circuit_inputs, local_inputs, catalog_inputs, lookup_module.
  pose proof appends_evaluate_design. pose proof appends_report_gate.
  appends.
Qed.

(** ** Gate inputs from a run of the whole design *)

Lemma gather_in_vals_assign top_module signal_values conns :
  gather_in_vals top_module signal_values conns =
  assign_all port (connection_value top_module signal_values) conns [].
Proof. reflexivity. Qed.

Lemma gather_absent_signal top_module signal_values before c after :
  signal_values !! signal_key top_module (signal c) = None ->
  (forall c', c' ∈ after -> port c' <> port c) ->
  Py.get (gather_in_vals top_module signal_values (before ++ c :: after))
    (port c) = Some 0.
Proof.
  intros Habsent Hlast.
  rewrite gather_in_vals_assign, get_assign_all_last by exact Hlast.
  unfold connection_value. now rewrite Habsent.
Qed.

(** The [--gate] branch when the answer to the first question starts with
    an n: the inputs of the gate are gathered from a run of the design. *)
Lemma simulate_gate_from_circuit
    vf mc modules top_module debug gate_instance m inst ports w line rest
    input_vals rest1 printed1 signal_values rest2 printed2 :
  modules !! top_module = Some m ->
  find_instance m gate_instance = Some inst ->
  primitive_ports vf !! map_gate_type (module inst) = Some ports ->
  stdin w = line :: rest ->
  Py.startswith (Py.lower (Py.strip line)) "n" = true ->
  get_input_values vf (inputs m) rest = (Ok input_vals, rest1, printed1) ->
  simulate_module vf modules top_module input_vals ∅ debug rest1
  = (Ok signal_values, rest2, printed2) ->
  simulate_gate vf mc modules top_module debug gate_instance w =
  report_gate vf mc gate_instance (map_gate_type (module inst))
    (gather_in_vals top_module signal_values (connections inst))
    {| stdin := rest2;
       log := ((log w ++ [Prompted AskLocalOnly])
               ++ Called (CallGetInputValues (inputs m))
                  :: (LibraryOutput <$> printed1))
              ++ Called (CallSimulateModule modules top_module input_vals ∅
                           debug)
                 :: (LibraryOutput <$> printed2) |}.
Proof.
  intros Hm Hinst Hports Hin Hanswer Hvalues Hsim.
  unfold simulate_gate.
  erewrite bind_ok
    by (rewrite (select_gate_found _ _ _ _ _ _ _ Hm Hinst), Hports;
        reflexivity).
  cbv beta iota. unfold gate_inputs.
  erewrite bind_ok; [| erewrite bind_ok; [| unfold input; rewrite Hin; reflexivity]].
  2: { rewrite Hanswer. unfold circuit_inputs.
       rewrite (bind_ok _ _ _ _ _ (lookup_module_ok _ _ _ _ Hm)).
       erewrite bind_ok by (unfold call_out; simpl; rewrite Hvalues; reflexivity).
       erewrite bind_ok
         by (unfold evaluate_design, call_out; simpl; rewrite Hsim;
             reflexivity).
       reflexivity. }
  reflexivity.
Qed.

(** C4. When the inputs of the selected gate are gathered from the store of
    a run of the design, a connection whose key is not in the store yields
    the value 0; that is the value of its port in the gathered inputs,
    unless a later connection binds the same port again; and the primitive
    is evaluated on the gathered inputs. *)
Theorem absent_signal_reads_zero
    vf mc modules top_module debug gate_instance m inst ports simulate
    w line rest input_vals rest1 printed1 signal_values rest2 printed2
    before c after :
  modules !! top_module = Some m ->
  find_instance m gate_instance = Some inst ->
  primitive_ports vf !! map_gate_type (module inst) = Some ports ->
  primitive_simulators vf !! map_gate_type (module inst) = Some simulate ->
  stdin w = line :: rest ->
  Py.startswith (Py.lower (Py.strip line)) "n" = true ->
  get_input_values vf (inputs m) rest = (Ok input_vals, rest1, printed1) ->
  simulate_module vf modules top_module input_vals ∅ debug rest1
  = (Ok signal_values, rest2, printed2) ->
  connections inst = before ++ c :: after ->
  signal_values !! signal_key top_module (signal c) = None ->
  let in_vals := gather_in_vals top_module signal_values (connections inst) in
  connection_value top_module signal_values c = 0 /\
  ((forall c', c' ∈ after -> port c' <> port c) ->
   Py.get in_vals (port c) = Some 0) /\
  Called (CallPrimitive (map_gate_type (module inst)) in_vals)
  ∈ log (simulate_gate vf mc modules top_module debug gate_instance w).2.
Proof.
  intros Hm Hinst Hports Hsimulate Hin Hanswer Hvalues Hsim Hconns Habsent
    in_vals.
  subst in_vals. split; [| split].
  - unfold connection_value. now rewrite Habsent.
  - intros Hlast. rewrite Hconns. now apply gather_absent_signal.
  - rewrite (simulate_gate_from_circuit _ _ _ _ _ _ _ _ _ _ _ _ _ _ _ _ _ _
               Hm Hinst Hports Hin Hanswer Hvalues Hsim).
    unfold report_gate.
    match goal with
    | |- _ ∈ log (bind ?c ?k ?w).2 =>
        destruct (bind_appends c k w) as [events ->]
    end.
    { intros out_vals. appends. }
    unfold run_primitive. rewrite Hsimulate. unfold call_out. simpl.
    destruct (simulate _ rest2) as [[r rest3] printed3]. simpl.
    rewrite !elem_of_app, elem_of_cons. left. right. now left.
Qed.

(** The gate [g1] of the example reads [nc], which nothing drives. *)
Lemma absent_signal_reads_zero_witness :
  let in_vals := [(Some "A", 0); (Some "B", 0); (Some "Y", 0)] in
  connection_value "top" example_store (conn "B" "nc") = 0 /\
  Py.get in_vals (Some "B") = Some 0 /\
  Called (CallPrimitive "AND" in_vals)
  ∈ log (simulate_gate example_library (example_machine 0) design "top"
           false "g1" (start ["n"; "1"; "1"; "0"])).2.
Proof.
  destruct
    (absent_signal_reads_zero example_library (example_machine 0) design
       "top" false "g1" top_module_example g1_instance
       {| prim_inputs := ["A"; "B"]; prim_outputs := ["Y"] |}
       (fun in_vals pending => (gate2 Z.land in_vals, pending, []))
       (start ["n"; "1"; "1"; "0"]) "n" ["1"; "1"; "0"]
       [("a", 1); ("b", 1); ("cin", 0)] [] [] example_store [] []
       [conn "A" "s"] (conn "B" "nc") [conn "Y" "w"]
       eq_refl eq_refl eq_refl eq_refl eq_refl eq_refl eq_refl)
    as (Hzero & Hport & Hcalled).
  - vm_compute. reflexivity.
  - reflexivity.
  - vm_compute. reflexivity.
  - split; [exact Hzero |]. split; [| exact Hcalled].
    apply Hport. intros c' Hc'. apply list_elem_of_In in Hc'. simpl in Hc'.
    intuition (subst; discriminate).
Defined.

(** ** The renderer *)


(** The same run, evaluated: the values are printed, the renderer fails,
    and the run returns. *)
Example renderer_failure_run :
  let result :=
    main example_library (example_machine 1)
      ["thesis.py"; "H"; "adder.v"; "--gate"; "g1"]
      (start ["y"; "n"; "1"; "1"]) in
  result.1 = Ok tt /\
  log result.2 =
    [Called (CallParse "adder.v"); Called (CallFindTop design);
     Prompted AskLocalOnly; Prompted AskLoadFromFile;
     Printed (MsgEnterEach "g1");
     Prompted (AskBit "A"); Prompted (AskBit "B");
     Called (CallPrimitive "AND" [(Some "A", 1); (Some "B", 1)]);
     Printed (MsgInputValues [(Some "A", 1); (Some "B", 1)]);
     Printed (MsgOutputValues [("Y", 1)]);
     Called
       (CallGeneratePrimitive "g1_AND.dot" "AND" "g1"
          [(Some "A", ("input_a", 1)); (Some "B", ("input_b", 1));
           (Some "Y", ("output_y", 1))]);
     Printed (MsgConverting "g1_AND.dot");
     Called (CallSystem "dot -Tpdf g1_AND.dot -o g1_AND.pdf");
     Printed MsgDotFailed].
Proof. split; vm_compute; reflexivity. Qed.

(** ** The key format of the examples *)

Lemma append_cancel_l a x y : a +:+ x = a +:+ y -> x = y.
Proof.
  induction a as [| c a IH]; simpl; [auto |].
  intros [= H]. auto.
Qed.

Lemma plain_append a b : plain (a +:+ b) = plain a && plain b.
Proof.
  induction a as [| c a IH]; simpl; [reflexivity |].
  now rewrite IH, andb_assoc.
Qed.

Lemma plain_no_separator s a b : plain s = true -> s <> a +:+ "_" +:+ b.
Proof.
  intros Hs ->. rewrite plain_append in Hs. simpl in Hs.
  now rewrite andb_false_r in Hs.
Qed.

Lemma separator_cancel a b x y :
  plain a = true -> plain b = true ->
  a +:+ "_" +:+ x = b +:+ "_" +:+ y -> a = b /\ x = y.
Proof.
  revert b. induction a as [| c a IH]; intros [| c' b] Ha Hb; simpl in *.
  - intros [= H]. auto.
  - intros [= <- _]. discriminate.
  - intros [= -> _]. discriminate.
  - intros [= <- H].
    apply andb_prop in Ha as [_ Ha], Hb as [_ Hb].
    destruct (IH b Ha Hb H) as [-> ->]. auto.
Qed.

Lemma qualified_key_same_path path s1 s2 :
  qualified_key path s1 = qualified_key path s2 -> s1 = s2.
Proof.
  induction path as [| name path IH]; simpl; [auto |].
  intros H. apply append_cancel_l in H. apply IH.
  now injection H.
Qed.

Lemma qualified_key_plain_injective p1 :
  forall s1 p2 s2,
    Forall (fun name => plain name = true) (p1 ++ [s1]) ->
    Forall (fun name => plain name = true) (p2 ++ [s2]) ->
    qualified_key p1 s1 = qualified_key p2 s2 ->
    p1 = p2 /\ s1 = s2.
Proof.
  induction p1 as [| n1 p1 IH]; intros s1 [| n2 p2] s2 H1 H2; simpl in *.
  - auto.
  - intros Hkey. apply Forall_cons in H1 as [Hs1 _].
    now destruct (plain_no_separator _ _ _ Hs1 Hkey).
  - intros Hkey. apply Forall_cons in H2 as [Hs2 _].
    now destruct (plain_no_separator _ _ _ Hs2 (eq_sym Hkey)).
  - intros Hkey.
    apply Forall_cons in H1 as [Hn1 H1], H2 as [Hn2 H2].
    destruct (separator_cancel _ _ _ _ Hn1 Hn2 Hkey) as [-> Hrest].
    destruct (IH _ _ _ H1 H2 Hrest) as [-> ->]. auto.
Qed.

(** ** The example design and the schedules of the model *)

Lemma remove_first_permutation x pending :
  x ∈ pending -> pending ≡ₚ x :: remove_first x pending.
Proof.
  induction pending as [| y pending IH]; intros Hin.
  - now apply elem_of_nil in Hin.
  - simpl. destruct (decide (y = x)) as [-> | Hne]; [reflexivity |].
    apply elem_of_cons in Hin as [-> | Hin]; [congruence |].
    rewrite (IH Hin) at 1. apply Permutation_swap.
Qed.

(** The end-to-end scenario of the specification: the full adder as a
    module of gates and the full adder as a primitive agree on every
    input. *)
Example full_adder_paths_agree a b c :
  a ∈ [0; 1] -> b ∈ [0; 1] -> c ∈ [0; 1] ->
  match
    evaluate qualified_key first_ready 1 design "full_adder"
      [("A", a); ("B", b); ("CIN", c)] ∅ ["fa"],
    full_adder [(Some "A", a); (Some "B", b); (Some "CIN", c)]
  with
  | Ok (_, out_vals), Ok primitive => out_vals = primitive
  | _, _ => False
  end.
Proof.
  rewrite !elem_of_cons, !elem_of_nil.
  intros [-> | [-> | []]] [-> | [-> | []]] [-> | [-> | []]];
    vm_compute; reflexivity.
Qed.

(** ** Runs of the example *)

(** X25. A mode other than ['H'] and ['V'] ends the run with exit status 1
    once the flags are read: what the flag loop reported is printed before
    the complaint about the mode, and the file is not parsed. *)
Lemma other_mode_exits vf mc script mode verilog_file rest top_module flags
    debug gate_instance w w' :
  optional_top rest = (top_module, flags) ->
  process_flags flags false None w = (Ok (debug, gate_instance), w') ->
  mode <> "H" -> mode <> "V" ->
  main vf mc (script :: mode :: verilog_file :: rest) w =
    (Exit 1, {| stdin := stdin w'; log := log w' ++ [Printed MsgBadMode] |}).
Proof.
  intros Htop Hflags HH HV. unfold main. rewrite Htop.
  rewrite (bind_ok _ _ _ _ _ Hflags). cbv beta iota.
  rewrite bool_decide_eq_true_2; [reflexivity |].
  rewrite !not_elem_of_cons. repeat split; auto using not_elem_of_nil.
Qed.

(** The gate [u1] tested on its own with inputs from a file: three bits are
    loaded, a file of letters makes [int] fail, a file of two bits is
    refused for its length; in the last two runs nothing is simulated. *)
Example bit_file_runs :
  let run file :=
    main example_library (example_machine 0)
      ["thesis.py"; "H"; "adder.v"; "--gate"; "u1"]
      (start ["y"; "y"; file]) in
  let asked :=
    [Called (CallParse "adder.v"); Called (CallFindTop design);
     Prompted AskLocalOnly; Prompted AskLoadFromFile; Prompted AskFileName] in
  (run "bits.txt").1 = Ok tt /\
  Printed (MsgOutputValues [("SUM", 0); ("COUT", 1)]) ∈ log (run "bits.txt").2 /\
  run "bad.txt" =
    (Raise (InvalidLiteral "a"),
     {| stdin := []; log := asked ++ [Called (CallOpen "bad.txt")] |}) /\
  run "short.txt" =
    (Raise (BitCountMismatch 3 2),
     {| stdin := []; log := asked ++ [Called (CallOpen "short.txt")] |}).
Proof.
  cbv zeta. split; [| split; [| split]].
  - vm_compute. reflexivity.
  - apply (bool_decide_unpack _). vm_compute. exact I.
  - vm_compute. reflexivity.
  - vm_compute. reflexivity.
Qed.

(** * Further properties of the driver *)

(** ** The flag loop *)

Lemma process_flags_app a b :
  forall debug gate_instance w debug' gate_instance' w',
    process_flags a debug gate_instance w
    = (Ok (debug', gate_instance'), w') ->
    process_flags (a ++ b) debug gate_instance w
    = process_flags b debug' gate_instance' w'.
Proof.
  assert (Hlen : forall n a, (length a <= n)%nat ->
            forall debug gate_instance w debug' gate_instance' w',
              process_flags a debug gate_instance w
              = (Ok (debug', gate_instance'), w') ->
              process_flags (a ++ b) debug gate_instance w
              = process_flags b debug' gate_instance' w').
  { induction n as [| n IH]; intros [| arg rest] Hn d g w d' g' w';
      simpl in Hn; try lia.
    - now intros [= <- <- <-].
    - now intros [= <- <- <-].
    - simpl. repeat case_bool_decide.
      + apply IH. lia.
      + destruct rest as [| name rest']; [discriminate |].
        apply IH. simpl in Hn. lia.
      + unfold bind, print, emit. apply IH. lia. }
  now apply (Hlen (length a)).
Qed.

(** X1. Flags are handled one after the other: once a first run of flags
    has been read without error, a second run appended to it is read from
    the state the first one left. *)
Theorem flags_are_read_in_sequence
    a b debug gate_instance w debug' gate_instance' w' :
  process_flags a debug gate_instance w = (Ok (debug', gate_instance'), w') ->
  process_flags (a ++ b) debug gate_instance w
  = process_flags b debug' gate_instance' w'.
Proof. apply process_flags_app. Qed.

Lemma flags_are_read_in_sequence_witness :
  process_flags (["--gate"; "g1"] ++ ["DEBUG"; "-v"]) false None (start [])
  = (Ok (true, Some "g1"),
     {| stdin := []; log := [Printed (MsgUnrecognized "-v")] |}).
Proof.
  rewrite (flags_are_read_in_sequence ["--gate"; "g1"] ["DEBUG"; "-v"]
             false None (start []) false (Some "g1") (start []) eq_refl).
  reflexivity.
Defined.

Lemma process_flags_effects args :
  forall debug gate_instance w,
    exists msgs,
      stdin (process_flags args debug gate_instance w).2 = stdin w /\
      log (process_flags args debug gate_instance w).2
      = log w ++ (Printed <$> msgs) /\
      Forall
        (fun m => m = MsgGateNeedsName \/
                  exists arg, arg ∈ args /\ m = MsgUnrecognized arg)
        msgs.
Proof.
  assert (Hlen : forall n args, (length args <= n)%nat ->
            forall debug gate_instance w,
              exists msgs,
                stdin (process_flags args debug gate_instance w).2 = stdin w /\
                log (process_flags args debug gate_instance w).2
                = log w ++ (Printed <$> msgs) /\
                Forall
                  (fun m => m = MsgGateNeedsName \/
                            exists arg, arg ∈ args /\ m = MsgUnrecognized arg)
                  msgs).
  { induction n as [| n IH]; intros [| arg rest] Hn d g w; simpl in Hn;
      try lia;
      try (exists []; simpl; rewrite app_nil_r; now repeat split).
    assert (Hweak : forall tail dg gg wg,
              (length tail <= n)%nat ->
              (forall x, x ∈ tail -> x ∈ arg :: rest) ->
              exists msgs,
                stdin (process_flags tail dg gg wg).2 = stdin wg /\
                log (process_flags tail dg gg wg).2
                = log wg ++ (Printed <$> msgs) /\
                Forall
                  (fun m => m = MsgGateNeedsName \/
                            exists x, x ∈ arg :: rest /\ m = MsgUnrecognized x)
                  msgs).
    { intros tail dg gg wg Htail Hsub.
      destruct (IH tail Htail dg gg wg) as (msgs & Hin & Hlog & Hmsgs).
      exists msgs. repeat split; try assumption.
      eapply Forall_impl; [exact Hmsgs |].
      intros m [-> | (x & Hx & ->)]; [now left | right; eauto]. }
    simpl. repeat case_bool_decide.
    - apply Hweak; [lia | intros x Hx; now right].
    - destruct rest as [| name rest'].
      + exists [MsgGateNeedsName]. repeat split.
        constructor; [now left | constructor].
      + apply Hweak; [simpl in Hn; lia | intros x Hx; right; now right].
    - unfold bind, print, emit.
      destruct (Hweak rest d g
                  {| stdin := stdin w;
                     log := log w ++ [Printed (MsgUnrecognized arg)] |})
        as (msgs & Hin & Hlog & Hmsgs); [lia | intros x Hx; now right |].
      exists (MsgUnrecognized arg :: msgs). split; [exact Hin |].
      split; [rewrite Hlog; simpl; now rewrite <- app_assoc |].
      constructor; [| exact Hmsgs].
      right. exists arg. split; [left | reflexivity]. }
  intros debug gate_instance w. now apply (Hlen (length args)).
Qed.

(** X2. Reading the flags touches nothing but the screen: no line of input
    is consumed, nothing is called, and what is printed is the report of an
    unrecognized argument of the command line or the complaint about a
    [--gate] without a name. *)
Theorem flags_only_print args debug gate_instance w :
  exists msgs,
    stdin (process_flags args debug gate_instance w).2 = stdin w /\
    log (process_flags args debug gate_instance w).2
    = log w ++ (Printed <$> msgs) /\
    Forall
      (fun m => m = MsgGateNeedsName \/
                exists arg, arg ∈ args /\ m = MsgUnrecognized arg)
      msgs.
Proof. apply process_flags_effects. Qed.

Lemma process_flags_debug_stays args :
  forall gate_instance w debug' gate_instance' w',
    process_flags args true gate_instance w
    = (Ok (debug', gate_instance'), w') ->
    debug' = true.
Proof.
  assert (Hlen : forall n args, (length args <= n)%nat ->
            forall gate_instance w debug' gate_instance' w',
              process_flags args true gate_instance w
              = (Ok (debug', gate_instance'), w') ->
              debug' = true).
  { induction n as [| n IH]; intros [| arg rest] Hn g w d' g' w';
      simpl in Hn; try lia; try now intros [= <- _ _].
    simpl. repeat case_bool_decide.
    - apply IH. lia.
    - destruct rest as [| name rest']; [discriminate |].
      apply IH. simpl in Hn. lia.
    - unfold bind, print, emit. apply IH. lia. }
  now apply (Hlen (length args)).
Qed.

(** X3. The debug flag is recognized in any letter case at a flag position
    and is never switched off again: after flags [a] read without error, an
    argument that lowercases to [debug] continues with debugging on, and
    whatever follows, a successful end has debugging on. *)
Theorem debug_flag_any_case
    a arg b debug gate_instance w debug1 gate1 w1 :
  process_flags a debug gate_instance w = (Ok (debug1, gate1), w1) ->
  Py.lower arg = "debug" ->
  process_flags (a ++ arg :: b) debug gate_instance w
  = process_flags b true gate1 w1 /\
  forall debug2 gate2 w2,
    process_flags (a ++ arg :: b) debug gate_instance w
    = (Ok (debug2, gate2), w2) ->
    debug2 = true.
Proof.
  intros Ha Harg.
  assert (Hstep : process_flags (a ++ arg :: b) debug gate_instance w
                  = process_flags b true gate1 w1).
  { rewrite (process_flags_app _ _ _ _ _ _ _ _ Ha). simpl.
    now rewrite bool_decide_eq_true_2. }
  split; [exact Hstep |].
  intros debug2 gate2 w2. rewrite Hstep. apply process_flags_debug_stays.
Qed.

Lemma debug_flag_any_case_witness :
  process_flags (["--gate"; "g1"] ++ "DeBuG" :: ["--gate"; "g2"]) false None
    (start [])
  = (Ok (true, Some "g2"), start []).
Proof.
  destruct (debug_flag_any_case ["--gate"; "g1"] "DeBuG" ["--gate"; "g2"]
              false None (start []) false (Some "g1") (start [])
              eq_refl eq_refl) as [-> _].
  reflexivity.
Defined.

Lemma process_flags_gate_kept args :
  (forall arg, arg ∈ args -> arg <> "--gate") ->
  forall debug gate_instance w debug' gate_instance' w',
    process_flags args debug gate_instance w
    = (Ok (debug', gate_instance'), w') ->
    gate_instance' = gate_instance.
Proof.
  induction args as [| arg rest IH]; intros Hno d g w d' g' w'; simpl.
  - now intros [= _ <- _].
  - assert (Hrest : forall x, x ∈ rest -> x <> "--gate")
      by (intros x Hx; apply Hno; now right).
    rewrite (bool_decide_eq_false_2 (arg = "--gate")) by (apply Hno; left).
    case_bool_decide.
    + now apply IH.
    + unfold bind, print, emit. now apply IH.
Qed.

(** X4. The argument that follows [--gate] is the instance name, whatever
    it is, and the last [--gate] decides: when no later argument is
    [--gate], a successful end has selected that name. *)
Theorem last_gate_flag_decides
    a name b debug gate_instance w debug1 gate1 w1 debug2 gate2 w2 :
  process_flags a debug gate_instance w = (Ok (debug1, gate1), w1) ->
  (forall arg, arg ∈ b -> arg <> "--gate") ->
  process_flags (a ++ "--gate" :: name :: b) debug gate_instance w
  = (Ok (debug2, gate2), w2) ->
  gate2 = Some name.
Proof.
  intros Ha Hb. rewrite (process_flags_app _ _ _ _ _ _ _ _ Ha).
  simpl. apply (process_flags_gate_kept b Hb).
Qed.

(** The name may read like a flag: here it is [debug]. *)
Lemma last_gate_flag_decides_witness :
  process_flags (["--gate"; "g1"] ++ "--gate" :: "debug" :: ["x"]) false None
    (start [])
  = (Ok (false, Some "debug"),
     {| stdin := []; log := [Printed (MsgUnrecognized "x")] |}) /\
  Some "debug" = Some "debug".
Proof.
  split; [reflexivity |].
  apply (last_gate_flag_decides ["--gate"; "g1"] "debug" ["x"] false None
           (start []) false (Some "g1") (start [])
           false (Some "debug")
           {| stdin := []; log := [Printed (MsgUnrecognized "x")] |}
           eq_refl).
  - intros arg Harg. apply list_elem_of_In in Harg. simpl in Harg.
    intuition (subst; discriminate).
  - reflexivity.
Defined.

(** X5. A [--gate] in the last position that is read as a flag, the
    arguments before it being read without error, so that it is not the
    name taken by a [--gate] just before it, stops the run with exit
    status 1 while the flags are read: before the mode is looked at and
    before the file is parsed. *)
Theorem gate_flag_without_name_exits
    vf mc script mode verilog_file rest top_module a w debug1 gate1 w1 :
  optional_top rest = (top_module, a ++ ["--gate"]) ->
  process_flags a false None w = (Ok (debug1, gate1), w1) ->
  main vf mc (script :: mode :: verilog_file :: rest) w =
    (Exit 1,
     {| stdin := stdin w1; log := log w1 ++ [Printed MsgGateNeedsName] |}).
Proof.
  intros Htop Ha. unfold main. rewrite Htop.
  apply bind_exit. rewrite (process_flags_app _ _ _ _ _ _ _ _ Ha).
  reflexivity.
Qed.

Lemma gate_flag_without_name_exits_witness :
  main example_library (example_machine 0)
    ["thesis.py"; "X"; "adder.v"; "top"; "debug"; "--gate"] (start ["y"])
  = (Exit 1, {| stdin := ["y"]; log := [Printed MsgGateNeedsName] |}).
Proof.
  exact
    (gate_flag_without_name_exits example_library (example_machine 0)
       "thesis.py" "X" "adder.v" ["top"; "debug"; "--gate"] "top" ["debug"]
       (start ["y"]) true None (start ["y"]) eq_refl eq_refl).
Defined.

(** X6. Arguments that are neither [debug] in some letter case nor [--gate]
    change nothing: each is reported, in order, and the flags are as they
    were. *)
Theorem unrecognized_arguments_are_reported args debug gate_instance w :
  Forall unrecognized args ->
  process_flags args debug gate_instance w =
    (Ok (debug, gate_instance),
     {| stdin := stdin w;
        log := log w ++ (Printed <$> (MsgUnrecognized <$> args)) |}).
Proof.
  revert w. induction args as [| arg rest IH]; intros w Hargs; simpl.
  - rewrite app_nil_r. now destruct w.
  - apply Forall_cons in Hargs as [[Hdebug Hgate] Hrest].
    rewrite !bool_decide_eq_false_2 by assumption.
    unfold bind, print, emit. rewrite (IH _ Hrest). simpl.
    now rewrite <- app_assoc.
Qed.

Lemma unrecognized_arguments_are_reported_witness :
  process_flags ["-v"; "gate"] true (Some "g1") (start ["y"])
  = (Ok (true, Some "g1"),
     {| stdin := ["y"];
        log := [Printed (MsgUnrecognized "-v");
                Printed (MsgUnrecognized "gate")] |}).
Proof.
  apply (unrecognized_arguments_are_reported ["-v"; "gate"] true (Some "g1")
           (start ["y"])).
  repeat constructor; discriminate.
Defined.

(** ** The command line and the top module *)

(** X7. With fewer than two arguments after the script name the run
    prints the usage line and ends with exit status 1; nothing is read and
    nothing is called. *)
Theorem too_few_arguments_exit vf mc argv w :
  (length argv < 3)%nat ->
  main vf mc argv w =
    (Exit 1, {| stdin := stdin w; log := log w ++ [Printed MsgUsage] |}).
Proof.
  intros Hlen.
  destruct argv as [| script [| mode [| verilog_file rest]]];
    try reflexivity.
  simpl in Hlen. lia.
Qed.

Lemma too_few_arguments_exit_witness :
  main example_library (example_machine 0) ["thesis.py"; "H"]
    (start ["y"])
  = (Exit 1, {| stdin := ["y"]; log := [Printed MsgUsage] |}).
Proof.
  apply (too_few_arguments_exit example_library (example_machine 0)
           ["thesis.py"; "H"] (start ["y"])).
  simpl. lia.
Defined.

Lemma lower_debug_not_gate arg : Py.lower arg = "debug" -> arg <> "--gate".
Proof. intros Hlower ->. discriminate. Qed.

(** X8. The first optional argument is compared with [debug] letter for
    letter, the later ones in any letter case: an argument such as [Debug]
    in the first position is taken as the name of the top module and
    leaves debugging off, while in a later position it turns debugging
    on. *)
Theorem first_argument_is_case_sensitive
    vf mc script mode verilog_file arg top_module w :
  mode = "H" \/ mode = "V" ->
  Py.lower arg = "debug" -> arg <> "debug" ->
  top_module <> "debug" -> top_module <> "--gate" ->
  main vf mc [script; mode; verilog_file; arg] w
  = run vf mc verilog_file arg false None w /\
  main vf mc [script; mode; verilog_file; top_module; arg] w
  = run vf mc verilog_file top_module true None w.
Proof.
  intros Hmode Hlower Harg Htop1 Htop2.
  pose proof (lower_debug_not_gate arg Hlower) as Hgate.
  split.
  - apply main_run with []; [| reflexivity | exact Hmode].
    unfold optional_top. rewrite bool_decide_eq_false_2; [reflexivity |].
    rewrite !not_elem_of_cons. auto using not_elem_of_nil.
  - apply main_run with [arg]; [| | exact Hmode].
    + unfold optional_top. rewrite bool_decide_eq_false_2; [reflexivity |].
      rewrite !not_elem_of_cons. auto using not_elem_of_nil.
    + simpl. now rewrite bool_decide_eq_true_2.
Qed.

Lemma first_argument_is_case_sensitive_witness :
  main example_library (example_machine 0)
    ["thesis.py"; "H"; "adder.v"; "Debug"] (start [])
  = run example_library (example_machine 0) "adder.v" "Debug" false None
      (start []) /\
  main example_library (example_machine 0)
    ["thesis.py"; "H"; "adder.v"; "top"; "Debug"] (start [])
  = run example_library (example_machine 0) "adder.v" "top" true None
      (start []).
Proof.
  apply first_argument_is_case_sensitive;
    [now left | reflexivity | discriminate | discriminate | discriminate].
Defined.

Lemma resolve_top_named vf modules top_module w :
  Py.truthy top_module = true ->
  resolve_top vf modules top_module w = (Ok top_module, w).
Proof. intros Htop. unfold resolve_top. now rewrite Htop. Qed.

(** X9. A top module named on the command line is not checked against the
    parsed file: when the file has no module of that name, the run ends
    with a [KeyError] right after parsing, whether a gate was selected or
    not, and the resolver of the library is not asked. *)
Theorem unknown_top_module_raises
    vf mc verilog_file top_module debug gate_instance modules w w1 :
  Py.truthy top_module = true ->
  call_out (CallParse verilog_file)
    (parse_hierarchical_verilog vf verilog_file) w = (Ok modules, w1) ->
  modules !! top_module = None ->
  run vf mc verilog_file top_module debug gate_instance w
  = (Raise (KeyError top_module), w1).
Proof.
  intros Htop Hparse Hnone. unfold run.
  rewrite (bind_ok _ _ _ _ _ Hparse).
  rewrite (bind_ok _ _ _ _ _ (resolve_top_named vf modules _ w1 Htop)).
  assert (Hgate : forall name,
            simulate_gate vf mc modules top_module debug name w1
            = (Raise (KeyError top_module), w1)).
  { intros name. unfold simulate_gate, select_gate.
    apply bind_raise, bind_raise. unfold lookup_module. now rewrite Hnone. }
  assert (Hdesign : simulate_design vf mc modules top_module debug w1
                    = (Raise (KeyError top_module), w1)).
  { unfold simulate_design. apply bind_raise.
    unfold lookup_module. now rewrite Hnone. }
  destruct gate_instance as [name |]; [destruct (Py.truthy name) |]; auto.
Qed.

Lemma unknown_top_module_raises_witness :
  run example_library (example_machine 0) "adder.v" "Debug" false
    (Some "g1") (start ["y"])
  = (Raise (KeyError "Debug"),
     {| stdin := ["y"]; log := [Called (CallParse "adder.v")] |}).
Proof.
  refine
    (unknown_top_module_raises example_library (example_machine 0) "adder.v"
       "Debug" false (Some "g1") design (start ["y"])
       {| stdin := ["y"]; log := [Called (CallParse "adder.v")] |}
       eq_refl eq_refl _).
  vm_compute. reflexivity.
Defined.

(** X10. The top module the run goes on with is never the empty name: a
    name given on the command line is used as it is without a call to the
    library, an auto-detected one is one the resolver returned, and when
    the resolver returns nothing or the empty name the run ends with exit
    status 1 after reporting that no top module was found. *)
Theorem resolved_top_is_named vf modules top_module w :
  (Py.truthy top_module = true ->
   resolve_top vf modules top_module w = (Ok top_module, w)) /\
  (forall top w',
     resolve_top vf modules top_module w = (Ok top, w') ->
     Py.truthy top = true /\
     (top = top_module \/
      exists rest printed,
        find_top_module vf modules (stdin w) = (Ok (Some top), rest, printed)))
  /\
  (forall found rest printed,
     Py.truthy top_module = false ->
     find_top_module vf modules (stdin w) = (Ok found, rest, printed) ->
     found = None \/ found = Some EmptyString ->
     resolve_top vf modules top_module w =
       (Exit 1,
        {| stdin := rest;
           log := (log w ++ Called (CallFindTop modules)
                              :: (LibraryOutput <$> printed))
                  ++ [Printed MsgTopNotFound] |})).
Proof.
  split; [apply resolve_top_named |]. split.
  - intros top w'. unfold resolve_top.
    destruct (Py.truthy top_module) eqn:Htop.
    + intros [= <- <-]. auto.
    + unfold bind, call_out.
      destruct (find_top_module vf modules (stdin w))
        as [[[[name |] | code | e] rest] printed]; try discriminate.
      destruct (Py.truthy name) eqn:Hname; [| discriminate].
      intros [= <- <-]. split; [exact Hname |]. right. eauto.
  - intros found rest printed Htop Hfound Hfalsy. unfold resolve_top.
    rewrite Htop. unfold bind, call_out. rewrite Hfound.
    destruct Hfalsy as [-> | ->]; reflexivity.
Qed.

Lemma resolved_top_is_named_witness :
  resolve_top example_library design EmptyString (start ["y"])
  = (Ok "top", {| stdin := ["y"]; log := [Called (CallFindTop design)] |}) /\
  Py.truthy "top" = true.
Proof.
  split; [vm_compute; reflexivity |].
  destruct (resolved_top_is_named example_library design EmptyString
              (start ["y"])) as (_ & Hnamed & _).
  apply (Hnamed "top"
           {| stdin := ["y"]; log := [Called (CallFindTop design)] |}).
  vm_compute. reflexivity.
Defined.

(** ** The selected instance *)

Lemma find_first_split (l : list Instance) gate_instance inst :
  List.find (fun i => bool_decide (instance_name i = gate_instance)) l
  = Some inst <->
  exists before after,
    l = before ++ inst :: after /\
    instance_name inst = gate_instance /\
    forall i, i ∈ before -> instance_name i <> gate_instance.
Proof.
  induction l as [| i l IH]; simpl.
  - split; [discriminate |].
    intros (before & after & Hsplit & _). now destruct before.
  - case_bool_decide as Hname.
    + split.
      * intros [= <-]. exists [], l. repeat split; [exact Hname |].
        intros j Hj. now apply elem_of_nil in Hj.
      * intros ([| j before] & after & Hsplit & Hinst & Hbefore).
        -- now injection Hsplit as ->.
        -- injection Hsplit as <- _.
           destruct (Hbefore i); [left | exact Hname].
    + rewrite IH. split.
      * intros (before & after & -> & Hinst & Hbefore).
        exists (i :: before), after. repeat split; [exact Hinst |].
        intros j [-> | Hj]%elem_of_cons; auto.
      * intros ([| j before] & after & Hsplit & Hinst & Hbefore).
        -- injection Hsplit as -> _. contradiction.
        -- injection Hsplit as _ ->. exists before, after.
           repeat split; [exact Hinst |].
           intros k Hk. apply Hbefore. now right.
Qed.

(** X11. The gate that is simulated is the first instance of the top
    module with the requested name: the lookup succeeds with an instance
    exactly when that instance has the name and no instance listed before
    it has. *)
Theorem selected_instance_is_first_match m gate_instance inst :
  find_instance m gate_instance = Some inst <->
  exists before after,
    instances m = before ++ inst :: after /\
    instance_name inst = gate_instance /\
    forall i, i ∈ before -> instance_name i <> gate_instance.
Proof. apply find_first_split. Qed.

Lemma selected_instance_is_first_match_witness :
  find_instance top_module_example "g1" = Some g1_instance.
Proof.
  apply selected_instance_is_first_match.
  exists [u1_instance], [u2_instance]. repeat split.
  intros i Hi. apply list_elem_of_In in Hi. simpl in Hi.
  intuition (subst; discriminate).
Defined.

(** ** Gate inputs from a file, once more *)

(** X12. Once the text of the bit file has been read, turning it into
    gate inputs has three outcomes only: the values, the bit-count
    mismatch, or the [ValueError] of [int]. It succeeds exactly when the
    stripped text has one decimal digit for each port; the index into the
    text is never out of range and the run is never exited there. *)
Theorem load_bits_outcomes ports content :
  ((exists in_vals, load_bits ports content = Ok in_vals) <->
   length (Py.strip_separators content) = length ports /\
   Forall is_digit (Py.strip_separators content)) /\
  ((exists in_vals, load_bits ports content = Ok in_vals) \/
   load_bits ports content =
     Raise (BitCountMismatch (length ports)
              (length (Py.strip_separators content))) \/
   exists c, load_bits ports content = Raise (InvalidLiteral c)).
Proof.
  destruct (decide (length (Py.strip_separators content) = length ports))
    as [Hlen | Hlen].
  - destruct (Forall_Exists_dec is_digit (fun c => ~ is_digit c)
                (fun c => match Py.digit_value c as o
                                return {is_Some o} + {~ is_Some o} with
                          | Some v => left (ex_intro _ v eq_refl)
                          | None => right (fun H => is_Some_None H)
                          end)
                (Py.strip_separators content)) as [Hdigits | Hbad].
    + destruct (load_bits_digits ports content Hlen Hdigits)
        as (in_vals & Hload & _).
      split; [| left; eauto]. split; eauto.
    + assert (Hnot : ~ Forall is_digit (Py.strip_separators content)).
      { intros Hall. apply Exists_exists in Hbad as (c & Hc & Hno).
        rewrite Forall_forall in Hall. auto. }
      destruct (load_bits_invalid ports content Hlen Hnot)
        as (c & _ & _ & Hload).
      split; [| right; right; eauto]. split.
      * intros [in_vals Hok]. congruence.
      * intros [_ Hall]. contradiction.
  - pose proof (load_bits_mismatch ports content Hlen) as Hload.
    split; [| right; left; exact Hload]. split.
    + intros [in_vals Hok]. congruence.
    + intros [Heq _]. contradiction.
Qed.

Lemma strip_separators_app a b :
  Py.strip_separators (a +:+ b)
  = Py.strip_separators a ++ Py.strip_separators b.
Proof.
  induction a as [| c a IH]; simpl; [reflexivity |].
  destruct (bool_decide (c = ","%char) || Py.isspace c); simpl;
    now rewrite IH.
Qed.

(** X13. Commas and white space are ignored wherever they stand in a bit
    file: inserting a run of them anywhere in the text changes nothing in
    what is loaded or in how loading fails. *)
Theorem separators_are_ignored_anywhere ports a sep b :
  Py.strip_separators sep = [] ->
  load_bits ports (a +:+ sep +:+ b) = load_bits ports (a +:+ b).
Proof.
  intros Hsep. unfold load_bits.
  now rewrite !strip_separators_app, Hsep.
Qed.

Lemma separators_are_ignored_anywhere_witness :
  load_bits ["A"; "B"] ("1" +:+ (String "010" " , ") +:+ "0")
  = Ok [(Some "A", 1); (Some "B", 0)].
Proof.
  rewrite (separators_are_ignored_anywhere ["A"; "B"] "1"
             (String "010" " , ") "0" eq_refl).
  reflexivity.
Defined.

(** ** Interactive entry, once more *)

Lemma ask_bit_skips p invalid :
  Forall (fun line => bit_answer line = None) invalid ->
  forall lines lg,
    ask_bit p (invalid ++ lines) lg
    = ask_bit p lines (lg ++ replicate (length invalid) (Prompted (AskBit p))).
Proof.
  induction invalid as [| line invalid IH]; intros Hinvalid lines lg.
  - simpl. now rewrite app_nil_r.
  - apply Forall_cons in Hinvalid as [Hline Hrest].
    unfold bit_answer in Hline. simpl.
    repeat case_bool_decide; try discriminate.
    rewrite (IH Hrest). now rewrite <- app_assoc.
Qed.

Lemma ask_bit_answer p line rest lg v :
  bit_answer line = Some v ->
  ask_bit p (line :: rest) lg
  = (Ok v, {| stdin := rest; log := lg ++ [Prompted (AskBit p)] |}).
Proof.
  unfold bit_answer. simpl.
  repeat case_bool_decide; intros [= <-]; reflexivity.
Qed.

(** X14. The prompt for one bit reads lines until one of them is 0 or 1
    once stripped: the lines before it are consumed and asked for again,
    one prompt for each line read; when no such line is left, all the
    input is consumed and the run ends with [EOFError] after one more
    prompt. *)
Theorem ask_bit_reads_until_valid p invalid lg :
  Forall (fun line => bit_answer line = None) invalid ->
  (forall line rest v,
     bit_answer line = Some v ->
     ask_bit p (invalid ++ line :: rest) lg
     = (Ok v,
        {| stdin := rest;
           log := lg ++ replicate (S (length invalid)) (Prompted (AskBit p))
        |})) /\
  ask_bit p invalid lg
  = (Raise EOFError,
     {| stdin := [];
        log := lg ++ replicate (S (length invalid)) (Prompted (AskBit p)) |}).
Proof.
  intros Hinvalid.
  assert (Hshift : forall n (e : event) l,
            (l ++ replicate n e) ++ [e] = l ++ replicate (S n) e).
  { intros n e l. rewrite <- app_assoc. f_equal.
    change [e] with (replicate 1 e). rewrite <- replicate_add.
    f_equal. lia. }
  split.
  - intros line rest v Hline.
    rewrite (ask_bit_skips p invalid Hinvalid),
      (ask_bit_answer _ _ _ _ _ Hline).
    now rewrite Hshift.
  - rewrite <- (app_nil_r invalid) at 1.
    rewrite (ask_bit_skips p invalid Hinvalid). simpl. now rewrite Hshift.
Qed.

Lemma ask_bit_reads_until_valid_witness :
  ask_bit "A" (["x"; "2"] ++ " 1" :: ["0"]) []
  = (Ok 1,
     {| stdin := ["0"];
        log := [Prompted (AskBit "A"); Prompted (AskBit "A");
                Prompted (AskBit "A")] |}) /\
  ask_bit "A" ["x"; "2"] []
  = (Raise EOFError,
     {| stdin := [];
        log := [Prompted (AskBit "A"); Prompted (AskBit "A");
                Prompted (AskBit "A")] |}).
Proof.
  destruct (ask_bit_reads_until_valid "A" ["x"; "2"] [])
    as [Hvalid Heof]; [repeat constructor |].
  split; [apply (Hvalid " 1" ["0"] 1); reflexivity | exact Heof].
Defined.

Lemma ask_inputs_answers ports :
  forall answers vals rest in_vals lg,
    length answers = length ports ->
    bit_answer <$> answers = Some <$> vals ->
    ask_inputs ports in_vals {| stdin := answers ++ rest; log := lg |}
    = (Ok (assign_all (fun pv => Some pv.1) (fun pv => pv.2)
             (zip ports vals) in_vals),
       {| stdin := rest;
          log := lg ++ ((fun p => Prompted (AskBit p)) <$> ports) |}).
Proof.
  induction ports as [| p ports IH];
    intros [| line answers] [| v vals] rest in_vals lg Hlen Hvals;
    try discriminate.
  - simpl. now rewrite app_nil_r.
  - injection Hlen as Hlen. injection Hvals as Hline Hvals.
    cbn [ask_inputs]. unfold bind. cbn [stdin log app].
    rewrite (ask_bit_answer _ _ _ _ _ Hline).
    rewrite (IH answers vals rest _ _ Hlen Hvals).
    cbn [fmap list_fmap]. now rewrite <- app_assoc.
Qed.

(** X15. When the pending input starts with one valid answer for each
    port, interactive entry reads exactly these lines, prompts once for
    each port in the order of the catalog, and assigns the answers to the
    ports in that order. *)
Theorem ask_inputs_reads_one_answer_per_port ports answers vals rest lg :
  length answers = length ports ->
  bit_answer <$> answers = Some <$> vals ->
  ask_inputs ports [] {| stdin := answers ++ rest; log := lg |}
  = (Ok (assign_all (fun pv => Some pv.1) (fun pv => pv.2)
           (zip ports vals) []),
     {| stdin := rest;
        log := lg ++ ((fun p => Prompted (AskBit p)) <$> ports) |}).
Proof. apply ask_inputs_answers. Qed.

Lemma ask_inputs_reads_one_answer_per_port_witness :
  ask_inputs ["A"; "B"] [] {| stdin := [" 1"; "0 "] ++ ["left"]; log := [] |}
  = (Ok [(Some "A", 1); (Some "B", 0)],
     {| stdin := ["left"];
        log := [Prompted (AskBit "A"); Prompted (AskBit "B")] |}).
Proof.
  exact (ask_inputs_reads_one_answer_per_port ["A"; "B"] [" 1"; "0 "]
           [1; 0] ["left"] [] eq_refl eq_refl).
Defined.

Lemma assign_all_fmap {K V X Y} `{EqDecision K}
    (f : Y -> K) (g : Y -> V) (h : X -> Y) l (d : dict K V) :
  assign_all f g (h <$> l) d = assign_all (f ∘ h) (g ∘ h) l d.
Proof.
  revert d. induction l as [| x l IH]; intros d; simpl; [reflexivity |].
  apply IH.
Qed.

Lemma zip_fmap_r {A B C} (k : B -> C) (l : list A) (l' : list B) :
  zip l (k <$> l') = prod_map id k <$> zip l l'.
Proof.
  revert l'. induction l as [| a l IH]; intros [| b l']; simpl;
    try reflexivity.
  now rewrite IH.
Qed.

(** X16. The two ways of entering the inputs of a gate agree on bits: a
    file whose stripped text is the digits of the values and a keyboard
    session with one valid answer for each port, giving the same values,
    yield the same input dictionary. *)
Theorem file_and_keyboard_agree ports content answers vals rest lg :
  length answers = length ports ->
  bit_answer <$> answers = Some <$> vals ->
  Py.digit_value <$> Py.strip_separators content = Some <$> vals ->
  load_bits ports content
  = (ask_inputs ports [] {| stdin := answers ++ rest; log := lg |}).1.
Proof.
  intros Hlen Hanswers Hdigits.
  assert (Hvals : length vals = length ports).
  { rewrite <- Hlen, <- (length_fmap Some vals), <- Hanswers.
    now rewrite length_fmap. }
  assert (Hbits : length (Py.strip_separators content) = length ports).
  { rewrite <- Hvals, <- (length_fmap Some vals), <- Hdigits.
    now rewrite length_fmap. }
  assert (Hdefault : (fun c => default 0 (Py.digit_value c))
                       <$> Py.strip_separators content = vals).
  { revert Hdigits. generalize (Py.strip_separators content). clear.
    intros bits. revert vals.
    induction bits as [| c bits IH]; intros [| v vals]; simpl;
      try discriminate; [reflexivity |].
    intros [= Hc Hrest]. rewrite Hc. simpl. f_equal. now apply IH. }
  assert (Hall : Forall is_digit (Py.strip_separators content)).
  { apply Forall_forall. intros c Hc.
    apply list_elem_of_lookup in Hc as [i Hi].
    assert (Hlook : (Py.digit_value <$> Py.strip_separators content) !! i
                    = Some (Py.digit_value c))
      by now rewrite list_lookup_fmap, Hi.
    rewrite Hdigits, list_lookup_fmap in Hlook.
    destruct (vals !! i) as [v |]; [| discriminate].
    injection Hlook as Hv. exists v. now symmetry. }
  rewrite (ask_inputs_answers ports answers vals rest [] lg Hlen Hanswers).
  unfold load_bits.
  rewrite bool_decide_eq_false_2 by (intros Hne; now apply Hne).
  rewrite bits_to_vals_digits by (rewrite ?drop_0; assumption).
  rewrite drop_0. cbn [fst]. f_equal.
  rewrite <- Hdefault, zip_fmap_r, assign_all_fmap. reflexivity.
Qed.

Lemma file_and_keyboard_agree_witness :
  load_bits ["A"; "B"; "CIN"] "1, 0, 1"
  = (ask_inputs ["A"; "B"; "CIN"] []
       {| stdin := ["1"; " 0"; "1 "] ++ []; log := [] |}).1.
Proof.
  exact (file_and_keyboard_agree ["A"; "B"; "CIN"] "1, 0, 1"
           ["1"; " 0"; "1 "] [1; 0; 1] [] [] eq_refl eq_refl eq_refl).
Defined.

(** ** Keys of the dictionaries *)

Section DictKeys.
Context {K V : Type} `{EqDecision K}.

Lemma keys_set (d : dict K V) k v k' :
  k' ∈ (Py.set d k v).*1 <-> k' = k \/ k' ∈ d.*1.
Proof.
  induction d as [| [k0 v0] d IH]; simpl.
  - rewrite elem_of_cons, elem_of_nil. tauto.
  - destruct (decide (k0 = k)) as [-> | Hne]; simpl.
    + rewrite !elem_of_cons. tauto.
    + rewrite !elem_of_cons, IH. tauto.
Qed.

Lemma keys_assign_all {X} (f : X -> K) (g : X -> V) l (d : dict K V) k :
  k ∈ (assign_all f g l d).*1 <-> (exists x, x ∈ l /\ f x = k) \/ k ∈ d.*1.
Proof.
  revert d. induction l as [| x l IH]; intros d; simpl.
  - split; [now right |]. intros [(x & Hx & _) | Hk]; [| exact Hk].
    now apply elem_of_nil in Hx.
  - rewrite IH, keys_set. split.
    + intros [(y & Hy & <-) | [-> | Hk]].
      * left. exists y. split; [now right | reflexivity].
      * left. exists x. split; [left | reflexivity].
      * now right.
    + intros [(y & [-> | Hy]%elem_of_cons & <-) | Hk].
      * right. now left.
      * left. eauto.
      * right. now right.
Qed.

Lemma get_is_Some (d : dict K V) k : is_Some (Py.get d k) <-> k ∈ d.*1.
Proof.
  induction d as [| [k0 v0] d IH]; simpl.
  - rewrite elem_of_nil. split; [intros [v Hv]; discriminate | tauto].
  - rewrite elem_of_cons. destruct (decide (k0 = k)) as [-> | Hne].
    + split; [now left | now eexists].
    + rewrite IH. split; [now right | intros [-> | Hk]; [congruence | exact Hk]].
Qed.

Lemma get_elem_of (d : dict K V) k v : Py.get d k = Some v -> (k, v) ∈ d.
Proof.
  induction d as [| [k0 v0] d IH]; simpl; [discriminate |].
  destruct (decide (k0 = k)) as [-> | Hne].
  - intros [= ->]. left.
  - intros Hget. right. now apply IH.
Qed.

Lemma get_assign_all_unique {X} (f : X -> K) (g : X -> V) l (d : dict K V) x :
  NoDup (f <$> l) -> x ∈ l ->
  Py.get (assign_all f g l d) (f x) = Some (g x).
Proof.
  intros Hnodup Hx.
  apply list_elem_of_split in Hx as (before & after & ->).
  apply get_assign_all_last. intros y Hy Heq.
  rewrite fmap_app, fmap_cons in Hnodup.
  apply NoDup_app in Hnodup as (_ & _ & Hafter).
  apply NoDup_cons in Hafter as [Hnotin _].
  apply Hnotin. rewrite <- Heq. now apply list_elem_of_fmap_2.
Qed.

End DictKeys.

(** ** The inputs gathered from the store *)

(** X17. The inputs gathered for the selected gate have one entry for each
    port role that a connection of the instance names, be it an input or
    an output of the gate, and no other; a role whose last connection
    leads to a signal with a value in the store has that value. *)
Theorem gathered_inputs_follow_connections
    top_module (signal_values : Store) conns :
  let in_vals := gather_in_vals top_module signal_values conns in
  (forall role,
     is_Some (Py.get in_vals role) <-> exists c, c ∈ conns /\ port c = role)
  /\
  (forall before c after v,
     conns = before ++ c :: after ->
     (forall c', c' ∈ after -> port c' <> port c) ->
     signal_values !! signal_key top_module (signal c) = Some v ->
     Py.get in_vals (port c) = Some v).
Proof.
  intros in_vals. subst in_vals. split.
  - intros role.
    rewrite get_is_Some, gather_in_vals_assign, keys_assign_all.
    simpl. rewrite elem_of_nil. tauto.
  - intros before c after v -> Hlast Hpresent.
    rewrite gather_in_vals_assign, get_assign_all_last by exact Hlast.
    unfold connection_value. now rewrite Hpresent.
Qed.

Lemma gathered_inputs_follow_connections_witness :
  Py.get (gather_in_vals "top" example_store (connections g1_instance))
    (Some "Y") = Some 0 /\
  Py.get (gather_in_vals "top" example_store (connections u1_instance))
    (Some "COUT") = Some 1.
Proof.
  destruct (gathered_inputs_follow_connections "top" example_store
              (connections g1_instance)) as [_ Hg1].
  destruct (gathered_inputs_follow_connections "top" example_store
              (connections u1_instance)) as [_ Hu1].
  split.
  - apply (Hg1 [conn "A" "s"; conn "B" "nc"] (conn "Y" "w") [] 0);
      [reflexivity | | vm_compute; reflexivity].
    intros c' Hc'. now apply elem_of_nil in Hc'.
  - apply (Hu1 [conn "A" "a"; conn "B" "b"; conn "CIN" "cin"; conn "SUM" "s"]
             (conn "COUT" "c") [] 1);
      [reflexivity | | vm_compute; reflexivity].
    intros c' Hc'. now apply elem_of_nil in Hc'.
Defined.

(** ** The port table for the drawing *)

Lemma port_info_inputs_unnamed in_vals :
  forall port_info,
    None ∈ in_vals.*1 ->
    port_info_inputs in_vals port_info = Raise AttributeError.
Proof.
  induction in_vals as [| [[role |] v] in_vals IH]; intros port_info; simpl.
  - intros Hin. now apply elem_of_nil in Hin.
  - intros [[=] | Hin]%elem_of_cons. now apply IH.
  - reflexivity.
Qed.

Lemma port_info_inputs_named in_vals :
  forall port_info,
    None ∉ in_vals.*1 ->
    port_info_inputs in_vals port_info =
      Ok (assign_all fst
            (fun rv => ("input_" +:+ Py.lower (default EmptyString rv.1), rv.2))
            in_vals port_info).
Proof.
  induction in_vals as [| [[role |] v] in_vals IH]; intros port_info; simpl.
  - reflexivity.
  - intros Hnone. apply IH. intros Hin. apply Hnone. now right.
  - intros Hnone. destruct Hnone. left.
Qed.

Lemma port_info_outputs_assign out_vals port_info :
  port_info_outputs out_vals port_info =
  assign_all (fun rv => Some rv.1)
    (fun rv => ("output_" +:+ Py.lower rv.1, rv.2)) out_vals port_info.
Proof.
  unfold port_info_outputs, assign_all. revert port_info.
  induction out_vals as [| [role v] out_vals IH]; intros port_info; simpl;
    [reflexivity | apply IH].
Qed.

(** X18. A connection without a port name makes the circuit branch fail
    late: the gathered inputs then have an entry without a role, the
    primitive is still called on them, and building the port table raises
    [AttributeError]; no value is printed, nothing is drawn and the
    renderer is not called. *)
Theorem unnamed_connection_fails_after_evaluation
    vf mc gate_instance gate_type top_module (signal_values : Store) conns c
    (simulate : InVals -> ext OutVals) w out_vals rest printed :
  c ∈ conns -> port c = None ->
  let in_vals := gather_in_vals top_module signal_values conns in
  primitive_simulators vf !! gate_type = Some simulate ->
  simulate in_vals (stdin w) = (Ok out_vals, rest, printed) ->
  report_gate vf mc gate_instance gate_type in_vals w =
    (Raise AttributeError,
     {| stdin := rest;
        log := log w ++ Called (CallPrimitive gate_type in_vals)
                        :: (LibraryOutput <$> printed) |}).
Proof.
  intros Hc Hport in_vals Hsimulate Hout.
  assert (Hnone : None ∈ in_vals.*1).
  { subst in_vals. rewrite gather_in_vals_assign, keys_assign_all.
    left. eauto. }
  assert (Hrun : run_primitive vf gate_type in_vals w =
            (Ok out_vals,
             {| stdin := rest;
                log := log w ++ Called (CallPrimitive gate_type in_vals)
                                :: (LibraryOutput <$> printed) |})).
  { unfold run_primitive. rewrite Hsimulate. unfold call_out.
    now rewrite Hout. }
  unfold report_gate. rewrite (bind_ok _ _ _ _ _ Hrun).
  apply bind_raise. unfold lift.
  now rewrite (port_info_inputs_unnamed _ _ Hnone).
Qed.

Lemma unnamed_connection_fails_after_evaluation_witness :
  let conns := [conn "A" "s"; {| port := None; signal := "w" |}] in
  let in_vals := [(Some "A", 0); (None, 0)] in
  report_gate example_library (example_machine 0) "g1" "NOT" in_vals
    (start [])
  = (Raise AttributeError,
     {| stdin := []; log := [Called (CallPrimitive "NOT" in_vals)] |}).
Proof.
  exact
    (unnamed_connection_fails_after_evaluation example_library
       (example_machine 0) "g1" "NOT" "top" example_store
       [conn "A" "s"; {| port := None; signal := "w" |}]
       {| port := None; signal := "w" |}
       (fun in_vals pending => (gate1 invert in_vals, pending, []))
       (start []) [("Y", 1)] [] []
       (list_elem_of_further _ _ _ (list_elem_of_here _ _))
       eq_refl eq_refl eq_refl).
Defined.

(** X19. In the port table handed to the drawing functions every role of
    the outputs is labelled [output_] and every other role of the inputs
    [input_], followed by the role in lower case, with its value: a role
    that is both an input and an output shows the output. *)
Theorem port_table_labels (in_vals : InVals) (out_vals : OutVals) :
  NoDup in_vals.*1 -> NoDup out_vals.*1 -> None ∉ in_vals.*1 ->
  exists port_info,
    port_info_inputs in_vals [] = Ok port_info /\
    forall role,
      Py.get (port_info_outputs out_vals port_info) (Some role) =
        match Py.get out_vals role with
        | Some v => Some ("output_" +:+ Py.lower role, v)
        | None =>
            (fun v => ("input_" +:+ Py.lower role, v))
              <$> Py.get in_vals (Some role)
        end.
Proof.
  intros Hin Hout Hnamed. eexists.
  split; [apply (port_info_inputs_named _ _ Hnamed) |].
  intros role. rewrite port_info_outputs_assign.
  destruct (Py.get out_vals role) as [v |] eqn:Hrole.
  - apply get_elem_of in Hrole.
    apply (get_assign_all_unique (fun rv : string * Z => Some rv.1)
             (fun rv => ("output_" +:+ Py.lower rv.1, rv.2))
             out_vals _ (role, v)); [| exact Hrole].
    replace ((fun rv : string * Z => Some rv.1) <$> out_vals)
      with (Some <$> out_vals.*1) by (now rewrite <- list_fmap_compose).
    apply NoDup_fmap_2; [apply _ | exact Hout].
  - rewrite get_assign_all_other.
    + destruct (Py.get in_vals (Some role)) as [v |] eqn:Hinput.
      * apply get_elem_of in Hinput.
        apply (get_assign_all_unique (fst : option string * Z -> option string)
                 (fun rv =>
                    ("input_" +:+ Py.lower (default EmptyString rv.1), rv.2))
                 in_vals _ (Some role, v)); assumption.
      * destruct (Py.get (assign_all _ _ in_vals []) (Some role))
          as [x |] eqn:Hget; [| reflexivity].
        assert (Hkey : Some role ∈ (assign_all fst
                  (fun rv : option string * Z =>
                     ("input_" +:+ Py.lower (default EmptyString rv.1), rv.2))
                  in_vals []).*1)
          by (apply get_is_Some; eauto).
        apply keys_assign_all in Hkey as [(y & Hy & Hfst) | Hkey].
        -- assert (Hsome : is_Some (Py.get in_vals (Some role))).
           { apply get_is_Some. rewrite <- Hfst.
             now apply list_elem_of_fmap_2. }
           rewrite Hinput in Hsome. now destruct Hsome.
        -- now apply elem_of_nil in Hkey.
    + intros [r v] Hrv [= ->].
      assert (Hsome : is_Some (Py.get out_vals role)).
      { apply get_is_Some.
        now apply (list_elem_of_fmap_2 fst) in Hrv. }
      rewrite Hrole in Hsome. now destruct Hsome.
Qed.

(** The gate [g1] seen from the circuit: its output [Y] is among the
    gathered entries and is shown as an output. *)
Lemma port_table_labels_witness :
  exists port_info,
    port_info_inputs [(Some "A", 0); (Some "B", 0); (Some "Y", 0)] []
    = Ok port_info /\
    Py.get (port_info_outputs [("Y", 1)] port_info) (Some "Y")
    = Some ("output_y", 1) /\
    Py.get (port_info_outputs [("Y", 1)] port_info) (Some "A")
    = Some ("input_a", 0).
Proof.
  destruct (port_table_labels [(Some "A", 0); (Some "B", 0); (Some "Y", 0)]
              [("Y", 1)]) as (port_info & Hok & Hget).
  - apply (bool_decide_unpack _). vm_compute. exact I.
  - apply (bool_decide_unpack _). vm_compute. exact I.
  - apply (bool_decide_unpack _). vm_compute. exact I.
  - exists port_info. split; [exact Hok |].
    split; [exact (Hget "Y") | exact (Hget "A")].
Defined.

(** ** The bit file that is not there *)

(** X20. The name typed for the bit file is stripped of surrounding white
    space before the file is opened; when there is no such file, the run
    ends with the error of [open], after the two questions and the
    attempt to open, and nothing is simulated. *)
Theorem missing_bit_file_raises
    vf mc gate_instance gate_type ports w answer name rest :
  primitive_ports vf !! gate_type = Some ports ->
  stdin w = answer :: name :: rest ->
  Py.startswith (Py.lower (Py.strip answer)) "y" = true ->
  file_contents mc (Py.strip name) = None ->
  local_inputs vf mc gate_instance gate_type w =
    (Raise (FileNotFound (Py.strip name)),
     {| stdin := rest;
        log := log w ++ [Prompted AskLoadFromFile; Prompted AskFileName;
                         Called (CallOpen (Py.strip name))] |}).
Proof.
  intros Hports Hin Hanswer Hfile.
  unfold local_inputs, catalog_inputs. rewrite Hports.
  unfold bind at 1. cbn [ret].
  unfold bind at 1. unfold input at 1. rewrite Hin. cbn [stdin log].
  rewrite Hanswer.
  unfold bind at 1. unfold input at 1. cbn [stdin log].
  apply bind_raise. unfold read_file, bind, emit. cbn [stdin log].
  rewrite Hfile. unfold raise. now rewrite <- !app_assoc.
Qed.

Lemma missing_bit_file_raises_witness :
  local_inputs example_library (example_machine 0) "g1" "AND"
    (start ["Yes"; " none.txt "; "1"])
  = (Raise (FileNotFound "none.txt"),
     {| stdin := ["1"];
        log := [Prompted AskLoadFromFile; Prompted AskFileName;
                Called (CallOpen "none.txt")] |}).
Proof.
  exact
    (missing_bit_file_raises example_library (example_machine 0) "g1" "AND"
       {| prim_inputs := ["A"; "B"]; prim_outputs := ["Y"] |}
       (start ["Yes"; " none.txt "; "1"]) "Yes" " none.txt " ["1"]
       eq_refl eq_refl eq_refl eq_refl).
Defined.

(** ** Answers to the yes-or-no questions *)

Lemma rstrip_empty s : Py.rstrip s = EmptyString -> Py.lstrip s = EmptyString.
Proof.
  induction s as [| c s IH]; simpl; [reflexivity |].
  destruct (Py.rstrip s); [| discriminate].
  destruct (Py.isspace c); [| discriminate].
  intros _. now apply IH.
Qed.

Lemma strip_first s :
  match Py.lstrip s with
  | EmptyString => Py.strip s = EmptyString
  | String c _ => exists t, Py.strip s = String c t
  end.
Proof.
  unfold Py.strip. induction s as [| c s IH]; simpl; [reflexivity |].
  destruct (Py.isspace c) eqn:Hspace.
  - destruct (Py.rstrip s) as [| c' r] eqn:Hr.
    + simpl. now rewrite (rstrip_empty s Hr).
    + simpl. rewrite Hspace. exact IH.
  - destruct (Py.rstrip s) as [| c' r]; simpl; rewrite Hspace; eauto.
Qed.

Lemma startswith_lower_strip s c :
  Py.startswith (Py.lower (Py.strip s)) c =
    match first_nonblank s with
    | Some c' => bool_decide (Py.lower_char c' = c)
    | None => false
    end.
Proof.
  unfold first_nonblank. pose proof (strip_first s) as Hfirst.
  destruct (Py.lstrip s) as [| c' t].
  - now rewrite Hfirst.
  - destruct Hfirst as [t' ->]. reflexivity.
Qed.

Lemma lower_char_n c :
  Py.lower_char c = "n"%char <-> c = "n"%char \/ c = "N"%char.
Proof.
  destruct c as [[] [] [] [] [] [] [] []]; vm_compute;
    split; intros H; try discriminate; try (destruct H; discriminate); auto.
Qed.

(** X21. The question whether to simulate the gate locally is decided by
    the first character of the answer that is not white space, in either
    letter case: an n or N there takes the inputs from a run of the whole
    circuit; every other answer, the empty one included, leads to local
    testing. *)
Theorem local_only_answer_first_letter
    vf mc modules top_module debug gate_instance inst gate_type w line rest :
  stdin w = line :: rest ->
  gate_inputs vf mc modules top_module debug gate_instance inst gate_type w =
    let w1 := {| stdin := rest; log := log w ++ [Prompted AskLocalOnly] |} in
    if bool_decide (first_nonblank line = Some "n"%char \/
                    first_nonblank line = Some "N"%char)
    then circuit_inputs vf modules top_module debug inst w1
    else local_inputs vf mc gate_instance gate_type w1.
Proof.
  intros Hin. unfold gate_inputs, bind, input. rewrite Hin.
  rewrite startswith_lower_strip. cbv zeta.
  destruct (first_nonblank line) as [c |].
  - destruct (decide (Py.lower_char c = "n"%char)) as [Hn | Hn].
    + rewrite bool_decide_eq_true_2 by exact Hn.
      rewrite bool_decide_eq_true_2; [reflexivity |].
      apply lower_char_n in Hn as [-> | ->]; auto.
    + rewrite bool_decide_eq_false_2 by exact Hn.
      rewrite bool_decide_eq_false_2; [reflexivity |].
      intros [[= ->] | [= ->]]; apply Hn; reflexivity.
  - rewrite bool_decide_eq_false_2; [reflexivity |].
    intros [[=] | [=]].
Qed.

Lemma local_only_answer_first_letter_witness :
  gate_inputs example_library (example_machine 0) design "top" false "g1"
    g1_instance "AND" (start ["  Nope"; "1"; "1"; "0"])
  = circuit_inputs example_library design "top" false g1_instance
      {| stdin := ["1"; "1"; "0"]; log := [Prompted AskLocalOnly] |} /\
  gate_inputs example_library (example_machine 0) design "top" false "g1"
    g1_instance "AND" (start [EmptyString; "n"; "1"; "1"])
  = local_inputs example_library (example_machine 0) "g1" "AND"
      {| stdin := ["n"; "1"; "1"]; log := [Prompted AskLocalOnly] |}.
Proof.
  split.
  - exact (local_only_answer_first_letter example_library (example_machine 0)
             design "top" false "g1" g1_instance "AND"
             (start ["  Nope"; "1"; "1"; "0"]) "  Nope" ["1"; "1"; "0"]
             eq_refl).
  - exact (local_only_answer_first_letter example_library (example_machine 0)
             design "top" false "g1" g1_instance "AND"
             (start [EmptyString; "n"; "1"; "1"]) EmptyString ["n"; "1"; "1"]
             eq_refl).
Defined.

(** ** The renderer, once more *)

Create HintDb rendering.

Lemma forallb_library_output printed :
  forallb (fun e => negb (is_system e)) (LibraryOutput <$> printed) = true.
Proof. induction printed as [| line printed IH]; [reflexivity | exact IH]. Qed.

Lemma forallb_printed msgs :
  forallb (fun e => negb (is_system e)) (Printed <$> msgs) = true.
Proof. induction msgs as [| m msgs IH]; [reflexivity | exact IH]. Qed.

Lemma no_rendering_ret {A} (a : A) : no_rendering (ret a).
Proof. intros w. exists []. simpl. now rewrite app_nil_r. Qed.

Lemma no_rendering_lift {A} (o : outcome A) : no_rendering (lift o).
Proof. intros w. exists []. simpl. now rewrite app_nil_r. Qed.

Lemma no_rendering_exit {A} code : no_rendering (@sys_exit A code).
Proof. intros w. exists []. simpl. now rewrite app_nil_r. Qed.

Lemma no_rendering_raise {A} e : no_rendering (@raise A e).
Proof. intros w. exists []. simpl. now rewrite app_nil_r. Qed.

Lemma no_rendering_print m : no_rendering (print m).
Proof. intros w. now exists [Printed m]. Qed.

Lemma no_rendering_emit e : is_system e = false -> no_rendering (emit e).
Proof.
  intros He w. exists [e]. split; [reflexivity |]. simpl. now rewrite He.
Qed.

Lemma no_rendering_input p : no_rendering (input p).
Proof.
  intros w. exists [Prompted p]. unfold input. now destruct (stdin w).
Qed.

Lemma no_rendering_call_out {A} c (f : ext A) :
  is_system (Called c) = false -> no_rendering (call_out c f).
Proof.
  intros Hc w. unfold call_out. destruct (f (stdin w)) as [[r rest] printed].
  eexists. split; [reflexivity |]. simpl in *.
  destruct c; try discriminate; apply forallb_library_output.
Qed.

Lemma no_rendering_bind {A B} (c : M A) (k : A -> M B) :
  no_rendering c -> (forall a, no_rendering (k a)) -> no_rendering (bind c k).
Proof.
  intros Hc Hk w. destruct (Hc w) as (l1 & Hl1 & Hno1). unfold bind.
  destruct (c w) as [[a | code | e] w1]; simpl in Hl1.
  - destruct (Hk a w1) as (l2 & Hl2 & Hno2). exists (l1 ++ l2).
    rewrite Hl2, Hl1, app_assoc. split; [reflexivity |].
    now rewrite forallb_app, Hno1, Hno2.
  - exists l1. now split.
  - exists l1. now split.
Qed.

#[export] Hint Resolve no_rendering_ret no_rendering_lift no_rendering_exit
  no_rendering_raise no_rendering_print no_rendering_input
  no_rendering_bind : rendering.

Ltac no_rendering :=
  repeat first
    [ progress (intros; auto with rendering)
    | apply no_rendering_bind
    | apply no_rendering_call_out; reflexivity
    | apply no_rendering_emit; reflexivity
    | match goal with
      | |- no_rendering (match ?x with _ => _ end) => destruct x
      | |- no_rendering (if ?x then _ else _) => destruct x
      end ].

Lemma no_rendering_process_flags args debug gate_instance :
  no_rendering (process_flags args debug gate_instance).
Proof.
  intros w.
  destruct (process_flags_effects args debug gate_instance w)
    as (msgs & _ & Hlog & _).
  exists (Printed <$> msgs). split; [exact Hlog | apply forallb_printed].
Qed.

Lemma no_rendering_ask_inputs ports in_vals :
  no_rendering (ask_inputs ports in_vals).
Proof.
  revert in_vals. induction ports as [| p ports IH]; intros in_vals; simpl.
  - apply no_rendering_ret.
  - apply no_rendering_bind; [| intros v; apply IH].
    intros [lines lg]. simpl. clear. revert lg.
    induction lines as [| line rest IHl]; intros lg; simpl.
    + now exists [Prompted (AskBit p)].
    + repeat case_bool_decide;
        try (exists [Prompted (AskBit p)]; now split).
      destruct (IHl (lg ++ [Prompted (AskBit p)])) as (events & -> & Hno).
      exists (Prompted (AskBit p) :: events).
      split; [now rewrite <- app_assoc | exact Hno].
Qed.

Lemma no_rendering_gate_inputs
    vf mc modules top_module debug gate_instance inst gate_type :
  no_rendering
    (gate_inputs vf mc modules top_module debug gate_instance inst gate_type).
Proof.
  pose proof no_rendering_ask_inputs.
  unfold gate_inputs, circuit_inputs, local_inputs, evaluate_design,
    catalog_inputs, lookup_module, read_file.
  no_rendering.
Qed.

Lemma rendered_last_quiet (c : M unit) : no_rendering c -> rendered_last c.
Proof.
  intros Hc w. destruct (Hc w) as (events & Hlog & Hno).
  exists events. split; [exact Hlog | now left].
Qed.

Lemma rendered_last_bind {A} (c : M A) (k : A -> M unit) :
  no_rendering c -> (forall a, rendered_last (k a)) ->
  rendered_last (bind c k).
Proof.
  intros Hc Hk w. destruct (Hc w) as (l1 & Hl1 & Hno1). unfold bind.
  destruct (c w) as [[a | code | e] w1]; simpl in Hl1.
  - destruct (Hk a w1) as (l2 & Hl2 & Hcases). exists (l1 ++ l2).
    rewrite Hl2, Hl1, app_assoc. split; [reflexivity |].
    destruct Hcases as [Hno2 | (before & cmd & m & -> & Hno2 & Hok & Hm)].
    + left. now rewrite forallb_app, Hno1, Hno2.
    + right. exists (l1 ++ before), cmd, m.
      rewrite app_assoc. split; [reflexivity |].
      split; [now rewrite forallb_app, Hno1, Hno2 | now split].
  - exists l1. split; [exact Hl1 | now left].
  - exists l1. split; [exact Hl1 | now left].
Qed.

Lemma rendered_last_convert mc dot pdf :
  rendered_last (convert_to_pdf mc dot pdf).
Proof.
  intros w. unfold convert_to_pdf, system, bind, print, emit, ret. simpl.
  set (cmd := "dot -Tpdf " +:+ dot +:+ " -o " +:+ pdf).
  case_bool_decide.
  - exists [Printed (MsgConverting dot); Called (CallSystem cmd);
            Printed (MsgGenerated pdf)].
    split; [simpl; now rewrite <- !app_assoc |].
    right. exists [Printed (MsgConverting dot)], cmd, (MsgGenerated pdf).
    repeat split; eauto.
  - exists [Printed (MsgConverting dot); Called (CallSystem cmd);
            Printed MsgDotFailed].
    split; [simpl; now rewrite <- !app_assoc |].
    right. exists [Printed (MsgConverting dot)], cmd, MsgDotFailed.
    repeat split; eauto.
Qed.

(** X22. In every run the renderer is called at most once, and when it is
    called this is the last call of the run: only the report of success
    or failure follows, and the run returns normally. In particular a run
    that exits with status 1 or raises has not called the renderer. *)
Theorem renderer_is_called_last vf mc argv : rendered_last (main vf mc argv).
Proof.
  unfold main.
  destruct argv as [| script [| mode [| verilog_file rest]]];
    [apply rendered_last_quiet; no_rendering .. |].
  destruct (optional_top rest) as [top_module flags].
  apply rendered_last_bind; [apply no_rendering_process_flags |].
  intros [debug gate_instance].
  case_bool_decide; [apply rendered_last_quiet; no_rendering |].
  assert (Hdesign : forall modules top,
            rendered_last (simulate_design vf mc modules top debug)).
  { intros modules top.
    unfold simulate_design, evaluate_design, lookup_module.
    do 5 (apply rendered_last_bind; [no_rendering | intros]).
    apply rendered_last_convert. }
  unfold run.
  apply rendered_last_bind; [no_rendering | intros modules].
  apply rendered_last_bind;
    [unfold resolve_top; no_rendering | intros top].
  destruct gate_instance as [name |]; [| apply Hdesign].
  destruct (Py.truthy name); [| apply Hdesign].
  unfold simulate_gate.
  apply rendered_last_bind;
    [unfold select_gate, lookup_module; no_rendering | intros [inst gate_type]].
  apply rendered_last_bind; [apply no_rendering_gate_inputs | intros in_vals].
  unfold report_gate, run_primitive.
  do 5 (apply rendered_last_bind; [no_rendering | intros]).
  apply rendered_last_convert.
Qed.

(** ** A failing renderer *)

Lemma report_differs_same lg (r : outcome unit * world) :
  r.1 <> Ok tt -> log r.2 = lg -> report_differs lg r r.
Proof.
  intros Hr Hlog. repeat split; try contradiction.
  exists []. now rewrite app_nil_r.
Qed.

Lemma report_differs_bind {A} (c : M A) (k k' : A -> M unit) w :
  no_rendering c ->
  (forall a w', report_differs (log w') (k a w') (k' a w')) ->
  report_differs (log w) (bind c k w) (bind c k' w).
Proof.
  intros Hc Hk. destruct (Hc w) as (l1 & Hl1 & Hno1). unfold bind.
  destruct (c w) as [[a | code | e] w1]; simpl in Hl1.
  - destruct (Hk a w1) as (Hsame & Hin & Hreturns & Hstops).
    split; [exact Hsame |]. split; [exact Hin |]. split.
    + intros Hok.
      destruct (Hreturns Hok) as (before & cmd & pdf & Hno & Hfailed & Hdone).
      exists (l1 ++ before), cmd, pdf.
      rewrite Hfailed, Hdone, Hl1, forallb_app, Hno1, Hno, <- !app_assoc.
      now repeat split.
    + intros Hnot. destruct (Hstops Hnot) as (Heq & events & Hlog & Hno).
      split; [exact Heq |]. exists (l1 ++ events).
      rewrite Hlog, Hl1, forallb_app, Hno1, Hno, <- app_assoc. now split.
  - repeat split; try discriminate. now exists l1.
  - repeat split; try discriminate. now exists l1.
Qed.

Lemma report_differs_convert mc dot pdf w :
  (forall cmd, os_system mc cmd <> 0) ->
  report_differs (log w) (convert_to_pdf mc dot pdf w)
    (convert_to_pdf (rendering mc) dot pdf w).
Proof.
  intros Hfail.
  unfold convert_to_pdf, system, bind, print, emit, ret. simpl.
  rewrite bool_decide_eq_false_2 by apply Hfail. simpl.
  repeat split; try contradiction.
  intros _.
  exists [Printed (MsgConverting dot)],
    ("dot -Tpdf " +:+ dot +:+ " -o " +:+ pdf), pdf.
  simpl. rewrite <- !app_assoc. now repeat split.
Qed.

Lemma report_differs_design vf mc modules top_module debug w :
  (forall cmd, os_system mc cmd <> 0) ->
  report_differs (log w)
    (simulate_design vf mc modules top_module debug w)
    (simulate_design vf (rendering mc) modules top_module debug w).
Proof.
  intros Hfail. unfold simulate_design, evaluate_design, lookup_module.
  do 5 (apply report_differs_bind; [no_rendering | intros]).
  now apply report_differs_convert.
Qed.

Lemma report_differs_gate vf mc modules top_module debug gate_instance w :
  (forall cmd, os_system mc cmd <> 0) ->
  report_differs (log w)
    (simulate_gate vf mc modules top_module debug gate_instance w)
    (simulate_gate vf (rendering mc) modules top_module debug gate_instance w).
Proof.
  intros Hfail. unfold simulate_gate.
  apply report_differs_bind;
    [unfold select_gate, lookup_module; no_rendering |].
  intros [inst gate_type] w1.
  change (gate_inputs vf (rendering mc)) with (gate_inputs vf mc).
  apply report_differs_bind; [apply no_rendering_gate_inputs |].
  intros in_vals w2. unfold report_gate, run_primitive.
  do 5 (apply report_differs_bind; [no_rendering | intros]).
  now apply report_differs_convert.
Qed.

(** C7. Take a machine whose renderer returns a nonzero status, and the
    same machine with a renderer that succeeds. A run on the first ends as
    the run on the second does and reads the same input. When it returns,
    the renderer was called, as the last call of the run, and the failure
    is what is printed after it, where the other run prints the success;
    all that happened before the call, with the simulation, the store
    handed to the drawing function and the printed input and output values,
    is the same in both runs. When it does not return, the renderer was not
    called and the two runs are the same. *)
Theorem renderer_failure_is_only_reported vf mc argv w :
  (forall cmd, os_system mc cmd <> 0) ->
  let failed := main vf mc argv w in
  let succeeded := main vf (rendering mc) argv w in
  failed.1 = succeeded.1 /\
  stdin failed.2 = stdin succeeded.2 /\
  (failed.1 = Ok tt ->
   exists before cmd pdf,
     forallb (fun e => negb (is_system e)) before = true /\
     log failed.2 =
       log w ++ before ++ [Called (CallSystem cmd); Printed MsgDotFailed] /\
     log succeeded.2 =
       log w ++ before ++
         [Called (CallSystem cmd); Printed (MsgGenerated pdf)]) /\
  (failed.1 <> Ok tt ->
   failed = succeeded /\
   exists events,
     log failed.2 = log w ++ events /\
     forallb (fun e => negb (is_system e)) events = true).
Proof.
  intros Hfail failed succeeded. subst failed succeeded.
  change (report_differs (log w) (main vf mc argv w)
            (main vf (rendering mc) argv w)).
  assert (Hstop : forall (m : message) w0,
            report_differs (log w0) ((print m ;;; sys_exit 1) w0)
              ((print m ;;; sys_exit 1) w0)).
  { intros m w0. apply report_differs_bind; [no_rendering |].
    intros _ w'. now apply report_differs_same. }
  unfold main.
  destruct argv as [| script [| mode [| verilog_file rest]]];
    try apply Hstop.
  destruct (optional_top rest) as [top_module flags].
  apply report_differs_bind; [apply no_rendering_process_flags |].
  intros [debug gate_instance] w1.
  destruct (bool_decide _); [apply Hstop |].
  unfold run.
  apply report_differs_bind; [no_rendering |]. intros modules w2.
  apply report_differs_bind; [unfold resolve_top; no_rendering |].
  intros top w3.
  destruct gate_instance as [name |].
  - destruct (Py.truthy name).
    + now apply report_differs_gate.
    + now apply report_differs_design.
  - now apply report_differs_design.
Qed.

(** The gate [g1] of the example, tested on its own with a renderer that
    fails. *)
Lemma renderer_failure_is_only_reported_witness :
  let argv := ["thesis.py"; "H"; "adder.v"; "--gate"; "g1"] in
  let w := start ["y"; "n"; "1"; "1"] in
  (main example_library (example_machine 1) argv w).1 = Ok tt /\
  exists before cmd pdf,
    forallb (fun e => negb (is_system e)) before = true /\
    log (main example_library (example_machine 1) argv w).2 =
      log w ++ before ++ [Called (CallSystem cmd); Printed MsgDotFailed] /\
    log (main example_library (rendering (example_machine 1)) argv w).2 =
      log w ++ before ++
        [Called (CallSystem cmd); Printed (MsgGenerated pdf)].
Proof.
  intros argv w.
  assert (Hok : (main example_library (example_machine 1) argv w).1 = Ok tt)
    by (vm_compute; reflexivity).
  split; [exact Hok |].
  destruct
    (renderer_failure_is_only_reported example_library (example_machine 1)
       argv w) as (_ & _ & Hreturns & _).
  - intros cmd. discriminate.
  - exact (Hreturns Hok).
Defined.

(** ** The exit status *)

Create HintDb exits.

Lemma exits_with_one_ret {A} (a : A) : exits_with_one (ret a).
Proof. intros w code. discriminate. Qed.

Lemma exits_with_one_raise {A} e : exits_with_one (@raise A e).
Proof. intros w code. discriminate. Qed.

Lemma exits_with_one_exit {A} : exits_with_one (@sys_exit A 1).
Proof. intros w code. now intros [= <-]. Qed.

Lemma exits_with_one_emit e : exits_with_one (emit e).
Proof. intros w code. discriminate. Qed.

Lemma exits_with_one_print m : exits_with_one (print m).
Proof. apply exits_with_one_emit. Qed.

Lemma exits_with_one_input p : exits_with_one (input p).
Proof. intros w code. unfold input. destruct (stdin w); discriminate. Qed.

Lemma exits_with_one_lift {A} (o : outcome A) :
  (forall code, o <> Exit code) -> exits_with_one (lift o).
Proof. intros Ho w code Hexit. now destruct (Ho code). Qed.

Lemma exits_with_one_call_out {A} c (f : ext A) :
  never_exits f -> exits_with_one (call_out c f).
Proof.
  intros Hf w code. unfold call_out.
  pose proof (Hf (stdin w) code) as Hne.
  destruct (f (stdin w)) as [[r rest] printed]. simpl in *. congruence.
Qed.

Lemma exits_with_one_bind {A B} (c : M A) (k : A -> M B) :
  exits_with_one c -> (forall a, exits_with_one (k a)) ->
  exits_with_one (bind c k).
Proof.
  intros Hc Hk w code. unfold bind. pose proof (Hc w) as Hcw.
  destruct (c w) as [[a | code' | e] w1]; simpl in *.
  - apply Hk.
  - intros [= <-]. now apply Hcw.
  - discriminate.
Qed.

#[export] Hint Resolve exits_with_one_ret exits_with_one_raise
  exits_with_one_exit exits_with_one_emit exits_with_one_print
  exits_with_one_input exits_with_one_bind : exits.

Ltac exits :=
  repeat first
    [ progress (intros; eauto with exits)
    | apply exits_with_one_bind
    | apply exits_with_one_call_out; eauto
    | match goal with
      | |- exits_with_one (match ?x with _ => _ end) => destruct x eqn:?
      | |- exits_with_one (if ?x then _ else _) => destruct x
      end ].

Lemma exits_with_one_process_flags args :
  forall debug gate_instance,
    exits_with_one (process_flags args debug gate_instance).
Proof.
  assert (Hlen : forall n args, (length args <= n)%nat ->
            forall debug gate_instance,
              exits_with_one (process_flags args debug gate_instance)).
  { induction n as [| n IH]; intros [| arg rest] Hn debug gate_instance;
      simpl in *; try apply exits_with_one_ret; try lia.
    repeat case_bool_decide.
    - apply IH. lia.
    - destruct rest as [| name rest']; [exits |]. apply IH. simpl in Hn. lia.
    - apply exits_with_one_bind; [exits |]. intros _. apply IH. lia. }
  intros debug gate_instance. now apply (Hlen (length args)).
Qed.

Lemma ask_bit_never_exits p lines :
  forall lg code, (ask_bit p lines lg).1 <> Exit code.
Proof.
  induction lines as [| line rest IH]; intros lg code; simpl.
  - discriminate.
  - repeat case_bool_decide; try discriminate. apply IH.
Qed.

Lemma exits_with_one_ask_inputs ports :
  forall in_vals, exits_with_one (ask_inputs ports in_vals).
Proof.
  induction ports as [| p ports IH]; intros in_vals; simpl; [exits |].
  apply exits_with_one_bind; [| intros v; apply IH].
  intros w code Hexit. now destruct (ask_bit_never_exits p _ _ _ Hexit).
Qed.

Lemma bits_to_vals_never_exits bits ports :
  forall i in_vals code, bits_to_vals bits i ports in_vals <> Exit code.
Proof.
  induction ports as [| p ports IH]; intros i in_vals code; simpl.
  - discriminate.
  - destruct (bits !! i) as [c |]; [| discriminate].
    unfold int_of_char. destruct (Py.digit_value c); [apply IH | discriminate].
Qed.

Lemma load_bits_never_exits ports content code :
  load_bits ports content <> Exit code.
Proof.
  unfold load_bits. case_bool_decide; [discriminate |].
  apply bits_to_vals_never_exits.
Qed.

Lemma port_info_inputs_never_exits in_vals :
  forall port_info code, port_info_inputs in_vals port_info <> Exit code.
Proof.
  induction in_vals as [| [[role |] v] in_vals IH]; intros port_info code;
    simpl; [discriminate | apply IH | discriminate].
Qed.

(** X23. The driver itself ends a run with exit status 1 only: as long as
    no function of the library ends the process, a run that exits does so
    with status 1, and every other run returns or raises. *)
Theorem driver_exits_with_status_one vf mc argv w code :
  library_never_exits vf ->
  (main vf mc argv w).1 = Exit code -> code = 1.
Proof.
  intros (Hparse & Hfind & Hprim & Hget & Hsim & Hfa & Hha & Hgen & Hlay).
  revert w code. change (exits_with_one (main vf mc argv)).
  pose proof exits_with_one_process_flags.
  pose proof exits_with_one_ask_inputs.
  assert (Hload : forall ports content,
            exits_with_one (lift (load_bits ports content)))
    by (intros; apply exits_with_one_lift, load_bits_never_exits).
  assert (Hinfo : forall in_vals,
            exits_with_one (lift (port_info_inputs in_vals [])))
    by (intros; apply exits_with_one_lift, port_info_inputs_never_exits).
  unfold main, run, resolve_top, simulate_gate, simulate_design, select_gate,
    gate_inputs, circuit_inputs, local_inputs, report_gate, run_primitive,
    convert_to_pdf, system, evaluate_design, catalog_inputs, lookup_module,
    read_file.
  exits.
Qed.

(** The library of the example ends no process. *)
Lemma bit_never_exits in_vals role code : bit in_vals role <> Exit code.
Proof. unfold bit. destruct (Py.get _ _); discriminate. Qed.

Lemma catalog_never_exits entry :
  entry ∈ catalog -> forall in_vals code, entry.2.2 in_vals <> Exit code.
Proof.
  intros Hin in_vals code. apply list_elem_of_In in Hin. simpl in Hin.
  repeat (destruct Hin as [<- | Hin]); try contradiction; simpl;
    unfold gate1, gate2, half_adder, full_adder, bit;
    repeat (destruct (Py.get _ _)); discriminate.
Qed.

Lemma catalog_lookup_elem gate_type entry :
  catalog_lookup gate_type = Some entry -> (gate_type, entry) ∈ catalog.
Proof.
  unfold catalog_lookup.
  destruct (List.find _ catalog) as [[tag e] |] eqn:Hfind; [| discriminate].
  intros [= <-]. apply List.find_some in Hfind as [Hin Htag].
  apply bool_decide_eq_true_1 in Htag. simpl in Htag. subst tag.
  now apply list_elem_of_In.
Qed.

Lemma fold_left_preserves {A B} (P : A -> Prop) (f : A -> B -> A) l :
  (forall a b, P a -> P (f a b)) -> forall a, P a -> P (fold_left f l a).
Proof.
  intros Hf. induction l as [| b l IH]; intros a Ha; simpl; auto.
Qed.

Lemma instance_step_never_exits key sub table path st inst :
  (forall name input_values store path' code,
     sub name input_values store path' <> Exit code) ->
  forall code, instance_step key sub table path st inst <> Exit code.
Proof.
  intros Hsub code. unfold instance_step.
  destruct (catalog_lookup (module inst)) as [[ports eval] |] eqn:Hlookup.
  - pose proof (catalog_never_exits _ (catalog_lookup_elem _ _ Hlookup))
      as Heval. simpl in Heval.
    match goal with
    | |- match eval ?iv with _ => _ end <> _ =>
        pose proof (Heval iv) as Hiv; destruct (eval iv) as [out | c | e]
    end; try discriminate. now destruct (Hiv c).
  - destruct (table !! module inst) as [m |]; [| discriminate].
    match goal with
    | |- match ?e with _ => _ end <> _ =>
        pose proof (Hsub (module inst) (gather key st path inst (inputs m))
                      st (path ++ [instance_name inst])) as Hcall;
        destruct e as [[st' out_vals] | c | e']
    end; try discriminate. now destruct (Hcall c).
Qed.

Lemma evaluate_never_exits key schedule depth :
  forall table name input_values store path code,
    evaluate key schedule depth table name input_values store path
    <> Exit code.
Proof.
  induction depth as [| depth IH]; intros table name input_values store path
    code; simpl; [discriminate |].
  destruct (table !! name) as [m |]; [| discriminate].
  destruct (schedule table m) as [order |]; [| discriminate].
  match goal with
  | |- match steps ?f order ?a with _ => _ end <> _ =>
      assert (Hfold : forall c : Z, steps f order a <> Exit c)
  end.
  { apply (fold_left_preserves (fun acc : outcome Store =>
                                  forall c : Z, acc <> Exit c));
      [| discriminate].
    intros [st | c' | e] inst Hacc c; try (exact (Hacc c) || discriminate).
    apply instance_step_never_exits. intros. apply IH. }
  destruct (steps _ order _) as [st | c' | e]; try discriminate.
  now destruct (Hfold c').
Qed.

Lemma read_values_never_exits ports :
  forall pending code, (read_values ports pending).1.1 <> Exit code.
Proof.
  induction ports as [| p ports IH]; intros [| line rest] code; simpl;
    try discriminate.
  pose proof (IH rest code) as Hrest.
  destruct (read_values ports rest) as [[[vals | c | e] rest'] printed];
    simpl in *; try discriminate. exact Hrest.
Qed.

Lemma library_ends_no_process key schedule parsed :
  library_never_exits (library key schedule parsed).
Proof.
  repeat split; try (intros; intros pending code; discriminate).
  - intros file pending code. simpl. destruct (parsed file); discriminate.
  - intros gate_type simulate in_vals Hlookup pending code.
    apply elem_of_list_to_map_2, list_elem_of_fmap in Hlookup
      as ([tag [ports eval]] & [= -> ->] & Hin).
    simpl. exact (catalog_never_exits _ Hin in_vals code).
  - intros ports pending code. apply read_values_never_exits.
  - intros modules top_module input_vals signal_values debug pending code.
    change ((engine key schedule modules top_module input_vals signal_values
               debug pending).1.1 <> Exit code).
    unfold engine. cbn [fst].
    pose proof (evaluate_never_exits key schedule (S (size modules)) modules
                  top_module input_vals signal_values [top_module]) as Heval.
    destruct (evaluate key schedule (S (size modules)) modules top_module
                input_vals signal_values [top_module]) as [[st outs] | c | e];
      try discriminate. now destruct (Heval c).
Qed.

Lemma driver_exits_with_status_one_witness :
  (main example_library (example_machine 0)
     ["thesis.py"; "H"; "adder.v"; "--gate"; "u2"] (start [])).1 = Exit 1.
Proof.
  assert (Hexit : exists code,
            (main example_library (example_machine 0)
               ["thesis.py"; "H"; "adder.v"; "--gate"; "u2"] (start [])).1
            = Exit code) by (exists 1; vm_compute; reflexivity).
  destruct Hexit as [code Hexit]. rewrite Hexit. f_equal.
  exact (driver_exits_with_status_one example_library (example_machine 0)
           _ _ code (library_ends_no_process _ _ _) Hexit).
Defined.

(** ** More on the answers, the flags and the files *)

Lemma lower_char_y c :
  Py.lower_char c = "y"%char <-> c = "y"%char \/ c = "Y"%char.
Proof.
  destruct c as [[] [] [] [] [] [] [] []]; vm_compute;
    split; intros H; try discriminate; try (destruct H; discriminate); auto.
Qed.

(** X24. In local testing the inputs are read from a file only when the
    first character of the answer that is not white space is a y or Y;
    every other answer, the empty one included, leads to the prompts for
    each input. *)
Theorem load_answer_first_letter
    vf mc gate_instance gate_type ports w line rest :
  primitive_ports vf !! gate_type = Some ports ->
  stdin w = line :: rest ->
  local_inputs vf mc gate_instance gate_type w =
    let w1 := {| stdin := rest; log := log w ++ [Prompted AskLoadFromFile] |} in
    if bool_decide (first_nonblank line = Some "y"%char \/
                    first_nonblank line = Some "Y"%char)
    then
      (answer <- input AskFileName ;;
       content <- read_file mc (Py.strip answer) ;;
       in_vals <- lift (load_bits (prim_inputs ports) content) ;;
       print MsgLoaded ;;; ret in_vals) w1
    else
      (print (MsgEnterEach gate_instance) ;;;
       ask_inputs (prim_inputs ports) []) w1.
Proof.
  intros Hports Hin. unfold local_inputs, catalog_inputs. rewrite Hports.
  unfold bind at 1. cbn [ret].
  unfold bind at 1. unfold input at 1. rewrite Hin.
  rewrite startswith_lower_strip. cbv zeta.
  destruct (first_nonblank line) as [c |].
  - destruct (decide (Py.lower_char c = "y"%char)) as [Hy | Hy].
    + rewrite bool_decide_eq_true_2 by exact Hy.
      rewrite bool_decide_eq_true_2; [reflexivity |].
      apply lower_char_y in Hy as [-> | ->]; auto.
    + rewrite bool_decide_eq_false_2 by exact Hy.
      rewrite bool_decide_eq_false_2; [reflexivity |].
      intros [[= ->] | [= ->]]; apply Hy; reflexivity.
  - rewrite bool_decide_eq_false_2; [reflexivity |].
    intros [[=] | [=]].
Qed.

Lemma load_answer_first_letter_witness :
  local_inputs example_library (example_machine 0) "g1" "AND"
    (start [" maybe"; "1"; "0"])
  = (Ok [(Some "A", 1); (Some "B", 0)],
     {| stdin := [];
        log := [Prompted AskLoadFromFile; Printed (MsgEnterEach "g1");
                Prompted (AskBit "A"); Prompted (AskBit "B")] |}).
Proof.
  rewrite (load_answer_first_letter example_library (example_machine 0)
             "g1" "AND" {| prim_inputs := ["A"; "B"]; prim_outputs := ["Y"] |}
             (start [" maybe"; "1"; "0"]) " maybe" ["1"; "0"]
             eq_refl eq_refl).
  reflexivity.
Defined.

(** The run with mode [X] of the example. *)
Lemma other_mode_exits_witness :
  main example_library (example_machine 0)
    ["thesis.py"; "X"; "adder.v"; "top"; "-v"] (start ["y"])
  = (Exit 1,
     {| stdin := ["y"];
        log := [Printed (MsgUnrecognized "-v"); Printed MsgBadMode] |}).
Proof.
  exact (other_mode_exits example_library (example_machine 0) "thesis.py"
           "X" "adder.v" ["top"; "-v"] "top" ["-v"] false None
           (start ["y"])
           {| stdin := ["y"]; log := [Printed (MsgUnrecognized "-v")] |}
           eq_refl eq_refl ltac:(discriminate) ltac:(discriminate)).
Defined.

Lemma process_flags_cons arg rest debug gate_instance :
  process_flags (arg :: rest) debug gate_instance =
    if bool_decide (Py.lower arg = "debug") then
      process_flags rest true gate_instance
    else if bool_decide (arg = "--gate") then
      match rest with
      | name :: rest' => process_flags rest' debug (Some name)
      | [] => print MsgGateNeedsName ;;; sys_exit 1
      end
    else
      print (MsgUnrecognized arg) ;;; process_flags rest debug gate_instance.
Proof. reflexivity. Qed.

Lemma process_flags_outcome args :
  forall debug gate_instance w,
    (exists result, (process_flags args debug gate_instance w).1 = Ok result)
    \/
    ((process_flags args debug gate_instance w).1 = Exit 1 /\
     last args = Some "--gate").
Proof.
  assert (Hlen : forall n args, (length args <= n)%nat ->
            forall debug gate_instance w,
              (exists result,
                 (process_flags args debug gate_instance w).1 = Ok result) \/
              ((process_flags args debug gate_instance w).1 = Exit 1 /\
               last args = Some "--gate")).
  { induction n as [| n IH]; intros [| arg rest] Hn d g w; simpl in Hn;
      try lia; try (left; now eexists).
    assert (Hlast : forall tail dg gg wg,
              (length tail <= n)%nat ->
              tail = [] \/ last tail = last (arg :: rest) ->
              (exists result, (process_flags tail dg gg wg).1 = Ok result) \/
              ((process_flags tail dg gg wg).1 = Exit 1 /\
               last (arg :: rest) = Some "--gate")).
    { intros tail dg gg wg Htail [-> | Heq]; [left; now eexists |].
      rewrite <- Heq. now apply IH. }
    rewrite process_flags_cons. repeat case_bool_decide.
    - apply Hlast; [lia |]. destruct rest; [now left | now right].
    - destruct rest as [| name rest'].
      + right. subst arg. now split.
      + apply Hlast; [simpl in Hn; lia |].
        destruct rest'; [now left | now right].
    - unfold bind, print, emit.
      apply Hlast; [lia |]. destruct rest; [now left | now right]. }
  intros debug gate_instance w. now apply (Hlen (length args)).
Qed.

(** X26. Reading the flags never raises: it either succeeds or ends the
    run with exit status 1, and the latter only when the command line ends
    with [--gate]. *)
Theorem flags_fail_only_on_trailing_gate args debug gate_instance w :
  (exists result, (process_flags args debug gate_instance w).1 = Ok result)
  \/
  ((process_flags args debug gate_instance w).1 = Exit 1 /\
   last args = Some "--gate").
Proof. apply process_flags_outcome. Qed.

Lemma string_length_append a b :
  String.length (a +:+ b) = (String.length a + String.length b)%nat.
Proof. induction a as [| c a IH]; simpl; [reflexivity | now rewrite IH]. Qed.

Lemma append_cancel_r a b s : a +:+ s = b +:+ s -> a = b.
Proof.
  revert b. induction a as [| c a IH]; intros [| c' b] Heq; simpl in *.
  - reflexivity.
  - apply (f_equal String.length) in Heq.
    cbn [String.length] in Heq.
    rewrite ?string_length_append in Heq. simpl in Heq. lia.
  - apply (f_equal String.length) in Heq.
    cbn [String.length] in Heq.
    rewrite ?string_length_append in Heq. simpl in Heq. lia.
  - injection Heq as -> Heq. f_equal. now apply IH.
Qed.

Lemma last_separator_cancel a b x y :
  plain x = true -> plain y = true ->
  a +:+ "_" +:+ x = b +:+ "_" +:+ y -> a = b /\ x = y.
Proof.
  intros Hx Hy. revert b.
  induction a as [| c a IH]; intros [| c' b]; simpl.
  - intros [= H]. auto.
  - intros [= <- Heq]. now destruct (plain_no_separator _ _ _ Hx Heq).
  - intros [= -> Heq].
    now destruct (plain_no_separator _ _ _ Hy (eq_sym Heq)).
  - intros [= <- Heq]. destruct (IH b Heq) as [-> ->]. auto.
Qed.

Lemma report_gate_names vf mc gate_instance gate_type in_vals :
  report_gate vf mc gate_instance gate_type in_vals =
    (out_vals <- run_primitive vf gate_type in_vals ;;
     port_info <- lift (port_info_inputs in_vals []) ;;
     let port_info := port_info_outputs out_vals port_info in
     print (MsgInputValues in_vals) ;;;
     print (MsgOutputValues out_vals) ;;;
     let dot := dot_name gate_instance gate_type in
     (if bool_decide (gate_type = "FA") then
        call_out (CallGenerateFA dot gate_instance port_info)
          (generate_FA_dot vf dot gate_instance port_info)
      else if bool_decide (gate_type = "HA") then
        call_out (CallGenerateHA dot gate_instance port_info)
          (generate_HA_dot vf dot gate_instance port_info)
      else
        call_out (CallGeneratePrimitive dot gate_type gate_instance port_info)
          (generate_primitive_dot vf dot gate_type gate_instance port_info)) ;;;
     convert_to_pdf mc dot (pdf_name gate_instance gate_type)).
Proof. reflexivity. Qed.

(** X27. The files written for a gate tell the gate apart: when the type
    tags contain no underscore, as those of the primitives do, two gates
    with the same graph file, or the same document file, have the same
    instance name and the same type tag, so that no gate overwrites the
    drawing of another. *)
Theorem gate_files_are_distinct g1 t1 g2 t2 :
  plain t1 = true -> plain t2 = true ->
  (dot_name g1 t1 = dot_name g2 t2 -> g1 = g2 /\ t1 = t2) /\
  (pdf_name g1 t1 = pdf_name g2 t2 -> g1 = g2 /\ t1 = t2).
Proof.
  intros H1 H2.
  assert (Hsuffix : forall t ext, plain t = true -> plain ext = true ->
            plain (t +:+ ext) = true)
    by (intros t ext Ht Hext; now rewrite plain_append, Ht, Hext).
  split; unfold dot_name, pdf_name; intros Heq;
    apply last_separator_cancel in Heq as [-> Heq];
    try (apply Hsuffix; [assumption | reflexivity]);
    apply append_cancel_r in Heq; auto.
Qed.

Lemma gate_files_are_distinct_witness :
  dot_name "u_1" "FA" = "u_1_FA.dot" /\
  (dot_name "u_1" "FA" = dot_name "u_1" "FA" -> "u_1" = "u_1" /\ "FA" = "FA").
Proof.
  split; [reflexivity |].
  exact (proj1 (gate_files_are_distinct "u_1" "FA" "u_1" "FA" eq_refl eq_refl)).
Defined.

(** * The engine of the specification *)

(** ** Operations on the store and their footprints *)

Lemma steps_cons f x l acc :
  steps f (x :: l) acc =
  steps f l (match acc with Ok st => f st x | _ => acc end).
Proof. reflexivity. Qed.

Lemma steps_app f l1 l2 acc :
  steps f (l1 ++ l2) acc = steps f l2 (steps f l1 acc).
Proof. unfold steps. apply fold_left_app. Qed.

Lemma steps_failed f l (acc : outcome Store) :
  ok acc = None -> ok (steps f l acc) = None.
Proof.
  revert acc. induction l as [| x l IH]; intros acc Hacc; [exact Hacc |].
  rewrite steps_cons. apply IH. now destruct acc.
Qed.

Lemma steps_ok_congruence f l (a b : outcome Store) :
  ok a = ok b -> ok (steps f l a) = ok (steps f l b).
Proof.
  intros Hab. destruct a as [x | |], b as [y | |]; simpl in Hab;
    try discriminate; try (injection Hab as ->; reflexivity);
    now rewrite !steps_failed.
Qed.

Lemma steps_ext f g l :
  (forall st x, x ∈ l -> ok (f st x) = ok (g st x)) ->
  forall a b, ok a = ok b -> ok (steps f l a) = ok (steps g l b).
Proof.
  induction l as [| x l IH]; intros Hfg a b Hab; [exact Hab |].
  rewrite !steps_cons. apply IH.
  - intros st y Hy. apply Hfg. now right.
  - destruct a as [s | |], b as [s' | |]; simpl in Hab; try discriminate;
      try reflexivity.
    injection Hab as ->. apply Hfg. now left.
Qed.

(** Reasoning by cases on a proposition is sound for a decidable goal. *)
Lemma lookup_by_cases (P : Prop) (a b : Store) k :
  (P -> a !! k = b !! k) -> (~ P -> a !! k = b !! k) -> a !! k = b !! k.
Proof.
  intros Hyes Hno. destruct (decide (a !! k = b !! k)) as [| Hne]; [done |].
  exfalso. assert (Hnn : ~ ~ (P \/ ~ P)) by tauto.
  apply Hnn. intros [HP | HP]; apply Hne; auto.
Qed.

Lemma acts_weaken (R W R' W' : string -> Prop) f :
  acts R W f ->
  (forall k, R k -> R' k) -> (forall k, W k -> W' k) ->
  (forall k, W' k -> R' k) ->
  acts R' W' f.
Proof.
  intros [Hframe Hread] HR HW HWR. split.
  - intros st st' Hf k Hk. apply (Hframe _ _ Hf). auto.
  - intros st1 st2 Hagree.
    assert (Hagree' : agree R st1 st2) by (intros k Hk; apply Hagree; auto).
    specialize (Hread _ _ Hagree').
    destruct (f st1) as [a | |] eqn:H1, (f st2) as [b | |] eqn:H2; auto.
    intros k Hk. apply (lookup_by_cases (W k)); [now apply Hread |].
    intros Hout.
    rewrite (Hframe _ _ H1 k Hout), (Hframe _ _ H2 k Hout). auto.
Qed.

Lemma acts_steps (U : string -> Prop) (f : Store -> Instance -> outcome Store) l :
  (forall x, x ∈ l -> acts U U (fun st => f st x)) ->
  acts U U (fun st => steps f l (Ok st)).
Proof.
  induction l as [| x l IH]; intros Hl.
  - split.
    + now intros st st' [= <-] k _.
    + intros st1 st2 Hagree. exact Hagree.
  - destruct (Hl x) as [Hframe Hread]; [now left |].
    destruct IH as [IHframe IHread]; [intros y Hy; apply Hl; now right |].
    split.
    + intros st st' Hsteps k Hk. rewrite steps_cons in Hsteps.
      destruct (f st x) as [s | |] eqn:Hx.
      * rewrite (IHframe _ _ Hsteps k Hk). now apply (Hframe _ _ Hx).
      * pose proof (steps_failed f l (Exit code) eq_refl) as Hnone.
        now rewrite Hsteps in Hnone.
      * pose proof (steps_failed f l (Raise e) eq_refl) as Hnone.
        now rewrite Hsteps in Hnone.
    + intros st1 st2 Hagree. rewrite !steps_cons.
      specialize (Hread _ _ Hagree).
      destruct (f st1 x) as [a | |] eqn:H1, (f st2 x) as [b | |] eqn:H2;
        try contradiction.
      * apply IHread. exact Hread.
      * pose proof (steps_failed f l (Exit code) eq_refl) as Hn1.
        pose proof (steps_failed f l (Exit code0) eq_refl) as Hn2.
        destruct (steps f l (Exit code)), (steps f l (Exit code0));
          simpl in *; congruence.
      * pose proof (steps_failed f l (Exit code) eq_refl) as Hn1.
        pose proof (steps_failed f l (Raise e) eq_refl) as Hn2.
        destruct (steps f l (Exit code)), (steps f l (Raise e));
          simpl in *; congruence.
      * pose proof (steps_failed f l (Raise e) eq_refl) as Hn1.
        pose proof (steps_failed f l (Exit code) eq_refl) as Hn2.
        destruct (steps f l (Raise e)), (steps f l (Exit code));
          simpl in *; congruence.
      * pose proof (steps_failed f l (Raise e) eq_refl) as Hn1.
        pose proof (steps_failed f l (Raise e0) eq_refl) as Hn2.
        destruct (steps f l (Raise e)), (steps f l (Raise e0));
          simpl in *; congruence.
Qed.

(** Two operations whose footprints do not meet can be swapped. *)
Lemma acts_commute (Rf Wf Rg Wg : string -> Prop) f g :
  acts Rf Wf f -> acts Rg Wg g ->
  (forall k, Wf k -> ~ Rg k) -> (forall k, Wg k -> ~ Rf k) ->
  (forall k, Wf k -> ~ Wg k) ->
  forall st,
    ok (match f st with Ok s => g s | other => other end) =
    ok (match g st with Ok s => f s | other => other end).
Proof.
  intros [Fframe Fread] [Gframe Gread] Hfg Hgf Hww st.
  destruct (f st) as [a | |] eqn:Hf, (g st) as [b | |] eqn:Hg;
    try reflexivity.
  - (* both succeed on [st] *)
    assert (Hga : agree Rg st a).
    { intros k Hk. symmetry. apply (Fframe _ _ Hf). intros Hw.
      exact (Hfg _ Hw Hk). }
    assert (Hfb : agree Rf st b).
    { intros k Hk. symmetry. apply (Gframe _ _ Hg). intros Hw.
      exact (Hgf _ Hw Hk). }
    specialize (Gread _ _ Hga). specialize (Fread _ _ Hfb).
    rewrite Hg in Gread. rewrite Hf in Fread.
    destruct (g a) as [b' | |] eqn:Hga', (f b) as [a' | |] eqn:Hfb';
      try contradiction.
    simpl. f_equal. apply map_eq. intros k.
    apply (lookup_by_cases (Wf k)); [| intros Hnf].
    + intros Hwf.
      rewrite (Gframe _ _ Hga' k (Hww _ Hwf)).
      now rewrite <- (Fread k Hwf).
    + rewrite (Fframe _ _ Hfb' k Hnf).
      apply (lookup_by_cases (Wg k)); [| intros Hng].
      * intros Hwg. now rewrite <- (Gread k Hwg).
      * rewrite (Gframe _ _ Hga' k Hng), (Gframe _ _ Hg k Hng).
        now apply (Fframe _ _ Hf).
  - assert (Hga : agree Rg st a).
    { intros k Hk. symmetry. apply (Fframe _ _ Hf). intros Hw.
      exact (Hfg _ Hw Hk). }
    specialize (Gread _ _ Hga). rewrite Hg in Gread.
    destruct (g a); [contradiction | reflexivity | reflexivity].
  - assert (Hga : agree Rg st a).
    { intros k Hk. symmetry. apply (Fframe _ _ Hf). intros Hw.
      exact (Hfg _ Hw Hk). }
    specialize (Gread _ _ Hga). rewrite Hg in Gread.
    destruct (g a); [contradiction | reflexivity | reflexivity].
  - assert (Hfb : agree Rf st b).
    { intros k Hk. symmetry. apply (Gframe _ _ Hg). intros Hw.
      exact (Hgf _ Hw Hk). }
    specialize (Fread _ _ Hfb). rewrite Hf in Fread.
    destruct (f b); [contradiction | reflexivity | reflexivity].
  - assert (Hfb : agree Rf st b).
    { intros k Hk. symmetry. apply (Gframe _ _ Hg). intros Hw.
      exact (Hgf _ Hw Hk). }
    specialize (Fread _ _ Hfb). rewrite Hf in Fread.
    destruct (f b); [contradiction | reflexivity | reflexivity].
Qed.

(** ** Orders *)

Lemma ordered_app_inv dep l1 x l2 :
  ordered dep (l1 ++ x :: l2) ->
  ordered dep (l1 ++ l2) /\ (forall y, y ∈ l1 -> dep y x = false).
Proof.
  induction l1 as [| z l1 IH]; simpl.
  - intros [_ Hl2]. split; [exact Hl2 |]. intros y Hy.
    now apply elem_of_nil in Hy.
  - intros [Hz Hrest]. destruct (IH Hrest) as [Hord Hbefore].
    split; [split; [| exact Hord] |].
    + intros y Hy. apply Hz.
      rewrite elem_of_cons, elem_of_app in Hy.
      rewrite elem_of_cons, elem_of_app, elem_of_cons. tauto.
    + intros y Hy. apply elem_of_cons in Hy as [-> | Hy]; [| auto].
      apply Hz. rewrite elem_of_cons, elem_of_app, elem_of_cons. tauto.
Qed.

Section Swap.
Variable f : Store -> Instance -> outcome Store.
Variable dep : Instance -> Instance -> bool.

Lemma steps_move_front x pre post :
  (forall y, y ∈ pre -> swappable f x y) ->
  forall st,
    ok (steps f (pre ++ x :: post) (Ok st)) =
    ok (steps f (x :: pre ++ post) (Ok st)).
Proof.
  induction pre as [| y pre IH]; intros Hswap st; [reflexivity |].
  assert (Hxy : swappable f x y) by (apply Hswap; now left).
  assert (Hpre : forall z, z ∈ pre -> swappable f x z)
    by (intros z Hz; apply Hswap; now right).
  change ((y :: pre) ++ x :: post) with (y :: (pre ++ x :: post)).
  change ((y :: pre) ++ post) with (y :: (pre ++ post)).
  rewrite (steps_cons f y), (steps_cons f x), (steps_cons f y).
  specialize (Hxy st).
  destruct (f st y) as [s | |] eqn:Hy.
  - rewrite (IH Hpre s), steps_cons.
    apply steps_ok_congruence. rewrite <- Hxy.
    now destruct (f st x).
  - rewrite steps_failed by reflexivity. symmetry.
    apply steps_failed. now destruct (f st x).
  - rewrite steps_failed by reflexivity. symmetry.
    apply steps_failed. now destruct (f st x).
Qed.

Lemma steps_permutation l1 :
  forall l2,
    NoDup l1 -> l1 ≡ₚ l2 -> ordered dep l1 -> ordered dep l2 ->
    (forall x y, x ∈ l1 -> y ∈ l1 -> x <> y ->
                 dep x y = false -> dep y x = false -> swappable f x y) ->
    forall st, ok (steps f l1 (Ok st)) = ok (steps f l2 (Ok st)).
Proof.
  induction l1 as [| x l1 IH]; intros l2 Hnodup Hperm Ho1 Ho2 Hswap st.
  - apply Permutation_nil_l in Hperm. now subst.
  - assert (Hin : x ∈ l2) by (rewrite <- Hperm; now left).
    apply list_elem_of_split in Hin as (pre & post & ->).
    apply Permutation_cons_app_inv in Hperm.
    apply NoDup_cons in Hnodup as [Hx Hnodup].
    destruct (ordered_app_inv _ _ _ _ Ho2) as [Ho2' Hbefore].
    destruct Ho1 as [Hfirst Ho1].
    rewrite steps_move_front.
    + rewrite !steps_cons.
      destruct (f st x) as [s | |] eqn:Hfx.
      * apply IH; auto.
        intros a b Ha Hb. apply Hswap; now right.
      * now rewrite !steps_failed.
      * now rewrite !steps_failed.
    + intros y Hy.
      assert (Hy1 : y ∈ l1).
      { rewrite Hperm, elem_of_app. now left. }
      apply Hswap; [now left | now right | | | now apply Hbefore].
      * intros <-. contradiction.
      * apply Hfirst. now right.
Qed.

End Swap.

(** ** The footprint of the engine *)

Section Footprints.

Variable key : list string -> string -> string.
Variable N : string -> Prop.
Variable table : ModuleTable.

Hypothesis table_named :
  forall name m, table !! name = Some m -> module_named N m.

Lemma gather_agree path x roles st1 st2 :
  agree (keys_of key path (omap (bound_signal x) roles)) st1 st2 ->
  gather key st1 path x roles = gather key st2 path x roles.
Proof.
  intros Hagree. unfold gather. apply list_fmap_ext. intros i role Hrole.
  f_equal. destruct (bound_signal x role) as [s |] eqn:Hs; [| reflexivity].
  simpl. rewrite (Hagree (key path s)); [reflexivity |].
  exists s. split; [| reflexivity].
  apply list_elem_of_omap. exists role. split; [| exact Hs].
  now apply list_elem_of_lookup_2 in Hrole.
Qed.

Lemma scatter_cons st path x role v out :
  scatter key st path x ((role, v) :: out) =
  scatter key
    (match bound_signal x role with
     | Some s => <[key path s := v]> st
     | None => st
     end) path x out.
Proof. reflexivity. Qed.

Lemma scatter_frame path x out :
  forall st k,
    ~ keys_of key path (omap (bound_signal x) out.*1) k ->
    scatter key st path x out !! k = st !! k.
Proof.
  induction out as [| [role v] out IH]; intros st k Hk; [reflexivity |].
  rewrite scatter_cons, IH.
  - destruct (bound_signal x role) as [s |] eqn:Hs; [| reflexivity].
    apply lookup_insert_ne. intros <-. apply Hk. exists s.
    split; [| reflexivity]. simpl. rewrite Hs. now left.
  - intros (s & Hin & ->). apply Hk. exists s. split; [| reflexivity].
    simpl. destruct (bound_signal x role); [now right | exact Hin].
Qed.

Lemma scatter_lookup path x out k :
  forall a b,
    a !! k = b !! k \/ keys_of key path (omap (bound_signal x) out.*1) k ->
    scatter key a path x out !! k = scatter key b path x out !! k.
Proof.
  induction out as [| [role v] out IH]; intros a b Hk.
  - destruct Hk as [Hk | (s & Hin & _)]; [exact Hk |].
    now apply elem_of_nil in Hin.
  - rewrite !scatter_cons. apply IH.
    destruct (bound_signal x role) as [s |] eqn:Hs.
    + destruct (decide (key path s = k)) as [<- | Hne].
      * left. now rewrite !lookup_insert_eq.
      * rewrite !lookup_insert_ne by exact Hne.
        destruct Hk as [Hk | (s' & Hin & ->)]; [now left |].
        simpl in Hin. rewrite Hs in Hin.
        apply elem_of_cons in Hin as [-> | Hin]; [contradiction |].
        right. now exists s'.
    + destruct Hk as [Hk | (s' & Hin & ->)]; [now left |].
      simpl in Hin. rewrite Hs in Hin. right. now exists s'.
Qed.

Lemma bind_inputs_frame input_values path ports :
  forall st k,
    ~ keys_of key path ports k ->
    bind_inputs key input_values path ports st !! k = st !! k.
Proof.
  induction ports as [| p ports IH]; intros st k Hk; [reflexivity |].
  unfold bind_inputs. simpl.
  change (bind_inputs key input_values path ports
            (match Py.get input_values p with
             | Some v => <[key path p := v]> st
             | None => st
             end) !! k = st !! k).
  rewrite IH.
  - destruct (Py.get input_values p); [| reflexivity].
    apply lookup_insert_ne. intros <-. apply Hk. exists p.
    split; [now left | reflexivity].
  - intros (s & Hin & ->). apply Hk. exists s. split; [now right | reflexivity].
Qed.

Lemma bind_inputs_lookup input_values path ports k :
  forall a b,
    a !! k = b !! k ->
    bind_inputs key input_values path ports a !! k =
    bind_inputs key input_values path ports b !! k.
Proof.
  induction ports as [| p ports IH]; intros a b Hk; [exact Hk |].
  unfold bind_inputs. simpl.
  change (bind_inputs key input_values path ports
            (match Py.get input_values p with
             | Some v => <[key path p := v]> a
             | None => a
             end) !! k =
          bind_inputs key input_values path ports
            (match Py.get input_values p with
             | Some v => <[key path p := v]> b
             | None => b
             end) !! k).
  apply IH. destruct (Py.get input_values p); [| exact Hk].
  destruct (decide (key path p = k)) as [<- | Hne].
  - now rewrite !lookup_insert_eq.
  - now rewrite !lookup_insert_ne.
Qed.

Lemma read_outputs_agree path ports st1 st2 :
  agree (keys_of key path ports) st1 st2 ->
  read_outputs key st1 path ports = read_outputs key st2 path ports.
Proof.
  intros Hagree. unfold read_outputs. apply list_fmap_ext. intros i o Ho.
  f_equal. rewrite (Hagree (key path o)); [reflexivity |].
  exists o. split; [| reflexivity]. now apply list_elem_of_lookup_2 in Ho.
Qed.

(** The evaluation functions of the catalog return a value for each of
    their output ports. *)
Lemma catalog_outputs tag ports eval in_vals out_vals :
  catalog_lookup tag = Some (ports, eval) ->
  eval in_vals = Ok out_vals ->
  out_vals.*1 = prim_outputs ports.
Proof.
  intros Hlookup. apply catalog_lookup_elem, list_elem_of_In in Hlookup.
  simpl in Hlookup.
  repeat (destruct Hlookup as [[= <- <- <-] | Hlookup]);
    try contradiction;
    unfold gate1, gate2, half_adder, full_adder, bit;
    repeat (destruct (Py.get _ _)); intros [= <-]; reflexivity.
Qed.

Lemma signals_of_primitive x ports eval :
  catalog_lookup (module x) = Some (ports, eval) ->
  input_signals table x = omap (bound_signal x) (prim_inputs ports) /\
  output_signals table x = omap (bound_signal x) (prim_outputs ports).
Proof.
  intros Hlookup. unfold input_signals, output_signals, type_ports.
  now rewrite Hlookup.
Qed.

Lemma signals_of_module x m :
  catalog_lookup (module x) = None ->
  table !! module x = Some m ->
  input_signals table x = omap (bound_signal x) (inputs m) /\
  output_signals table x = omap (bound_signal x) (outputs m).
Proof.
  intros Hlookup Hm. unfold input_signals, output_signals, type_ports.
  now rewrite Hlookup, Hm.
Qed.

Lemma instance_step_acts sub path x :
  local_evaluation key N table sub ->
  acts (reads key N table path x) (writes key N table path x)
    (fun st => instance_step key sub table path st x).
Proof.
  intros [Hframe Hread]. unfold instance_step.
  destruct (catalog_lookup (module x)) as [[ports eval] |] eqn:Hlookup.
  - destruct (signals_of_primitive _ _ _ Hlookup) as [Hins Houts]. split.
    + intros st st' Hstep k Hk.
      destruct (eval _) as [out | |] eqn:Heval; try discriminate.
      injection Hstep as <-. apply scatter_frame.
      rewrite (catalog_outputs _ _ _ _ _ Hlookup Heval), <- Houts.
      intros Hkeys. apply Hk. now left.
    + intros st1 st2 Hagree.
      rewrite (gather_agree path x (prim_inputs ports) st1 st2).
      2: { rewrite <- Hins. intros k Hk. apply Hagree. now left. }
      destruct (eval _) as [out | |] eqn:Heval; try exact I.
      intros k [Hk | Hk].
      * apply scatter_lookup. right.
        now rewrite (catalog_outputs _ _ _ _ _ Hlookup Heval), <- Houts.
      * apply scatter_lookup. left. apply Hagree. now right.
  - destruct (table !! module x) as [m |] eqn:Hm; [| now split].
    destruct (signals_of_module _ _ Hlookup Hm) as [Hins Houts]. split.
    + intros st st' Hstep k Hk.
      destruct (sub _ _ _ _) as [[st1 out] | |] eqn:Hsub; try discriminate.
      injection Hstep as <-.
      destruct (Hframe _ _ _ _ _ _ Hsub) as [Hsame Hroles].
      rewrite scatter_frame.
      * apply Hsame. intros Hunder. apply Hk. now right.
      * rewrite (Hroles _ Hm), <- Houts. intros Hkeys. apply Hk. now left.
    + intros st1 st2 Hagree.
      rewrite (gather_agree path x (inputs m) st1 st2).
      2: { rewrite <- Hins. intros k Hk. apply Hagree. now left. }
      assert (Hunder : agree (under key N (path ++ [instance_name x])) st1 st2)
        by (intros k Hk; apply Hagree; now right).
      specialize (Hread (module x) (gather key st2 path x (inputs m))
                    (path ++ [instance_name x]) st1 st2 Hunder).
      destruct (sub _ _ st1 _) as [[a o1] | |] eqn:H1,
               (sub _ _ st2 _) as [[b o2] | |] eqn:H2;
        try contradiction; try exact I.
      destruct Hread as [<- Hab].
      destruct (Hframe _ _ _ _ _ _ H1) as [_ Hroles].
      intros k [Hk | Hk].
      * apply scatter_lookup. right. now rewrite (Hroles _ Hm), <- Houts.
      * apply scatter_lookup. left. now apply Hab.
Qed.

Lemma reads_under path m x :
  module_named N m -> x ∈ instances m ->
  forall k, reads key N table path x k -> under key N path k.
Proof.
  intros (_ & _ & Hinsts) Hx k.
  rewrite Forall_forall in Hinsts. destruct (Hinsts _ Hx) as [Hname Hconns].
  rewrite Forall_forall in Hconns.
  intros [(s & Hs & ->) | (q & s & Hq & Hs & ->)].
  - exists [], s. rewrite app_nil_r. repeat split; [constructor |].
    unfold input_signals in Hs.
    destruct (type_ports table (module x)) as [[ins outs] |];
      [| now apply elem_of_nil in Hs].
    apply list_elem_of_omap in Hs as (role & _ & Hbound).
    unfold bound_signal in Hbound.
    destruct (List.find _ _) as [c |] eqn:Hfind; [| discriminate].
    injection Hbound as <-. apply Hconns.
    apply List.find_some in Hfind as [Hin _]. now apply list_elem_of_In.
  - exists (instance_name x :: q), s. rewrite <- app_assoc.
    repeat split; auto.
Qed.

Lemma writes_under path m x :
  module_named N m -> x ∈ instances m ->
  forall k, writes key N table path x k -> under key N path k.
Proof.
  intros (_ & _ & Hinsts) Hx k.
  rewrite Forall_forall in Hinsts. destruct (Hinsts _ Hx) as [Hname Hconns].
  rewrite Forall_forall in Hconns.
  intros [(s & Hs & ->) | (q & s & Hq & Hs & ->)].
  - exists [], s. rewrite app_nil_r. repeat split; [constructor |].
    unfold output_signals in Hs.
    destruct (type_ports table (module x)) as [[ins outs] |];
      [| now apply elem_of_nil in Hs].
    apply list_elem_of_omap in Hs as (role & _ & Hbound).
    unfold bound_signal in Hbound.
    destruct (List.find _ _) as [c |] eqn:Hfind; [| discriminate].
    injection Hbound as <-. apply Hconns.
    apply List.find_some in Hfind as [Hin _]. now apply list_elem_of_In.
  - exists (instance_name x :: q), s. rewrite <- app_assoc.
    repeat split; auto.
Qed.

Lemma ports_under path ports :
  Forall N ports -> forall k, keys_of key path ports k -> under key N path k.
Proof.
  intros Hports k (s & Hs & ->). rewrite Forall_forall in Hports.
  exists [], s. rewrite app_nil_r. repeat split; [constructor | auto].
Qed.

Variable schedule : ModuleTable -> Module -> option (list Instance).
Hypothesis schedule_valid : valid_schedule table schedule.

Lemma scheduled_instance m order x :
  schedule table m = Some order -> x ∈ order -> x ∈ instances m.
Proof.
  intros Horder Hx. pose proof (schedule_valid m) as Hvalid.
  rewrite Horder in Hvalid. destruct Hvalid as [Hperm _].
  now rewrite <- Hperm.
Qed.

Lemma evaluate_local depth :
  local_evaluation key N table (evaluate key schedule depth table).
Proof.
  induction depth as [| depth IH]; [split; [discriminate | now intros] |].
  split.
  - intros name iv st path st' outs. cbn [evaluate].
    destruct (table !! name) as [m |] eqn:Hm; [| discriminate].
    destruct (schedule table m) as [order |] eqn:Horder; [| discriminate].
    destruct (steps _ order _) as [s | |] eqn:Hsteps; try discriminate.
    intros [= <- <-]. split.
    + intros k Hk.
      pose proof (table_named _ _ Hm) as Hnamed.
      assert (Hacts : acts (under key N path) (under key N path)
                        (fun st0 =>
                           steps (instance_step key
                                    (evaluate key schedule depth table)
                                    table path) order (Ok st0))).
      { apply acts_steps. intros x Hx.
        apply (scheduled_instance _ _ _ Horder) in Hx.
        eapply acts_weaken; [apply instance_step_acts, IH | ..]; auto.
        - now apply reads_under with m.
        - now apply writes_under with m. }
      destruct Hacts as [Hframe _].
      rewrite (Hframe _ _ Hsteps k Hk).
      apply bind_inputs_frame. intros Hkeys. apply Hk.
      destruct Hnamed as (Hins & _). now apply ports_under with (inputs m).
    + intros m' Hm'. assert (m' = m) as -> by congruence.
      unfold read_outputs. rewrite <- list_fmap_compose.
      now rewrite list_fmap_id.
  - intros name iv path st1 st2 Hagree. cbn [evaluate].
    destruct (table !! name) as [m |] eqn:Hm; [| exact I].
    destruct (schedule table m) as [order |] eqn:Horder; [| exact I].
    pose proof (table_named _ _ Hm) as Hnamed.
    assert (Hacts : acts (under key N path) (under key N path)
                      (fun st0 =>
                         steps (instance_step key
                                  (evaluate key schedule depth table)
                                  table path) order (Ok st0))).
    { apply acts_steps. intros x Hx.
      apply (scheduled_instance _ _ _ Horder) in Hx.
      eapply acts_weaken; [apply instance_step_acts, IH | ..]; auto.
      - now apply reads_under with m.
      - now apply writes_under with m. }
    destruct Hacts as [_ Hread].
    specialize (Hread (bind_inputs key iv path (inputs m) st1)
                  (bind_inputs key iv path (inputs m) st2)).
    cbv beta in Hread.
    destruct (steps _ order (Ok (bind_inputs key iv path (inputs m) st1)))
      as [a | |] eqn:H1,
      (steps _ order (Ok (bind_inputs key iv path (inputs m) st2)))
      as [b | |] eqn:H2;
      try (apply Hread; intros k Hk; apply bind_inputs_lookup;
           now apply Hagree);
      try exact I.
    assert (Hab : agree (under key N path) a b).
    { apply Hread. intros k Hk. apply bind_inputs_lookup. now apply Hagree. }
    split; [| exact Hab].
    apply read_outputs_agree. intros k Hk. apply Hab.
    destruct Hnamed as (_ & Houts & _). now apply ports_under with (outputs m).
Qed.

End Footprints.

(** ** The model's schedules *)

Lemma topological_order_ordered table fuel :
  forall pending order,
    topological_order table fuel pending = Some order ->
    order ≡ₚ pending /\ ordered (depends_on table) order.
Proof.
  induction fuel as [| fuel IH]; intros [| i pending] order;
    cbn [topological_order]; try discriminate.
  - intros [= <-]. now split.
  - intros [= <-]. now split.
  - destruct (List.find _ (i :: pending)) as [x |] eqn:Hfind; [| intros [=]].
    destruct (topological_order table fuel _) as [rest |] eqn:Hrest;
      cbn [fmap option_fmap option_map]; [| intros [=]].
    intros [= <-].
    apply List.find_some in Hfind as [Hin Hready].
    apply list_elem_of_In in Hin.
    destruct (IH _ _ Hrest) as [Hperm Hsorted].
    assert (Hall : x :: rest ≡ₚ i :: pending).
    { rewrite Hperm. symmetry. now apply remove_first_permutation. }
    split; [exact Hall |]. split; [| exact Hsorted].
    intros y Hy. rewrite Hall in Hy.
    unfold ready in Hready. rewrite forallb_forall in Hready.
    apply list_elem_of_In, Hready in Hy. now apply negb_true_iff in Hy.
Qed.

Lemma remove_first_length x pending :
  x ∈ pending -> S (length (remove_first x pending)) = length pending.
Proof.
  intros Hx. apply remove_first_permutation in Hx.
  now rewrite Hx at 2.
Qed.

Lemma topological_order_complete table fuel :
  forall pending order,
    (length pending <= fuel)%nat ->
    order ≡ₚ pending -> ordered (depends_on table) order ->
    is_Some (topological_order table fuel pending).
Proof.
  induction fuel as [| fuel IH]; intros [| i pending] order Hlen Hperm Hord;
    cbn [topological_order]; try (simpl in Hlen; lia); try (now eexists).
  destruct order as [| x0 order'];
    [now apply Permutation_nil_l in Hperm |].
  destruct (List.find _ (i :: pending)) as [x |] eqn:Hfind.
  - apply List.find_some in Hfind as [Hin _].
    apply list_elem_of_In in Hin.
    assert (Hx : x ∈ x0 :: order') by now rewrite Hperm.
    apply list_elem_of_split in Hx as (pre & post & Hsplit).
    rewrite Hsplit in Hperm, Hord.
    destruct (ordered_app_inv _ _ _ _ Hord) as [Hord' _].
    destruct (IH (remove_first x (i :: pending)) (pre ++ post))
      as [rest Hrest]; [| | exact Hord' |].
    + pose proof (remove_first_length _ _ Hin) as Hl. simpl in *. lia.
    + apply (Permutation_cons_inv (a := x)).
      rewrite <- (remove_first_permutation _ _ Hin), <- Hperm.
      apply Permutation_middle.
    + rewrite Hrest. now eexists.
  - exfalso. destruct Hord as [Hfirst _].
    assert (Hin : x0 ∈ i :: pending) by (rewrite <- Hperm; now left).
    apply list_elem_of_In in Hin.
    pose proof (List.find_none _ _ Hfind x0 Hin) as Hnot.
    apply not_true_iff_false in Hnot. apply Hnot.
    unfold ready. apply forallb_forall. intros y Hy.
    apply negb_true_iff, Hfirst. rewrite Hperm.
    now apply list_elem_of_In.
Qed.

Lemma first_ready_valid table : valid_schedule table first_ready.
Proof.
  intros m. unfold first_ready.
  destruct (topological_order _ _ _) as [order |] eqn:Horder.
  - now apply topological_order_ordered in Horder.
  - intros order [Hperm Hord].
    destruct (topological_order_complete table (length (instances m))
                (instances m) order) as [o Ho]; auto.
    congruence.
Qed.

Lemma last_listed_valid table : valid_schedule table last_listed.
Proof.
  intros m. unfold last_listed.
  destruct (topological_order _ _ _) as [order |] eqn:Horder.
  - apply topological_order_ordered in Horder as [Hperm Hord].
    split; [| exact Hord]. rewrite Hperm. symmetry. apply Permutation_rev.
  - intros order [Hperm Hord].
    destruct (topological_order_complete table (length (instances m))
                (rev (instances m)) order) as [o Ho]; auto.
    + now rewrite length_rev.
    + rewrite Hperm. apply Permutation_rev.
    + congruence.
Qed.

(** ** Instances that do not depend on each other *)

Lemma NoDup_bind_disjoint {A B} (f : A -> list B) (l : list A) x y s :
  NoDup (l ≫= f) -> x ∈ l -> y ∈ l -> x <> y ->
  s ∈ f x -> s ∈ f y -> False.
Proof.
  induction l as [| z l IH]; intros Hnodup Hx Hy Hne Hsx Hsy.
  - now apply elem_of_nil in Hx.
  - cbn in Hnodup. apply NoDup_app in Hnodup as (_ & Hdisj & Hrest).
    apply elem_of_cons in Hx as [-> | Hx], Hy as [-> | Hy].
    + contradiction.
    + apply (Hdisj s Hsx). apply list_elem_of_bind. now exists y.
    + apply (Hdisj s Hsy). apply list_elem_of_bind. now exists x.
    + now apply IH.
Qed.

Lemma NoDup_fmap_eq {A B} (f : A -> B) (l : list A) x y :
  NoDup (f <$> l) -> x ∈ l -> y ∈ l -> f x = f y -> x = y.
Proof.
  induction l as [| z l IH]; intros Hnodup Hx Hy Heq.
  - now apply elem_of_nil in Hx.
  - cbn in Hnodup. apply NoDup_cons in Hnodup as [Hz Hnodup].
    apply elem_of_cons in Hx as [-> | Hx], Hy as [-> | Hy]; auto.
    + destruct Hz. rewrite Heq. now apply list_elem_of_fmap_2.
    + destruct Hz. rewrite <- Heq. now apply list_elem_of_fmap_2.
Qed.

Lemma independent_signals table x y s :
  depends_on table x y = false ->
  s ∈ input_signals table x -> s ∈ output_signals table y -> False.
Proof.
  unfold depends_on. intros Hdep Hin Hout.
  apply not_true_iff_false in Hdep. apply Hdep.
  apply existsb_exists. exists s. split; [now apply list_elem_of_In |].
  now apply bool_decide_eq_true_2.
Qed.

Section Independence.

Variable key : list string -> string -> string.
Variable N : string -> Prop.
Variable table : ModuleTable.

Hypothesis keys_unique : unique_keys N key.
Hypothesis table_named :
  forall name m, table !! name = Some m -> module_named N m.
Hypothesis table_driven_once :
  forall name m, table !! name = Some m -> driven_once table m.

Lemma bound_signals_named m x role s :
  module_named N m -> x ∈ instances m ->
  bound_signal x role = Some s -> N s.
Proof.
  intros (_ & _ & Hinsts) Hx Hbound.
  rewrite Forall_forall in Hinsts. destruct (Hinsts _ Hx) as [_ Hconns].
  rewrite Forall_forall in Hconns.
  unfold bound_signal in Hbound.
  destruct (List.find _ _) as [c |] eqn:Hfind; [| discriminate].
  injection Hbound as <-. apply Hconns.
  apply List.find_some in Hfind as [Hin _]. now apply list_elem_of_In.
Qed.

Lemma input_signals_named m x s :
  module_named N m -> x ∈ instances m -> s ∈ input_signals table x -> N s.
Proof.
  intros Hm Hx Hs. unfold input_signals in Hs.
  destruct (type_ports table (module x)) as [[ins outs] |];
    [| now apply elem_of_nil in Hs].
  apply list_elem_of_omap in Hs as (role & _ & Hbound).
  now apply (bound_signals_named m x role).
Qed.

Lemma output_signals_named m x s :
  module_named N m -> x ∈ instances m -> s ∈ output_signals table x -> N s.
Proof.
  intros Hm Hx Hs. unfold output_signals in Hs.
  destruct (type_ports table (module x)) as [[ins outs] |];
    [| now apply elem_of_nil in Hs].
  apply list_elem_of_omap in Hs as (role & _ & Hbound).
  now apply (bound_signals_named m x role).
Qed.

Lemma instance_named m x :
  module_named N m -> x ∈ instances m -> N (instance_name x).
Proof.
  intros (_ & _ & Hinsts) Hx. rewrite Forall_forall in Hinsts.
  now destruct (Hinsts _ Hx).
Qed.

Lemma key_not_under path s n :
  Forall N path -> N s -> N n ->
  ~ under key N (path ++ [n]) (key path s).
Proof.
  intros Hpath Hs Hn (q & s' & Hq & Hs' & Hkey).
  apply keys_unique in Hkey as [Hp _].
  - apply (f_equal length) in Hp. rewrite !length_app in Hp. simpl in Hp. lia.
  - rewrite Forall_app. split; [exact Hpath | now constructor].
  - rewrite !Forall_app. repeat split; auto; now constructor.
Qed.

Lemma under_apart path n1 n2 k :
  Forall N path -> N n1 -> N n2 ->
  under key N (path ++ [n1]) k -> under key N (path ++ [n2]) k -> n1 = n2.
Proof.
  intros Hpath H1 H2 (q1 & s1 & Hq1 & Hs1 & ->) (q2 & s2 & Hq2 & Hs2 & Hkey).
  apply keys_unique in Hkey as [Hp _].
  - rewrite <- !app_assoc in Hp. apply app_inv_head in Hp.
    now injection Hp.
  - rewrite !Forall_app. repeat split; auto; now constructor.
  - rewrite !Forall_app. repeat split; auto; now constructor.
Qed.

Lemma keys_of_same path l1 l2 k :
  Forall N path -> Forall N l1 -> Forall N l2 ->
  keys_of key path l1 k -> keys_of key path l2 k ->
  exists s, s ∈ l1 /\ s ∈ l2.
Proof.
  intros Hpath Hl1 Hl2 (s1 & Hs1 & ->) (s2 & Hs2 & Hkey).
  rewrite Forall_forall in Hl1, Hl2.
  apply keys_unique in Hkey as [_ ->].
  - now exists s2.
  - rewrite Forall_app. split; [exact Hpath |]. constructor; auto.
  - rewrite Forall_app. split; [exact Hpath |]. constructor; auto.
Qed.

Variable schedule : ModuleTable -> Module -> option (list Instance).
Hypothesis schedule_valid : valid_schedule table schedule.

Lemma instance_steps_swappable depth path name m x y :
  Forall N path -> table !! name = Some m ->
  x ∈ instances m -> y ∈ instances m -> x <> y ->
  depends_on table x y = false -> depends_on table y x = false ->
  swappable
    (instance_step key (evaluate key schedule depth table) table path) x y.
Proof.
  intros Hpath Hm Hx Hy Hne Hxy Hyx.
  pose proof (table_named _ _ Hm) as Hnamed.
  destruct (table_driven_once _ _ Hm) as [Hnames Hdriven].
  pose proof (instance_named _ _ Hnamed Hx) as Hnx.
  pose proof (instance_named _ _ Hnamed Hy) as Hny.
  assert (Hins : forall z, z ∈ instances m ->
                           Forall N (input_signals table z)).
  { intros z Hz. apply Forall_forall. intros s.
    now apply input_signals_named with m. }
  assert (Houts : forall z, z ∈ instances m ->
                            Forall N (output_signals table z)).
  { intros z Hz. apply Forall_forall. intros s.
    now apply output_signals_named with m. }
  assert (Hnot_under : forall z n l k,
            z ∈ instances m -> N n -> Forall N l ->
            keys_of key path l k -> under key N (path ++ [n]) k -> False).
  { intros z n l k Hz Hn Hl (s & Hs & ->). rewrite Forall_forall in Hl.
    apply key_not_under; auto. }
  assert (Hnames_differ : instance_name x <> instance_name y).
  { intros Heq. apply Hne.
    now apply (NoDup_fmap_eq instance_name (instances m)). }
  intros st.
  apply (acts_commute (reads key N table path x) (writes key N table path x)
           (reads key N table path y) (writes key N table path y)
           (fun st => instance_step key (evaluate key schedule depth table)
                        table path st x)
           (fun st => instance_step key (evaluate key schedule depth table)
                        table path st y)).
  - apply instance_step_acts.
    exact (evaluate_local key N table table_named schedule schedule_valid
             depth).
  - apply instance_step_acts.
    exact (evaluate_local key N table table_named schedule schedule_valid
             depth).
  - (* what [x] writes, [y] does not read *)
    intros k [Hwx | Hwx] [Hry | Hry].
    + destruct (keys_of_same path _ _ k Hpath (Houts x Hx) (Hins y Hy)
                  Hwx Hry) as (s & Hsx & Hsy).
      exact (independent_signals _ _ _ _ Hyx Hsy Hsx).
    + exact (Hnot_under x _ _ k Hx Hny (Houts x Hx) Hwx Hry).
    + exact (Hnot_under y _ _ k Hy Hnx (Hins y Hy) Hry Hwx).
    + exact (Hnames_differ (under_apart path _ _ k Hpath Hnx Hny Hwx Hry)).
  - (* what [y] writes, [x] does not read *)
    intros k [Hwy | Hwy] [Hrx | Hrx].
    + destruct (keys_of_same path _ _ k Hpath (Houts y Hy) (Hins x Hx)
                  Hwy Hrx) as (s & Hsy & Hsx).
      exact (independent_signals _ _ _ _ Hxy Hsx Hsy).
    + exact (Hnot_under y _ _ k Hy Hnx (Houts y Hy) Hwy Hrx).
    + exact (Hnot_under x _ _ k Hx Hny (Hins x Hx) Hrx Hwy).
    + exact (Hnames_differ (under_apart path _ _ k Hpath Hnx Hny Hrx Hwy)).
  - (* [x] and [y] write different keys *)
    intros k [Hwx | Hwx] [Hwy | Hwy].
    + destruct (keys_of_same path _ _ k Hpath (Houts x Hx) (Houts y Hy)
                  Hwx Hwy) as (s & Hsx & Hsy).
      exact (NoDup_bind_disjoint _ _ x y s Hdriven Hx Hy Hne Hsx Hsy).
    + exact (Hnot_under x _ _ k Hx Hny (Houts x Hx) Hwx Hwy).
    + exact (Hnot_under y _ _ k Hy Hnx (Houts y Hy) Hwy Hwx).
    + exact (Hnames_differ (under_apart path _ _ k Hpath Hnx Hny Hwx Hwy)).
Qed.

End Independence.

Lemma instance_step_ext key sub1 sub2 table path st x :
  (forall name iv st',
     ok (sub1 name iv st' (path ++ [instance_name x])) =
     ok (sub2 name iv st' (path ++ [instance_name x]))) ->
  ok (instance_step key sub1 table path st x) =
  ok (instance_step key sub2 table path st x).
Proof.
  intros Hsub. unfold instance_step.
  destruct (catalog_lookup (module x)) as [[ports eval] |]; [reflexivity |].
  destruct (table !! module x) as [m |]; [| reflexivity].
  specialize (Hsub (module x) (gather key st path x (inputs m)) st).
  destruct (sub1 _ _ _ _) as [[a o1] | |], (sub2 _ _ _ _) as [[b o2] | |];
    simpl in Hsub; try discriminate; try reflexivity.
  now injection Hsub as -> ->.
Qed.

Section TwoSchedules.

Variable key : list string -> string -> string.
Variable N : string -> Prop.
Variable table : ModuleTable.
Variables schedule1 schedule2 : ModuleTable -> Module -> option (list Instance).

Hypothesis keys_unique : unique_keys N key.
Hypothesis table_named :
  forall name m, table !! name = Some m -> module_named N m.
Hypothesis table_driven_once :
  forall name m, table !! name = Some m -> driven_once table m.
Hypothesis valid1 : valid_schedule table schedule1.
Hypothesis valid2 : valid_schedule table schedule2.

Lemma evaluate_any_order depth :
  forall name iv st path,
    Forall N path ->
    ok (evaluate key schedule1 depth table name iv st path) =
    ok (evaluate key schedule2 depth table name iv st path).
Proof.
  induction depth as [| depth IH]; intros name iv st path Hpath;
    [reflexivity |].
  cbn [evaluate].
  destruct (table !! name) as [m |] eqn:Hm; [| reflexivity].
  pose proof (valid1 m) as H1. pose proof (valid2 m) as H2.
  destruct (schedule1 table m) as [order1 |],
           (schedule2 table m) as [order2 |];
    [| now destruct (H2 order1) | now destruct (H1 order2) | reflexivity].
  destruct H1 as [Hperm1 Hord1], H2 as [Hperm2 Hord2].
  pose proof (table_named _ _ Hm) as Hnamed.
  destruct (table_driven_once _ _ Hm) as [Hnames _].
  set (st0 := bind_inputs key iv path (inputs m) st).
  assert (Hsame :
    ok (steps (instance_step key (evaluate key schedule1 depth table)
                 table path) order1 (Ok st0)) =
    ok (steps (instance_step key (evaluate key schedule2 depth table)
                 table path) order2 (Ok st0))).
  { etransitivity.
    - apply (steps_ext _
               (instance_step key (evaluate key schedule2 depth table)
                  table path)); [| reflexivity].
      intros s x Hx. apply instance_step_ext. intros n iv' s'.
      apply IH. rewrite Forall_app. split; [exact Hpath |].
      constructor; [| constructor].
      apply (instance_named N m); [exact Hnamed |]. now rewrite <- Hperm1.
    - apply (steps_permutation _ (depends_on table)); auto.
      + rewrite Hperm1. now apply NoDup_fmap_1 in Hnames.
      + now rewrite Hperm1, Hperm2.
      + intros x y Hx Hy Hne Hxy Hyx.
        rewrite Hperm1 in Hx, Hy.
        now apply (instance_steps_swappable key N table keys_unique
                     table_named table_driven_once schedule2 valid2
                     depth path name m). }
  destruct (steps _ order1 _) as [a | |], (steps _ order2 _) as [b | |];
    simpl in Hsame; try discriminate; try reflexivity.
  now injection Hsame as ->.
Qed.

End TwoSchedules.

(** ** Two runs of the evaluation *)

(** Lines 150-155 with the engine of the specification: the store of a run
    is the one the engine computes from the empty store at the root
    path. *)
Lemma evaluate_design_engine vf key schedule modules top_module
    input_vals debug w :
  simulate_module vf = engine key schedule ->
  ok (evaluate_design vf modules top_module input_vals debug w).1 =
  fst <$> ok (evaluate key schedule (S (size modules)) modules top_module
                input_vals ∅ [top_module]).
Proof.
  intros Hengine. unfold evaluate_design, call_out. rewrite Hengine.
  unfold engine.
  destruct (evaluate _ _ _ _ _ _ _ _) as [[store outs] | |]; reflexivity.
Qed.

(** C6. Take two libraries whose [simulate_module] is the engine of the
    specification, for one format of the keys and for two schedules that
    the dependency graph allows, and a module table in which, within every
    module, instance names are unique and no signal is driven by two
    outputs, and whose names [N] have unique keys. Then the store that the
    driver obtains for a top module and a mapping of the top-level inputs
    is the one the engine computes from the empty store at the root path,
    and it is the same in two runs whatever order of evaluation each of
    them chooses, whatever input is pending, whatever happened before and
    whatever the debug flag: both runs end with the same store, or both
    fail. *)
Theorem evaluation_order_independent
    vf1 vf2 key N schedule1 schedule2 modules top_module input_vals
    debug1 debug2 w1 w2 :
  simulate_module vf1 = engine key schedule1 ->
  simulate_module vf2 = engine key schedule2 ->
  unique_keys N key ->
  N top_module ->
  (forall name m, modules !! name = Some m ->
                  module_named N m /\ driven_once modules m) ->
  valid_schedule modules schedule1 ->
  valid_schedule modules schedule2 ->
  let run1 :=
    evaluate_design vf1 modules top_module input_vals debug1 w1 in
  let run2 :=
    evaluate_design vf2 modules top_module input_vals debug2 w2 in
  ok run1.1 =
    fst <$> ok (evaluate key schedule1 (S (size modules)) modules top_module
                  input_vals ∅ [top_module]) /\
  ok run1.1 = ok run2.1.
Proof.
  intros Hengine1 Hengine2 Hkeys Htop Htable Hvalid1 Hvalid2 run1 run2.
  subst run1 run2.
  rewrite (evaluate_design_engine vf1 key schedule1) by exact Hengine1.
  rewrite (evaluate_design_engine vf2 key schedule2) by exact Hengine2.
  split; [reflexivity |]. f_equal.
  apply (evaluate_any_order key N modules schedule1 schedule2 Hkeys);
    auto.
  - intros name m Hm. now destruct (Htable name m Hm).
  - intros name m Hm. now destruct (Htable name m Hm).
Qed.

Lemma plain_keys_unique :
  unique_keys (fun name => plain name = true) qualified_key.
Proof. intros p1 s1 p2 s2. apply qualified_key_plain_injective. Qed.

(** The example design under the two schedules of the model: the gates of
    its full adder are evaluated in different orders, and the stores are
    the same. *)
Lemma evaluation_order_independent_witness :
  let parsed file :=
    if bool_decide (file = "adder.v") then Some design else None in
  let input_vals := [("a", 1); ("b", 1); ("cin", 0)] in
  first_ready design full_adder_module <>
  last_listed design full_adder_module /\
  ok (evaluate_design (library qualified_key first_ready parsed) design
        "top" input_vals false (start [])).1 = Some example_store /\
  ok (evaluate_design (library qualified_key last_listed parsed) design
        "top" input_vals true
        {| stdin := ["y"]; log := [Printed MsgLoaded] |}).1
  = Some example_store.
Proof.
  intros parsed input_vals.
  assert (Hfirst :
    ok (evaluate_design (library qualified_key first_ready parsed) design
          "top" input_vals false (start [])).1 = Some example_store)
    by (vm_compute; reflexivity).
  split; [vm_compute; discriminate |]. split; [exact Hfirst |].
  rewrite <- Hfirst. symmetry.
  refine
    (proj2
       (evaluation_order_independent
          (library qualified_key first_ready parsed)
          (library qualified_key last_listed parsed) qualified_key
          (fun name => plain name = true) first_ready last_listed
          design "top" input_vals false true (start [])
          {| stdin := ["y"]; log := [Printed MsgLoaded] |}
          eq_refl eq_refl plain_keys_unique eq_refl _
          (first_ready_valid design) (last_listed_valid design))).
  intros name m Hm. unfold design in Hm.
  repeat (apply lookup_insert_Some in Hm as [[_ <-] | [_ Hm]];
          [split; [repeat (constructor || split) |];
           split; apply (bool_decide_unpack _); vm_compute; exact I |]).
  now rewrite lookup_empty in Hm.
Defined.

(** C6, as the claim has it, fails. The wire [w] of the top module is
    driven by a buffer and by an inverter of the input [a], and neither
    gate reads what the other produces: both orders of the two gates are
    topological orders, and for the same table and the same input the
    stores of the two runs differ under the key of [w]. *)
Lemma evaluation_depends_on_order :
  let parsed (file : string) := Some shorted in
  let store schedule :=
    ok (evaluate_design (library qualified_key schedule parsed) shorted
          "top" [("a", 1)] false (start [])).1 in
  ~ driven_once shorted shorted_module /\
  valid_schedule shorted first_ready /\
  valid_schedule shorted last_listed /\
  first_ready shorted shorted_module = Some (instances shorted_module) /\
  last_listed shorted shorted_module = Some (rev (instances shorted_module)) /\
  (store first_ready ≫= fun st => st !! signal_key "top" "w") = Some 0 /\
  (store last_listed ≫= fun st => st !! signal_key "top" "w") = Some 1.
Proof.
  cbv zeta. split.
  { intros [_ Hdriven]. vm_compute in Hdriven.
    apply NoDup_cons in Hdriven as [Hin _]. apply Hin. now left. }
  split; [apply first_ready_valid |].
  split; [apply last_listed_valid |].
  repeat split; vm_compute; reflexivity.
Qed.
